(** * Annotation overlay of the board: a shallow embedding of [src/svg.ts]

    The embedding follows the TypeScript source function by function and
    keeps its names.  JavaScript values are modelled as follows.

    - A [number] is an exact rational ([Q]).  The source only uses finite,
      non-NaN numbers; rounding errors of double arithmetic are outside the
      model.  [Number_toString] is the decimal rendering of a number (what
      string concatenation and [Array.prototype.join] apply to it).
    - A string is a [string]; [charCodeAt] is the code of the character.
    - An optional field [f?: T] is an [option T]; truthiness is written out
      ([truthy], [str_truthy], [num_truthy]).
    - [cg.Key] (the square names ['a0' | 'a1' | ... | 'h8']) is the
      inductive type [Key]; every key is a two-character, truthy string.
    - The DOM is a tree of [Element]s; a parent node is the list of its
      children, and [renderSvg] passes the mutated nodes explicitly. *)

From Stdlib Require Import ZArith QArith Qround Qabs Qcanon Lia Lqa String Ascii List Bool.
From stdpp Require Import base decidable option list strings pretty countable gmap.

Set Warnings "-clear-no-such-hyp".

Local Open Scope string_scope.
Local Open Scope list_scope.
Local Open Scope Z_scope.

(** ** JavaScript values held in the arrays that are filtered and joined *)

Definition number := Q.

(** [x] as a condition, for a number: everything but zero. *)
Definition num_truthy (x : number) : bool := negb (Qnum x =? 0).

(** [s] as a condition, for a string: everything but the empty string. *)
Definition str_truthy (s : string) : bool :=
  match s with EmptyString => false | String _ _ => true end.

(** [Math.round]: the nearest integer, halves towards +infinity. *)
Definition Math_round (x : number) : Z := Qfloor (x + (1 # 2)).

(** [Math.min] of two numbers. *)
Definition Math_min (x y : number) : number := if Qle_bool x y then x else y.

(** *** Number to string

    The digits of the fraction are produced by long division; the division
    stops when the remainder is zero.  For a reduced fraction [n/d] that is
    a finite decimal, at most [log2 d] digits are produced, which is the
    fuel. *)

Fixpoint frac_digits (fuel : nat) (r d : Z) : string :=
  match fuel with
  | O => ""
  | S f =>
      if r =? 0 then ""
      else String (pretty_N_char (Z.to_N (10 * r / d)))
                  (frac_digits f (10 * r mod d) d)
  end.

(** The remainder left when [frac_digits] stops. *)
Fixpoint frac_rem (fuel : nat) (r d : Z) : Z :=
  match fuel with
  | O => r
  | S f => if r =? 0 then 0 else frac_rem f (10 * r mod d) d
  end.

Definition Number_toString (x : number) : string :=
  let r := Qred x in
  let n := Z.abs (Qnum r) in
  let d := Z.pos (Qden r) in
  (if Qnum r <? 0 then "-" else "")
  +:+ pretty (Z.to_N (n / d))
  +:+ (if n mod d =? 0 then ""
       else "." +:+ frac_digits (Pos.size_nat (Qden r)) (n mod d) d).

(** [x] is a finite decimal: its long division ends within the fuel.  Every
    double is one. *)
Definition finite_decimal (x : number) : bool :=
  let r := Qred x in
  let d := Z.pos (Qden r) in
  frac_rem (Pos.size_nat (Qden r)) (Z.abs (Qnum r) mod d) d =? 0.

Inductive JsVal :=
| JUndef
| JBool (b : bool)
| JNum (x : number)
| JStr (s : string).

Definition truthy (v : JsVal) : bool :=
  match v with
  | JUndef => false
  | JBool b => b
  | JNum x => num_truthy x
  | JStr s => str_truthy s
  end.

(** What [join] and [+] turn an array element into. [join] renders
    [undefined] as the empty string. *)
Definition ToString (v : JsVal) : string :=
  match v with
  | JUndef => ""
  | JBool true => "true"
  | JBool false => "false"
  | JNum x => Number_toString x
  | JStr s => s
  end.

(** [a && b] *)
Definition js_and (a b : JsVal) : JsVal := if truthy a then b else a.

(** [o] for an optional string, as a value *)
Definition opt_str (o : option string) : JsVal :=
  match o with Some s => JStr s | None => JUndef end.

Definition opt_num (o : option number) : JsVal :=
  match o with Some x => JNum x | None => JUndef end.

Definition opt_bool (o : option bool) : JsVal :=
  match o with Some b => JBool b | None => JUndef end.

(** [Array.prototype.join] on strings *)
Fixpoint join_str (sep : string) (l : list string) : string :=
  match l with
  | [] => ""
  | [s] => s
  | s :: tl => s +:+ sep +:+ join_str sep tl
  end.

(** [Array.prototype.join] *)
Definition join (sep : string) (l : list JsVal) : string :=
  join_str sep (map ToString l).

(** [.filter(x => x)] *)
Definition filter_truthy (l : list JsVal) : list JsVal :=
  List.filter truthy l.


(** ** Types of [types.ts] and [draw.ts], as [svg.ts] uses them *)

Inductive Color := white | black.

Inductive Role := pawn | knight | bishop | rook | queen | king.

Inductive File := Fa | Fb | Fc | Fd | Fe | Ff | Fg | Fh.

Inductive Rank := R1 | R2 | R3 | R4 | R5 | R6 | R7 | R8.

(** [cg.Key = 'a0' | `${File}${Rank}`] *)
Inductive Key := a0 | Sq (f : File) (r : Rank).

Definition Color_str (c : Color) : string :=
  match c with white => "white" | black => "black" end.

Definition Role_str (r : Role) : string :=
  match r with
  | pawn => "pawn" | knight => "knight" | bishop => "bishop"
  | rook => "rook" | queen => "queen" | king => "king"
  end.

Definition File_char (f : File) : ascii :=
  match f with
  | Fa => "a" | Fb => "b" | Fc => "c" | Fd => "d"
  | Fe => "e" | Ff => "f" | Fg => "g" | Fh => "h"
  end%char.

Definition Rank_char (r : Rank) : ascii :=
  match r with
  | R1 => "1" | R2 => "2" | R3 => "3" | R4 => "4"
  | R5 => "5" | R6 => "6" | R7 => "7" | R8 => "8"
  end%char.

(** The string a key is at run time. *)
Definition Key_str (k : Key) : string :=
  match k with
  | a0 => "a0"
  | Sq f r => String (File_char f) (String (Rank_char r) "")
  end.

#[global] Instance Color_eq_dec : EqDecision Color.
Proof. solve_decision. Defined.
#[global] Instance File_eq_dec : EqDecision File.
Proof. solve_decision. Defined.
#[global] Instance Rank_eq_dec : EqDecision Rank.
Proof. solve_decision. Defined.
#[global] Instance Key_eq_dec : EqDecision Key.
Proof. solve_decision. Defined.

Definition all_files : list File := [Fa; Fb; Fc; Fd; Fe; Ff; Fg; Fh].
Definition all_ranks : list Rank := [R1; R2; R3; R4; R5; R6; R7; R8].
Definition all_keys : list Key :=
  a0 :: flat_map (λ f, map (Sq f) all_ranks) all_files.

Definition Key_of_str (s : string) : option Key :=
  List.find (λ k, String.eqb (Key_str k) s) all_keys.

Lemma Key_of_str_Key_str (k : Key) : Key_of_str (Key_str k) = Some k.
Proof. destruct k as [|[] []]; reflexivity. Qed.

#[global] Instance Key_countable : Countable Key :=
  inj_countable Key_str Key_of_str Key_of_str_Key_str.

Module DrawShapePiece.
Record t := mk { role : Role; color : Color; scale : option number }.
End DrawShapePiece.

Module DrawBrush.
Record t := mk {
  key : string;
  color : string;
  opacity : number;
  lineWidth : number }.
End DrawBrush.

Module DrawModifiers.
Record t := mk { lineWidth : option number; hilite : option bool }.
End DrawModifiers.

Module DrawShape.
Record t := mk {
  orig : Key;
  dest : option Key;
  brush : string;
  modifiers : option DrawModifiers.t;
  piece : option DrawShapePiece.t;
  customSvg : option string }.
End DrawShape.

Module DrawCurrent.
Record t := mk {
  orig : Key;
  dest : option Key;
  mouseSq : option Key;
  pos : number * number;
  brush : string;
  snapToValidMove : bool }.
End DrawCurrent.

(** [DrawBrushes]: an object indexed by brush name, [{ [color: string]:
    DrawBrush }]. *)
Definition DrawBrushes := string → DrawBrush.t.

Module Drawable.
Record t := mk {
  shapes : list DrawShape.t;
  autoShapes : list DrawShape.t;
  current : option DrawCurrent.t;
  brushes : DrawBrushes;
  prevSvgHash : string }.
End Drawable.

(** The two fields of a [DOMRectReadOnly] that are read. *)
Module DOMRect.
Record t := mk { width : number; height : number }.
End DOMRect.

(** [State], cut down to what [svg.ts] reads: [state.orientation],
    [state.dom.bounds()] and [state.drawable]. *)
Module State.
Record t := mk {
  orientation : Color;
  bounds : DOMRect.t;
  drawable : Drawable.t }.
End State.

(** [cg.Pos] and [cg.NumberPair] *)
Definition Pos := (Z * Z)%type.
Definition NumberPair := (number * number)%type.

Definition Hash := string.

(** [SyncableShape] of [sync.ts] *)
Module SyncableShape.
Record t := mk { shape : DrawShape.t; current : bool; hash : Hash }.
End SyncableShape.

(** [ArrowDests = Map<cg.Key, number>]: how many arrows land on a square *)
Abbreviation ArrowDests := (gmap Key nat).

(** [arrowDests.get(k) || 0] *)
Definition arrowDests_get (arrowDests : ArrowDests) (k : Key) : nat :=
  default 0%nat (arrowDests !! k).

(** ** The fingerprint of a shape *)

(** [ToInt32], [ToUint32] of ECMAScript, on integers *)
Definition ToInt32 (x : Z) : Z := (x + 2 ^ 31) mod 2 ^ 32 - 2 ^ 31.
Definition ToUint32 (x : Z) : Z := x mod 2 ^ 32.

(** [x << n]: a shift of the 32-bit signed view of [x], wrapped to 32 bits *)
Definition js_shl (x n : Z) : Z := ToInt32 (Z.shiftl (ToInt32 x) (Z.land n 31)).

(** [x >>> 0] *)
Definition js_ushr0 (x : Z) : Z := ToUint32 x.

Definition charCode (c : ascii) : Z := Z.of_nat (nat_of_ascii c).

Fixpoint customSvgHash_loop (s : string) (h : Z) : Z :=
  match s with
  | "" => h
  | String c s' => customSvgHash_loop s' (js_ushr0 (js_shl h 5 - h + charCode c))
  end.

Definition customSvgHash (s : string) : Hash :=
  "custom-" +:+ Number_toString (inject_Z (customSvgHash_loop s 0)).

Definition pieceHash (piece : DrawShapePiece.t) : Hash :=
  join "," (filter_truthy
    [ JStr (Color_str (DrawShapePiece.color piece));
      JStr (Role_str (DrawShapePiece.role piece));
      opt_num (DrawShapePiece.scale piece) ]).

Definition modifiersHash (m : DrawModifiers.t) : Hash :=
  join "," (filter_truthy
    [ opt_num (DrawModifiers.lineWidth m);
      opt_bool (DrawModifiers.hilite m) ]).

Definition opt_key (o : option Key) : JsVal :=
  match o with Some k => JStr (Key_str k) | None => JUndef end.

Definition shapeHash (s : DrawShape.t) (arrowDests : ArrowDests)
    (current : bool) (bounds : DOMRect.t) : Hash :=
  join "," (filter_truthy
    [ JNum (DOMRect.width bounds);
      JNum (DOMRect.height bounds);
      JBool current;
      JStr (Key_str (DrawShape.orig s));
      opt_key (DrawShape.dest s);
      JStr (DrawShape.brush s);
      match DrawShape.dest s with
      | Some d => js_and (JStr (Key_str d)) (JBool (1 <? arrowDests_get arrowDests d)%nat)
      | None => JUndef
      end;
      match DrawShape.piece s with
      | Some p => JStr (pieceHash p)
      | None => JUndef
      end;
      match DrawShape.modifiers s with
      | Some m => JStr (modifiersHash m)
      | None => JUndef
      end;
      match DrawShape.customSvg s with
      | Some c => js_and (JStr c) (JStr (customSvgHash c))
      | None => JUndef
      end ]).


(** ** Brushes and geometry *)

(** [x || y] on numbers *)
Definition num_or (x y : number) : number := if num_truthy x then x else y.

(** [o || y] for an optional number [o] *)
Definition opt_num_or (o : option number) (y : number) : number :=
  match o with Some x => num_or x y | None => y end.

Definition orient (pos : Pos) (color : Color) : Pos :=
  match color with
  | white => pos
  | black => (7 - fst pos, 7 - snd pos)
  end.

Definition makeCustomBrush (base : DrawBrush.t) (modifiers : DrawModifiers.t)
  : DrawBrush.t :=
  {| DrawBrush.color := DrawBrush.color base;
     DrawBrush.opacity :=
       (inject_Z (Math_round (DrawBrush.opacity base * 10)) / 10)%Q;
     DrawBrush.lineWidth :=
       inject_Z (Math_round
         (opt_num_or (DrawModifiers.lineWidth modifiers)
                     (DrawBrush.lineWidth base)));
     DrawBrush.key :=
       join "" (filter_truthy
         [ JStr (DrawBrush.key base);
           opt_num (DrawModifiers.lineWidth modifiers) ]) |}.

Definition lineWidth (brush : DrawBrush.t) (current : bool) : number :=
  ((num_or (DrawBrush.lineWidth brush) 10
    * (if current then 0.85 else 1)) / 64)%Q.

Definition opacity (brush : DrawBrush.t) (current : bool) : number :=
  (num_or (DrawBrush.opacity brush) 1 * (if current then 0.9 else 1))%Q.

Definition arrowMargin (shorten : bool) : number :=
  ((if shorten then 20 else 10) / 64)%Q.

(** [pos2user]; the quotients are those of [Q], so the definition stands for
    the source on bounds of non-zero width and height. *)
Definition pos2user (pos : Pos) (bounds : DOMRect.t) : NumberPair :=
  let xScale := Math_min 1%Q (DOMRect.width bounds / DOMRect.height bounds)%Q in
  let yScale := Math_min 1%Q (DOMRect.height bounds / DOMRect.width bounds)%Q in
  ((inject_Z (fst pos) - 3.5) * xScale,
   (3.5 - inject_Z (snd pos)) * yScale)%Q.

(** ** Scene nodes *)

(** An [SVGElement]: tag, attributes in the order they were first set, the
    markup assigned to [innerHTML] (if any), and children. *)
#[warnings="-register-all"]
Inductive Element :=
  El (tagName : string) (attrs : list (string * JsVal))
     (innerHTML : option string) (children : list Element).

Definition createElement (tagName : string) : Element := El tagName [] None [].

Definition el_attrs (el : Element) : list (string * JsVal) :=
  match el with El _ a _ _ => a end.

Definition el_children (el : Element) : list Element :=
  match el with El _ _ _ c => c end.

Definition el_tag (el : Element) : string :=
  match el with El t _ _ _ => t end.

(** [Map.prototype.set] and [Element.setAttribute]: an existing key keeps its
    place and gets the new value, a new key goes last. *)
Fixpoint assoc_set {V} (k : string) (v : V) (m : list (string * V))
  : list (string * V) :=
  match m with
  | [] => [(k, v)]
  | (k', v') :: tl =>
      if String.eqb k' k then (k', v) :: tl else (k', v') :: assoc_set k v tl
  end.

Fixpoint assoc_get {V} (k : string) (m : list (string * V)) : option V :=
  match m with
  | [] => None
  | (k', v') :: tl => if String.eqb k' k then Some v' else assoc_get k tl
  end.

Definition setAttribute (el : Element) (k : string) (v : JsVal) : Element :=
  match el with El t a h c => El t (assoc_set k v a) h c end.

(** [getAttribute]: the string the value was stored as, [None] for [null] *)
Definition getAttribute (el : Element) (k : string) : option string :=
  ToString <$> assoc_get k (el_attrs el).

Definition appendChild (parent child : Element) : Element :=
  match parent with El t a h c => El t a h (c ++ [child]) end.

Definition set_innerHTML (el : Element) (markup : string) : Element :=
  match el with El t a _ c => El t a (Some markup) c end.

Definition setAttributes (el : Element) (attrs : list (string * JsVal))
  : Element :=
  fold_left (λ e kv, setAttribute e (fst kv) (snd kv)) attrs el.

(** ** Rendering one shape *)

Definition renderMarker (brush : DrawBrush.t) : Element :=
  let marker := setAttributes (createElement "marker")
    [ ("id", JStr ("arrowhead-" +:+ DrawBrush.key brush));
      ("orient", JStr "auto");
      ("markerWidth", JNum 4.8%Q);
      ("markerHeight", JNum 8%Q);
      ("refX", JNum (if String.eqb (DrawBrush.key brush) "hilite"
                     then 3.86 else 4)%Q);
      ("refY", JNum 4%Q) ] in
  let marker := appendChild marker
    (setAttributes (createElement "path")
      [ ("d", JStr "M0.5,0.5 L3.7,4 L0.5,7.5");
        ("stroke-linecap", JStr "round");
        ("stroke-linejoin", JStr "round");
        ("stroke", JStr (DrawBrush.color brush));
        ("fill", JStr "none") ]) in
  setAttribute marker "cgKey" (JStr (DrawBrush.key brush)).

Definition renderLinearOpacityGradient (brush : DrawBrush.t) : Element :=
  let linearGradient := setAttributes (createElement "linearGradient")
    [ ("id", JStr ("linearOpacityGradient-" +:+ DrawBrush.key brush));
      ("x1", JStr "0%"); ("x2", JStr "100%");
      ("y1", JStr "0%"); ("y2", JStr "0%") ] in
  let stop1 := setAttributes (createElement "stop")
    [ ("offset", JStr "0%");
      ("stop-color", JStr (DrawBrush.color brush));
      ("stop-opacity", JNum 0%Q) ] in
  let stop2 := setAttributes (createElement "stop")
    [ ("offset", JStr "100%");
      ("stop-color", JStr (DrawBrush.color brush));
      ("stop-opacity", JNum 1%Q) ] in
  appendChild (appendChild linearGradient stop1) stop2.

Definition renderCustomSvg (customSvg : string) (pos : Pos)
    (bounds : DOMRect.t) : Element :=
  let '(x, y) := pos2user pos bounds in
  let g := setAttributes (createElement "g")
    [ ("transform",
       JStr ("translate(" +:+ Number_toString x +:+ ","
             +:+ Number_toString y +:+ ")")) ] in
  let svg := setAttributes (createElement "svg")
    [ ("width", JNum 1%Q); ("height", JNum 1%Q);
      ("viewBox", JStr "0 0 100 100") ] in
  appendChild g (set_innerHTML svg customSvg).

Definition renderSquare (brush : DrawBrush.t) (pos : Pos) (current : bool)
    (bounds : DOMRect.t) : Element :=
  let o := pos2user pos bounds in
  setAttributes (createElement "rect")
    [ ("stroke", JStr (DrawBrush.color brush));
      ("stroke-width", JNum (4 / 64)%Q);
      ("clip-path", JStr "inset(0)");
      ("fill", JStr "none");
      ("opacity", JNum (opacity brush current));
      ("width", JNum 1%Q);
      ("height", JNum 1%Q);
      ("x", JNum (fst o - 0.5)%Q);
      ("y", JNum (snd o - 0.5)%Q) ].

(** [shape.modifiers?.hilite], as the argument whose default is [false]
    and which is only tested for truth *)
Definition modifiers_hilite (s : DrawShape.t) : bool :=
  match DrawShape.modifiers s with
  | Some m => truthy (opt_bool (DrawModifiers.hilite m))
  | None => false
  end.

(** The tests of [renderShape]: [shape.customSvg], when truthy, and
    [shape.dest], when truthy and different from [shape.orig] *)
Definition custom_of (s : DrawShape.t) : option string :=
  match DrawShape.customSvg s with
  | Some c => if str_truthy c then Some c else None
  | None => None
  end.

Definition arrow_dest (s : DrawShape.t) : option Key :=
  match DrawShape.dest s with
  | Some d =>
      if str_truthy (Key_str d) && negb (bool_decide (d = DrawShape.orig s))
      then Some d else None
  | None => None
  end.

(** ** The definitions pool *)

Abbreviation CustomBrushes := (list (string * DrawBrush.t)).

Definition hilite_brush : DrawBrush.t :=
  {| DrawBrush.key := "hilite"; DrawBrush.color := "white";
     DrawBrush.opacity := 1%Q; DrawBrush.lineWidth := 1%Q |}.

(** [shape.dest] as a condition *)
Definition has_dest (s : DrawShape.t) : bool :=
  truthy (opt_key (DrawShape.dest s)).

(** The brush a shape is drawn with: [d.brushes[shape.brush]], made custom
    when the shape has modifiers *)
Definition shape_brush (brushes : DrawBrushes) (s : DrawShape.t) : DrawBrush.t :=
  let brush := brushes (DrawShape.brush s) in
  match DrawShape.modifiers s with
  | Some m => makeCustomBrush brush m
  | None => brush
  end.

(** One turn of the first loop of [syncDefs] *)
Definition syncDefs_collect (d : Drawable.t) (brushes : CustomBrushes)
    (s : SyncableShape.t) : CustomBrushes :=
  let shape := SyncableShape.shape s in
  if has_dest shape then
    let brush := shape_brush (Drawable.brushes d) shape in
    let brushes :=
      if modifiers_hilite shape
      then assoc_set "hilite" hilite_brush brushes
      else brushes in
    assoc_set (DrawBrush.key brush) brush brushes
  else brushes.

(** [keysInDom]: the [cgKey] attribute of every child of the node, [None]
    standing for [null] *)
Definition keysInDom (defsEl : list Element) : list (option string) :=
  map (λ el, getAttribute el "cgKey") defsEl.

Definition keysInDom_has (keys : list (option string)) (key : string) : bool :=
  bool_decide (Some key ∈ keys).

(** One turn of the last loop of [syncDefs] *)
Definition syncDefs_append (keys : list (option string))
    (defsEl : list Element) (kb : string * DrawBrush.t) : list Element :=
  if negb (keysInDom_has keys (fst kb))
  then (defsEl ++ [renderMarker (snd kb)])
         ++ [renderLinearOpacityGradient (snd kb)]
  else defsEl.

(** [syncDefs]; the children of [defsEl] after the call *)
Definition syncDefs (d : Drawable.t) (shapes : list SyncableShape.t)
    (defsEl : list Element) : list Element :=
  let brushes := fold_left (syncDefs_collect d) shapes [] in
  let keys := keysInDom defsEl in
  fold_left (syncDefs_append keys) brushes defsEl.

(** ** The render pass *)

(** The three nodes [renderSvg] looks up with [querySelector], each as the
    list of its children: [<defs>] and [<g>] of [svg], [<g>] of
    [customSvg]. *)
Module Scene.
Record t := mk {
  defsEl : list Element;
  shapesEl : list Element;
  customSvgsEl : list Element }.
End Scene.

(** [curD as DrawShape]: the fields of a shape that a [DrawCurrent] has *)
Definition DrawCurrent_as_DrawShape (c : DrawCurrent.t) : DrawShape.t :=
  {| DrawShape.orig := DrawCurrent.orig c;
     DrawShape.dest := DrawCurrent.dest c;
     DrawShape.brush := DrawCurrent.brush c;
     DrawShape.modifiers := None;
     DrawShape.piece := None;
     DrawShape.customSvg := None |}.

(** [cur = curD && curD.mouseSq ? (curD as DrawShape) : undefined] *)
Definition cur_of (d : Drawable.t) : option DrawShape.t :=
  match Drawable.current d with
  | Some curD =>
      if truthy (opt_key (DrawCurrent.mouseSq curD))
      then Some (DrawCurrent_as_DrawShape curD) else None
  | None => None
  end.

Definition nonPieceAutoShapes (d : Drawable.t) : list DrawShape.t :=
  List.filter (λ autoShape, negb (bool_decide (is_Some (DrawShape.piece autoShape))))
    (Drawable.autoShapes d).

(** One turn of the loop that fills [arrowDests] *)
Definition arrowDests_step (arrowDests : ArrowDests) (s : DrawShape.t)
  : ArrowDests :=
  match DrawShape.dest s with
  | Some dest =>
      if str_truthy (Key_str dest)
      then <[dest := (arrowDests_get arrowDests dest + 1)%nat]> arrowDests
      else arrowDests
  | None => arrowDests
  end.

Definition arrowDests_of (d : Drawable.t) : ArrowDests :=
  fold_left arrowDests_step
    ((Drawable.shapes d ++ nonPieceAutoShapes d) ++ option_list (cur_of d)) ∅.

(** The list [shapes] of [renderSvg] *)
Definition syncable_shapes (d : Drawable.t) (bounds : DOMRect.t)
  : list SyncableShape.t :=
  let arrowDests := arrowDests_of d in
  map (λ s, {| SyncableShape.shape := s;
               SyncableShape.current := false;
               SyncableShape.hash := shapeHash s arrowDests false bounds |})
      (Drawable.shapes d ++ nonPieceAutoShapes d)
  ++ match cur_of d with
     | Some cur =>
         [ {| SyncableShape.shape := cur;
              SyncableShape.current := true;
              SyncableShape.hash := shapeHash cur arrowDests true bounds |} ]
     | None => []
     end.

Definition fullHash_of (shapes : list SyncableShape.t) : string :=
  join_str ";" (map SyncableShape.hash shapes).

Definition set_prevSvgHash (state : State.t) (h : string) : State.t :=
  let d := State.drawable state in
  {| State.orientation := State.orientation state;
     State.bounds := State.bounds state;
     State.drawable :=
       {| Drawable.shapes := Drawable.shapes d;
          Drawable.autoShapes := Drawable.autoShapes d;
          Drawable.current := Drawable.current d;
          Drawable.brushes := Drawable.brushes d;
          Drawable.prevSvgHash := h |} |}.

(** ** Rendering an arrow, a shape, the pass *)

Section Render.

(** [key2pos] of [util.ts], which is not part of the translated file. *)
Variable key2pos : Key → Pos.

(** The functions of [Math] that have no exact counterpart on rationals. *)
Variable Math_atan2 : number → number → number.
Variables Math_cos Math_sin Math_sqrt : number → number.
Variable Math_PI : number.

(** The body of [renderInner] below the binding of the margin [m]. *)
Definition renderInner_with (m : number) (brush : DrawBrush.t)
    (orig dest : Pos) (current : bool) (bounds : DOMRect.t)
    (isHilite : bool) : Element :=
  let a := pos2user orig bounds in
  let b := pos2user dest bounds in
  let dx := (fst b - fst a)%Q in
  let dy := (snd b - snd a)%Q in
  let angle := Math_atan2 dy dx in
  let xo := (Math_cos angle * m)%Q in
  let yo := (Math_sin angle * m)%Q in
  let height :=
    (lineWidth brush current / 3 + (if isHilite then 0.04 else 0))%Q in
  let width := (Math_sqrt (dx * dx + dy * dy) - m)%Q in
  let group := setAttributes (createElement "g") [] in
  let arrowRect := setAttributes (createElement "rect")
    [ ("stroke", JStr "none");
      ("stroke-linejoin", JStr "round");
      ("mask", JStr "url(#markerLinearOpacityGradientMask)");
      ("fill", JStr (if isHilite then "white"
                     else "url(#linearOpacityGradient-"
                          +:+ DrawBrush.key brush +:+ ")"));
      ("opacity", JNum (if isHilite then 1%Q else opacity brush current));
      ("height", JNum height);
      ("width", JNum width);
      ("x", JNum (fst a));
      ("y", JNum (snd a - height / 2)%Q);
      ("transform",
       JStr ("rotate(" +:+ Number_toString (angle * 180 / Math_PI)%Q
             +:+ " " +:+ Number_toString (fst a)
             +:+ " " +:+ Number_toString (snd a) +:+ ")")) ] in
  let arrowLine := setAttributes (createElement "line")
    [ ("stroke", JStr "transparent");
      ("stroke-width", JNum height);
      ("stroke-linecap", JStr "round");
      ("marker-end",
       JStr ("url(#arrowhead-"
             +:+ (if isHilite then "hilite" else DrawBrush.key brush)
             +:+ ")"));
      ("opacity", JNum (if isHilite then 1%Q else opacity brush current));
      ("x1", JNum (fst a));
      ("y1", JNum (snd a));
      ("x2", JNum (fst b - xo)%Q);
      ("y2", JNum (snd b - yo)%Q) ] in
  appendChild (appendChild group arrowRect) arrowLine.

Definition renderInner (brush : DrawBrush.t) (orig dest : Pos)
    (current shorten : bool) (bounds : DOMRect.t) (isHilite : bool)
  : Element :=
  let m := arrowMargin (shorten && negb current) in
  renderInner_with m brush orig dest current bounds isHilite.

Definition renderRectangleArrow (brush : DrawBrush.t) (orig dest : Pos)
    (current shorten : bool) (bounds : DOMRect.t) (hilited : bool)
  : Element :=
  let renderInner := renderInner brush orig dest current shorten bounds in
  if hilited
  then fold_left appendChild (map renderInner [true; false]) (createElement "g")
  else renderInner false.

(** [renderRectangleArrow] for a given margin: both passes of a hilited
    arrow use the same one. *)
Definition renderRectangleArrow_with (m : number) (brush : DrawBrush.t)
    (orig dest : Pos) (current : bool) (bounds : DOMRect.t) (hilited : bool)
  : Element :=
  let renderInner := renderInner_with m brush orig dest current bounds in
  if hilited
  then fold_left appendChild (map renderInner [true; false]) (createElement "g")
  else renderInner false.

Definition renderShape (state : State.t) (sc : SyncableShape.t)
    (brushes : DrawBrushes) (arrowDests : ArrowDests) (bounds : DOMRect.t)
  : Element :=
  let shape := SyncableShape.shape sc in
  let current := SyncableShape.current sc in
  let orig := orient (key2pos (DrawShape.orig shape)) (State.orientation state) in
  let el :=
    match custom_of shape with
    | Some customSvg => renderCustomSvg customSvg orig bounds
    | None =>
        match arrow_dest shape with
        | Some dest =>
            let brush := brushes (DrawShape.brush shape) in
            let brush :=
              match DrawShape.modifiers shape with
              | Some m => makeCustomBrush brush m
              | None => brush
              end in
            renderRectangleArrow brush orig
              (orient (key2pos dest) (State.orientation state))
              current (1 <? arrowDests_get arrowDests dest)%nat bounds
              (modifiers_hilite shape)
        | None =>
            renderSquare (brushes (DrawShape.brush shape)) orig current bounds
        end
    end in
  setAttribute el "cgHash" (JStr (SyncableShape.hash sc)).

(** [syncShapes] of [sync.ts]: the children of [root] after the call. *)
Variable syncShapes :
  list SyncableShape.t → list Element → (SyncableShape.t → Element)
  → list Element.

(** [renderSvg]: the state and the three nodes after the call *)
Definition renderSvg (state : State.t) (scene : Scene.t) : State.t * Scene.t :=
  let d := State.drawable state in
  let arrowDests := arrowDests_of d in
  let bounds := State.bounds state in
  let shapes := syncable_shapes d bounds in
  let fullHash := fullHash_of shapes in
  if String.eqb fullHash (Drawable.prevSvgHash d) then (state, scene)
  else
    let state := set_prevSvgHash state fullHash in
    let defsEl := syncDefs d shapes (Scene.defsEl scene) in
    let shapesEl :=
      syncShapes
        (List.filter (λ s, negb (truthy (opt_str (DrawShape.customSvg (SyncableShape.shape s))))) shapes)
        (Scene.shapesEl scene)
        (λ shape, renderShape state shape (Drawable.brushes d) arrowDests bounds) in
    let customSvgsEl :=
      syncShapes
        (List.filter (λ s, truthy (opt_str (DrawShape.customSvg (SyncableShape.shape s)))) shapes)
        (Scene.customSvgsEl scene)
        (λ shape, renderShape state shape (Drawable.brushes d) arrowDests bounds) in
    (state,
     {| Scene.defsEl := defsEl;
        Scene.shapesEl := shapesEl;
        Scene.customSvgsEl := customSvgsEl |}).

End Render.

(** ** Collaborators that are not in the translated file *)

(** Modelled from the spec: [syncShapes] of [sync.ts], the reconciliation
    primitive, is not among the sources.  Section 6 of the specification:
    the children of the parent are synchronised with the desired list by
    fingerprint; a child whose fingerprint is desired is reused, any other
    child is removed, and a desired shape with no such child is rendered
    and inserted, in the order of the desired list. *)
Definition syncShapes_model (shapes : list SyncableShape.t)
    (root : list Element) (renderShape : SyncableShape.t → Element)
  : list Element :=
  let desired := map SyncableShape.hash shapes in
  let inDom := omap (λ el, getAttribute el "cgHash") root in
  List.filter
    (λ el, match getAttribute el "cgHash" with
           | Some h => bool_decide (h ∈ desired)
           | None => false
           end) root
  ++ map renderShape
       (List.filter (λ sc, negb (bool_decide (SyncableShape.hash sc ∈ inDom)))
          shapes).

Definition File_index (f : File) : Z :=
  match f with
  | Fa => 0 | Fb => 1 | Fc => 2 | Fd => 3 | Fe => 4 | Ff => 5 | Fg => 6 | Fh => 7
  end.

Definition Rank_index (r : Rank) : Z :=
  match r with
  | R1 => 0 | R2 => 1 | R3 => 2 | R4 => 3 | R5 => 4 | R6 => 5 | R7 => 6 | R8 => 7
  end.

(** Modelled from the spec: [key2pos] of [util.ts] is not among the sources.
    A square is an 8x8 grid coordinate: its file and its rank, counted from
    zero; ['a0'] lies one rank below the board. *)
Definition key2pos_model (k : Key) : Pos :=
  match k with
  | a0 => (0, -1)
  | Sq f r => (File_index f, Rank_index r)
  end.

(** Rational stand-ins for the functions of [Math], to run examples with.
    The theorems hold for any functions in their place. *)
Definition PI_approx : number := 355 # 113.

Definition sqrt_approx (x : number) : number :=
  Z.sqrt (Qfloor (x * 1000000000000)) # 1000000.

Definition cos_approx (x : number) : number :=
  (1 - x * x / 2 + x * x * x * x / 24)%Q.

Definition sin_approx (x : number) : number :=
  (x - x * x * x / 6 + x * x * x * x * x / 120)%Q.

Definition atan_approx (z : number) : number :=
  (z / (1 + 0.28 * z * z))%Q.

Definition atan2_approx (y x : number) : number :=
  if Qle_bool (Qabs y) (Qabs x)
  then
    if Qle_bool 0 x then atan_approx (y / x)%Q
    else if Qle_bool 0 y then (atan_approx (y / x) + PI_approx)%Q
    else (atan_approx (y / x) - PI_approx)%Q
  else
    if Qle_bool 0 y then (PI_approx / 2 - atan_approx (x / y))%Q
    else (- (PI_approx / 2) - atan_approx (x / y))%Q.

(** A brush catalogue to run examples with: the default brushes of the
    board.  Names outside the catalogue are not looked up by a well-formed
    state; they stand for the first brush here. *)
Definition brushes_model : DrawBrushes := λ name,
  if String.eqb name "red"
  then DrawBrush.mk "r" "#882020" 1%Q 10%Q
  else if String.eqb name "blue"
  then DrawBrush.mk "b" "#003088" 1%Q 10%Q
  else if String.eqb name "yellow"
  then DrawBrush.mk "y" "#e68f00" 1%Q 10%Q
  else if String.eqb name "paleBlue"
  then DrawBrush.mk "pb" "#003088" 0.4%Q 15%Q
  else if String.eqb name "paleGrey"
  then DrawBrush.mk "pgr" "#4a4a4a" 0.35%Q 15%Q
  else DrawBrush.mk "g" "#15781B" 1%Q 10%Q.

(** A plain arrow or square highlight: no modifiers, piece or markup *)
Definition plain_shape (orig : Key) (dest : option Key) (brush : string)
  : DrawShape.t :=
  DrawShape.mk orig dest brush None None None.

Definition bounds_512 : DOMRect.t := DOMRect.mk 512%Q 512%Q.

(** Two persisted arrows to e4 and a live third one *)
Definition state_three_to_e4 : State.t :=
  {| State.orientation := white;
     State.bounds := bounds_512;
     State.drawable :=
       {| Drawable.shapes :=
            [ plain_shape (Sq Fa R1) (Some (Sq Fe R4)) "green";
              plain_shape (Sq Fb R1) (Some (Sq Fe R4)) "green" ];
          Drawable.autoShapes := [];
          Drawable.current :=
            Some (DrawCurrent.mk (Sq Fc R1) (Some (Sq Fe R4))
                    (Some (Sq Fe R4)) (0%Q, 0%Q) "green" false);
          Drawable.brushes := brushes_model;
          Drawable.prevSvgHash := "" |} |}.

Definition e4 : Key := Sq Fe R4.

(** The same three arrows, all persisted *)
Definition state_three_persisted : State.t :=
  {| State.orientation := white;
     State.bounds := bounds_512;
     State.drawable :=
       {| Drawable.shapes :=
            [ plain_shape (Sq Fa R1) (Some e4) "green";
              plain_shape (Sq Fb R1) (Some e4) "green";
              plain_shape (Sq Fc R1) (Some e4) "green" ];
          Drawable.autoShapes := [];
          Drawable.current := None;
          Drawable.brushes := brushes_model;
          Drawable.prevSvgHash := "" |} |}.

(** The live arrow of [state_three_to_e4], as the pass wraps it *)
Definition live_of_three : SyncableShape.t :=
  {| SyncableShape.shape := plain_shape (Sq Fc R1) (Some e4) "green";
     SyncableShape.current := true;
     SyncableShape.hash := "512,512,true,c1,e4,green,true" |}.

(** A hilited square highlight: the hilite modifier, no destination *)
Definition hilited_square : DrawShape.t :=
  DrawShape.mk e4 None "green"
    (Some (DrawModifiers.mk None (Some true))) None None.

Definition empty_scene : Scene.t := Scene.mk [] [] [].

(** ** Notions used in the statements *)

Definition is_digit (c : ascii) : bool :=
  (48 <=? nat_of_ascii c)%nat && (nat_of_ascii c <=? 57)%nat.

Fixpoint all_digits (s : string) : bool :=
  match s with
  | "" => true
  | String c s' => is_digit c && all_digits s'
  end.

(** A run of digits ends where the text stops or at the decimal point. *)
Definition frac_tail (t : string) : Prop :=
  t = "" ∨ ∃ t0, t = String "."%char t0.

(** The characters of a rendered number: digits, the sign, the point. *)
Definition is_num_char (c : ascii) : bool :=
  is_digit c || Ascii.eqb c "-" || Ascii.eqb c ".".

Fixpoint all_chars (P : ascii → bool) (s : string) : bool :=
  match s with
  | "" => true
  | String c s' => P c && all_chars P s'
  end.

(** The text [join] puts after its first element. *)
Fixpoint join_tail (sep : string) (l : list string) : string :=
  match l with
  | [] => ""
  | s :: tl => sep +:+ s +:+ join_tail sep tl
  end.

(** The text [join] puts before an element that follows [pre]. *)
Definition join_head (sep : string) (pre : list string) : string :=
  match pre with
  | [] => ""
  | p :: ps => p +:+ join_tail sep ps +:+ sep
  end.

(** What an array element contributes after [.filter(x => x)]. *)
Definition entry (v : JsVal) : option string :=
  if truthy v then Some (ToString v) else None.

(** The line width and the hilite flag that count: an absent field, a zero
    width and a false flag are all dropped by the filter. *)
Definition width_eff (o : option DrawModifiers.t) : option number :=
  match o with
  | Some m =>
      match DrawModifiers.lineWidth m with
      | Some w => if num_truthy w then Some w else None
      | None => None
      end
  | None => None
  end.

Definition hilite_eff (o : option DrawModifiers.t) : bool :=
  match o with
  | Some m => truthy (opt_bool (DrawModifiers.hilite m))
  | None => false
  end.

Definition opt_Qeq (a b : option number) : Prop :=
  match a, b with
  | Some x, Some y => (x == y)%Q
  | None, None => True
  | _, _ => False
  end.

(** Modifiers that differ at most in dropped fields *)
Definition mods_equiv (o o' : option DrawModifiers.t) : Prop :=
  hilite_eff o = hilite_eff o' ∧ opt_Qeq (width_eff o) (width_eff o').

Definition mods_decimal (o : option DrawModifiers.t) : Prop :=
  ∀ w, width_eff o = Some w → finite_decimal w = true.

(** [modifiers && modifiersHash(modifiers)] *)
Definition mods_entry (o : option DrawModifiers.t) : JsVal :=
  match o with Some m => JStr (modifiersHash m) | None => JUndef end.

(** [customSvg && customSvgHash(customSvg)] *)
Definition custom_entry (o : option string) : JsVal :=
  match o with
  | Some c => js_and (JStr c) (JStr (customSvgHash c))
  | None => JUndef
  end.

(** The custom markup as far as the fingerprint sees it: its rolling hash,
    if there is markup at all. *)
Definition custom_eff (o : option string) : option Z :=
  match o with
  | Some c => if str_truthy c then Some (customSvgHash_loop c 0) else None
  | None => None
  end.

Definition mods_str (w : option number) (h : bool) : string :=
  match w, h with
  | None, false => ""
  | Some w, false => Number_toString w
  | None, true => "true"
  | Some w, true => Number_toString w +:+ ",true"
  end.

(** The entry for the shared-destination flag *)
Definition shared_entry (arrowDests : ArrowDests) (d : option Key) : JsVal :=
  match d with
  | Some d => js_and (JStr (Key_str d)) (JBool (1 <? arrowDests_get arrowDests d)%nat)
  | None => JUndef
  end.

Definition piece_entry (p : option DrawShapePiece.t) : JsVal :=
  match p with Some p => JStr (pieceHash p) | None => JUndef end.

(** The fingerprint of the shape with the given fields *)
Abbreviation hash_of o d br m p c t cur w h :=
  (shapeHash (DrawShape.mk o d br m p c) t cur (DOMRect.mk w h)).

(** The shapes of a pass, in the order of the loop that fills [arrowDests] *)
Definition pass_shapes (d : Drawable.t) : list DrawShape.t :=
  (Drawable.shapes d ++ nonPieceAutoShapes d) ++ option_list (cur_of d).

(** How many shapes of a list have the destination [k] *)
Definition dest_count (l : list DrawShape.t) (k : Key) : nat :=
  length (List.filter (λ s, bool_decide (DrawShape.dest s = Some k)) l).

(** The margin rule as the specification words it *)
Definition pass_margin (d : Drawable.t) (dest : Key) (current : bool) : number :=
  if (1 <? dest_count (pass_shapes d) dest)%nat && negb current
  then (20 / 64)%Q else (10 / 64)%Q.

(** The brushes the first loop of [syncDefs] collects *)
Definition required_brushes (d : Drawable.t) (shapes : list SyncableShape.t)
  : CustomBrushes :=
  fold_left (syncDefs_collect d) shapes [].

(** The arrowhead markers and the gradients for a key, among some nodes *)
Definition markers_for (key : string) (els : list Element) : nat :=
  length (List.filter
    (λ el, String.eqb (el_tag el) "marker"
           && bool_decide (getAttribute el "cgKey" = Some key)) els).

Definition gradients_for (key : string) (els : list Element) : nat :=
  length (List.filter
    (λ el, String.eqb (el_tag el) "linearGradient"
           && bool_decide (getAttribute el "id"
                           = Some ("linearOpacityGradient-" +:+ key))) els).

Definition set_autoShapes (state : State.t) (l : list DrawShape.t) : State.t :=
  let d := State.drawable state in
  {| State.orientation := State.orientation state;
     State.bounds := State.bounds state;
     State.drawable :=
       {| Drawable.shapes := Drawable.shapes d;
          Drawable.autoShapes := l;
          Drawable.current := Drawable.current d;
          Drawable.brushes := Drawable.brushes d;
          Drawable.prevSvgHash := Drawable.prevSvgHash d |} |}.

(** The rolling hash of the specification: [h <- 31 * h + c], modulo 2^32 *)
Fixpoint rolling31 (s : string) (h : Z) : Z :=
  match s with
  | "" => h
  | String c s' => rolling31 s' ((31 * h + charCode c) mod 2 ^ 32)
  end.

(** A state whose pass holds the persisted shapes only *)
Definition state_of_shapes (orientation : Color) (bounds : DOMRect.t)
    (brushes : DrawBrushes) (prev : string) (shapes : list DrawShape.t)
  : State.t :=
  {| State.orientation := orientation;
     State.bounds := bounds;
     State.drawable :=
       {| Drawable.shapes := shapes;
          Drawable.autoShapes := [];
          Drawable.current := None;
          Drawable.brushes := brushes;
          Drawable.prevSvgHash := prev |} |}.

(** What the last loop of [syncDefs] appends: a marker and a gradient for
    every collected brush whose key no child of the node carries *)
Definition new_defs (keys : list (option string)) (brushes : CustomBrushes)
  : list Element :=
  flat_map
    (λ kb : string * DrawBrush.t,
       if negb (keysInDom_has keys (fst kb))
       then [renderMarker (snd kb); renderLinearOpacityGradient (snd kb)]
       else [])
    brushes.

(** Every brush of the map is stored under its own key. *)
Definition keyed (m : CustomBrushes) : Prop :=
  Forall (λ kb : string * DrawBrush.t, DrawBrush.key (snd kb) = fst kb) m.

(** A shape of the list makes the first loop of [syncDefs] collect [k]. *)
Definition requires (d : Drawable.t) (shapes : list SyncableShape.t)
    (k : string) : Prop :=
  ∃ sc, sc ∈ shapes
    ∧ has_dest (SyncableShape.shape sc) = true
    ∧ (k = DrawBrush.key
             (shape_brush (Drawable.brushes d) (SyncableShape.shape sc))
       ∨ (modifiers_hilite (SyncableShape.shape sc) = true ∧ k = "hilite")).

(** The suffix of a derived key: the override width that counts, rendered *)
Definition key_suffix (w : option number) : string :=
  match w with Some x => Number_toString x | None => "" end.

(** The derived brush as the specification words it: the override width, if
    present, replaces the base width and is appended to the key. *)
Definition derived_as_stated (base : DrawBrush.t) (m : DrawModifiers.t)
  : Prop :=
  let b := makeCustomBrush base m in
  let w := DrawModifiers.lineWidth m in
  DrawBrush.color b = DrawBrush.color base
  ∧ DrawBrush.opacity b
    = (inject_Z (Math_round (DrawBrush.opacity base * 10)) / 10)%Q
  ∧ DrawBrush.lineWidth b
    = inject_Z (Math_round (default (DrawBrush.lineWidth base) w))
  ∧ DrawBrush.key b = DrawBrush.key base +:+ key_suffix w.

(** The scale of an attached piece that counts: an absent scale and a zero
    scale are both dropped from the piece sub-hash. *)
Definition scale_eff (p : DrawShapePiece.t) : option number :=
  match DrawShapePiece.scale p with
  | Some x => if num_truthy x then Some x else None
  | None => None
  end.

(** Attached pieces that differ at most in a dropped scale *)
Definition piece_equiv (p p' : option DrawShapePiece.t) : Prop :=
  match p, p' with
  | Some a, Some b =>
      DrawShapePiece.color a = DrawShapePiece.color b
      ∧ DrawShapePiece.role a = DrawShapePiece.role b
      ∧ opt_Qeq (scale_eff a) (scale_eff b)
  | None, None => True
  | _, _ => False
  end.

Definition piece_decimal (p : option DrawShapePiece.t) : Prop :=
  ∀ a x, p = Some a → scale_eff a = Some x → finite_decimal x = true.

Definition not_comma (c : ascii) : bool := negb (Ascii.eqb c ",").

(** The definitions node holds the marker and the gradient that arrows of
    the brush key [k] refer to by id. *)
Definition has_defs (pool : list Element) (k : string) : Prop :=
  (∃ el, el ∈ pool ∧ el_tag el = "marker"
         ∧ getAttribute el "id" = Some ("arrowhead-" +:+ k))
  ∧ (∃ el, el ∈ pool ∧ el_tag el = "linearGradient"
           ∧ getAttribute el "id" = Some ("linearOpacityGradient-" +:+ k)).

(** Every key tagged on a child of the node has its two definitions. *)
Definition pool_wf (pool : list Element) : Prop :=
  ∀ k, Some k ∈ keysInDom pool → has_defs pool k.

(** The inner arrows of the element of an arrow: the halo and the coloured
    arrow when the arrow is hilited, the element itself otherwise. *)
Definition arrow_passes (el : Element) (hilited : bool) : list Element :=
  if hilited then el_children el else [el].

(** What an inner arrow shows of its geometry: a shaft rectangle that starts
    at [a] and is [width] long, and a line that runs from [a] to [e]. *)
Definition inner_arrow_shows (g : Element) (a e : NumberPair)
    (width : number) : Prop :=
  ∃ rect line,
    el_children g = [rect; line]
    ∧ el_tag rect = "rect" ∧ el_tag line = "line"
    ∧ assoc_get "x" (el_attrs rect) = Some (JNum (fst a))
    ∧ assoc_get "width" (el_attrs rect) = Some (JNum width)
    ∧ assoc_get "x1" (el_attrs line) = Some (JNum (fst a))
    ∧ assoc_get "y1" (el_attrs line) = Some (JNum (snd a))
    ∧ assoc_get "x2" (el_attrs line) = Some (JNum (fst e))
    ∧ assoc_get "y2" (el_attrs line) = Some (JNum (snd e)).

(** * Properties *)

(** ** Strings *)

Module Str.

Lemma app_cons (c : ascii) (s t : string) :
  String c s +:+ t = String c (s +:+ t).
Proof. reflexivity. Qed.

Lemma app_nil_l (t : string) : "" +:+ t = t.
Proof. reflexivity. Qed.

Lemma length_app (s t : string) :
  String.length (s +:+ t) = (String.length s + String.length t)%nat.
Proof.
  induction s as [|c s IH]; [done|]. rewrite app_cons; simpl; congruence.
Qed.

Lemma app_nil_r (s : string) : s +:+ "" = s.
Proof. induction s as [|c s IH]; [done|]. rewrite app_cons; congruence. Qed.

Lemma app_assoc (s t u : string) : (s +:+ t) +:+ u = s +:+ (t +:+ u).
Proof.
  induction s as [|c s IH]; [done|]. rewrite !app_cons; congruence.
Qed.

(** Two concatenations with heads of equal length agree componentwise. *)
Lemma app_inv_len (s s' t t' : string) :
  String.length s = String.length s' →
  s +:+ t = s' +:+ t' → s = s' ∧ t = t'.
Proof.
  revert s'; induction s as [|c s IH]; intros [|c' s'] Hlen Heq;
    try discriminate; [done|].
  rewrite !app_cons in Heq.
  injection Heq as -> Heq. injection Hlen as Hlen.
  destruct (IH s' Hlen Heq) as [-> ->]; done.
Qed.

Lemma app_inv_tail (s s' t : string) : s +:+ t = s' +:+ t → s = s'.
Proof.
  intros Heq. apply (app_inv_len s s' t t); [|done].
  apply (f_equal String.length) in Heq. rewrite !length_app in Heq. lia.
Qed.

End Str.

(** ** Examples of the numeric and hashing primitives *)

Example Number_toString_512 : Number_toString (512 # 1) = "512".
Proof. reflexivity. Qed.
Example Number_toString_half : Number_toString (-1 # 2) = "-0.5".
Proof. reflexivity. Qed.
Example Number_toString_dec : Number_toString (3125 # 10000) = "0.3125".
Proof. reflexivity. Qed.
Example Number_toString_fin : finite_decimal (20 # 64) = true.
Proof. reflexivity. Qed.
Example Number_toString_third : finite_decimal (1 # 3) = false.
Proof. reflexivity. Qed.
Example customSvgHash_Aa : customSvgHash "Aa" = "custom-2112".
Proof. reflexivity. Qed.
Example customSvgHash_BB : customSvgHash "BB" = "custom-2112".
Proof. reflexivity. Qed.

(** ** Decimal rendering *)

Lemma pretty_N_char_digit (x : N) : is_digit (pretty_N_char x) = true.
Proof. unfold pretty_N_char. repeat case_match; reflexivity. Qed.

Lemma pretty_N_go_digits (x : N) (s : string) :
  all_digits s = true → all_digits (pretty_N_go x s) = true.
Proof.
  revert s. induction (N.lt_wf_0 x) as [x _ IH]; intros s Hs.
  destruct (decide (x = 0)%N) as [->|Hx]; [by rewrite pretty_N_go_0|].
  rewrite pretty_N_go_step by lia. apply IH.
  - apply N.div_lt; lia.
  - simpl. by rewrite pretty_N_char_digit, Hs.
Qed.

Lemma pretty_N_go_cons (x : N) (s : string) :
  (0 < x)%N → ∃ c s', pretty_N_go x s = String c s'.
Proof.
  revert s. induction (N.lt_wf_0 x) as [x _ IH]; intros s Hx.
  rewrite pretty_N_go_step by done.
  destruct (decide (x `div` 10 = 0)%N) as [->|Hd].
  - rewrite pretty_N_go_0. eauto.
  - apply IH; [apply N.div_lt; lia|]. apply N.neq_0_lt_0; done.
Qed.

Lemma pretty_N_digits (n : N) : all_digits (pretty n) = true.
Proof.
  unfold pretty, pretty_N. case_decide; [done|].
  by apply pretty_N_go_digits.
Qed.

Lemma pretty_N_cons (n : N) : ∃ c s, pretty n = String c s.
Proof.
  unfold pretty, pretty_N. case_decide; [eauto|].
  apply pretty_N_go_cons. lia.
Qed.

Lemma frac_tail_if (b : bool) (s : string) :
  frac_tail (if b then "" else "." +:+ s).
Proof. destruct b; [left | right; eexists]; reflexivity. Qed.

Lemma digits_split (p p' t t' : string) :
  all_digits p = true → all_digits p' = true →
  frac_tail t → frac_tail t' →
  p +:+ t = p' +:+ t' → p = p' ∧ t = t'.
Proof.
  revert p'. induction p as [|c p IH]; intros [|c' p'] Hp Hp' Ht Ht' Heq.
  - done.
  - rewrite Str.app_nil_l, Str.app_cons in Heq. simpl in Hp'.
    apply andb_prop in Hp' as [Hc _].
    destruct Ht as [->|[t0 ->]]; [done|]. by injection Heq as <- _.
  - rewrite Str.app_nil_l, Str.app_cons in Heq. simpl in Hp.
    apply andb_prop in Hp as [Hc _].
    destruct Ht' as [->|[t0 ->]]; [done|]. by injection Heq as -> _.
  - rewrite !Str.app_cons in Heq. injection Heq as -> Heq.
    simpl in Hp, Hp'. apply andb_prop in Hp as [_ Hp].
    apply andb_prop in Hp' as [_ Hp'].
    destruct (IH p' Hp Hp' Ht Ht' Heq) as [-> ->]. done.
Qed.

Lemma frac_digits_inj (fuel fuel' : nat) (r r' d d' : Z) :
  0 ≤ r < d → 0 ≤ r' < d' →
  frac_rem fuel r d = 0 → frac_rem fuel' r' d' = 0 →
  frac_digits fuel r d = frac_digits fuel' r' d' →
  r * d' = r' * d.
Proof.
  revert fuel' r r'.
  induction fuel as [|fuel IH]; intros [|fuel'] r r' Hr Hr' Hz Hz' Heq;
    simpl in *.
  - subst; lia.
  - subst r. destruct (r' =? 0) eqn:E; [|done]. apply Z.eqb_eq in E. lia.
  - subst r'. destruct (r =? 0) eqn:E; [|done]. apply Z.eqb_eq in E. lia.
  - destruct (r =? 0) eqn:E; destruct (r' =? 0) eqn:E'; try done.
    + apply Z.eqb_eq in E, E'. lia.
    + injection Heq as Hc Heq.
      assert (Hm : 0 ≤ (10 * r) `mod` d < d) by (apply Z.mod_pos_bound; lia).
      assert (Hm' : 0 ≤ (10 * r') `mod` d' < d') by (apply Z.mod_pos_bound; lia).
      specialize (IH fuel' _ _ Hm Hm' Hz Hz' Heq).
      assert (Hq : 0 ≤ (10 * r) `div` d < 10).
      { split; [apply Z.div_pos; lia|apply Z.div_lt_upper_bound; lia]. }
      assert (Hq' : 0 ≤ (10 * r') `div` d' < 10).
      { split; [apply Z.div_pos; lia|apply Z.div_lt_upper_bound; lia]. }
      apply pretty_N_char_inj in Hc; [|lia..].
      assert (Hg : (10 * r) `div` d = (10 * r') `div` d') by lia.
      pose proof (Z.div_mod (10 * r) d ltac:(lia)) as D.
      pose proof (Z.div_mod (10 * r') d' ltac:(lia)) as D'.
      nia.
Qed.

Lemma Number_toString_inj (x y : number) :
  finite_decimal x = true → finite_decimal y = true →
  Number_toString x = Number_toString y → (x == y)%Q.
Proof.
  unfold finite_decimal, Number_toString. intros Hx Hy Heq.
  rewrite <-(Qred_correct x), <-(Qred_correct y).
  revert Hx Hy Heq. generalize (Qred x) (Qred y). clear x y.
  intros [nx dx] [ny dy]; simpl. intros Hx Hy Heq. unfold Qeq; simpl.
  apply Z.eqb_eq in Hx, Hy.
  set (ax := Z.abs nx) in *. set (ay := Z.abs ny) in *.
  assert (Hmx : 0 ≤ ax `mod` Z.pos dx < Z.pos dx) by (apply Z.mod_pos_bound; lia).
  assert (Hmy : 0 ≤ ay `mod` Z.pos dy < Z.pos dy) by (apply Z.mod_pos_bound; lia).
  assert (Hix : 0 ≤ ax `div` Z.pos dx) by (apply Z.div_pos; lia).
  assert (Hiy : 0 ≤ ay `div` Z.pos dy) by (apply Z.div_pos; lia).
  pose proof (Z.div_mod ax (Z.pos dx) ltac:(lia)) as Dx.
  pose proof (Z.div_mod ay (Z.pos dy) ltac:(lia)) as Dy.
  assert (ax * Z.pos dy = ay * Z.pos dx
          ∧ (nx <? 0) = (ny <? 0)) as [Habs Hsgn].
  { destruct (pretty_N_cons (Z.to_N (ax `div` Z.pos dx))) as (cx & sx & Ex).
    destruct (pretty_N_cons (Z.to_N (ay `div` Z.pos dy))) as (cy & sy & Ey).
    pose proof (pretty_N_digits (Z.to_N (ax `div` Z.pos dx))) as Gx.
    pose proof (pretty_N_digits (Z.to_N (ay `div` Z.pos dy))) as Gy.
    assert (Hbody :
      pretty (Z.to_N (ax `div` Z.pos dx))
      +:+ (if ax `mod` Z.pos dx =? 0 then ""
           else "." +:+ frac_digits (Pos.size_nat dx) (ax `mod` Z.pos dx) (Z.pos dx))
      = pretty (Z.to_N (ay `div` Z.pos dy))
      +:+ (if ay `mod` Z.pos dy =? 0 then ""
           else "." +:+ frac_digits (Pos.size_nat dy) (ay `mod` Z.pos dy) (Z.pos dy))
      ∧ (nx <? 0) = (ny <? 0)).
    { destruct (nx <? 0) eqn:Sx; destruct (ny <? 0) eqn:Sy.
      - rewrite !Str.app_cons, !Str.app_nil_l in Heq. by injection Heq.
      - exfalso. rewrite Ey in Heq, Gy. rewrite !Str.app_cons in Heq.
        injection Heq as <- _. done.
      - exfalso. rewrite Ex in Heq, Gx. rewrite !Str.app_cons in Heq.
        injection Heq as -> _. done.
      - by rewrite !Str.app_nil_l in Heq. }
    destruct Hbody as [Hbody ?]; split; [|done].
    assert (Tx : frac_tail
      (if ax `mod` Z.pos dx =? 0 then ""
       else "." +:+ frac_digits (Pos.size_nat dx) (ax `mod` Z.pos dx) (Z.pos dx))).
    { apply frac_tail_if. }
    assert (Ty : frac_tail
      (if ay `mod` Z.pos dy =? 0 then ""
       else "." +:+ frac_digits (Pos.size_nat dy) (ay `mod` Z.pos dy) (Z.pos dy))).
    { apply frac_tail_if. }
    destruct (digits_split _ _ _ _ Gx Gy Tx Ty Hbody) as [Hip Htl].
    apply (inj pretty) in Hip.
    assert (Hip' : ax `div` Z.pos dx = ay `div` Z.pos dy) by lia.
    destruct (ax `mod` Z.pos dx =? 0) eqn:Fx;
      destruct (ay `mod` Z.pos dy =? 0) eqn:Fy; try done.
    - apply Z.eqb_eq in Fx, Fy. nia.
    - rewrite !Str.app_cons, !Str.app_nil_l in Htl. injection Htl as Htl.
      pose proof (frac_digits_inj _ _ _ _ _ _ Hmx Hmy Hx Hy Htl). nia. }
  destruct (Z.ltb_spec nx 0); destruct (Z.ltb_spec ny 0); try done;
    subst ax ay; lia.
Qed.

(** On integers, the rendering is the usual decimal one. *)
Lemma Number_toString_inject_Z (z : Z) :
  Number_toString (inject_Z z) = pretty z.
Proof.
  unfold Number_toString.
  assert (Hred : Qred (inject_Z z) = inject_Z z).
  { apply Qred_identity. simpl. apply Z.gcd_1_r. }
  rewrite Hred; simpl. rewrite Z.mod_1_r, Z.div_1_r; simpl.
  rewrite Str.app_nil_r.
  destruct z as [|p|p]; simpl; try done.
Qed.

Lemma finite_decimal_inject_Z (z : Z) : finite_decimal (inject_Z z) = true.
Proof.
  unfold finite_decimal.
  assert (Hred : Qred (inject_Z z) = inject_Z z).
  { apply Qred_identity. simpl. apply Z.gcd_1_r. }
  rewrite Hred; simpl. by rewrite Z.mod_1_r.
Qed.

Lemma all_chars_app (P : ascii → bool) (s t : string) :
  all_chars P (s +:+ t) = all_chars P s && all_chars P t.
Proof.
  induction s as [|c s IH]; [done|].
  rewrite Str.app_cons; simpl. by rewrite IH, andb_assoc.
Qed.

Lemma all_digits_num_chars (s : string) :
  all_digits s = true → all_chars is_num_char s = true.
Proof.
  induction s as [|c s IH]; [done|]; simpl.
  intros [Hc Hs]%andb_prop. apply andb_true_intro; split.
  - unfold is_num_char. by rewrite Hc.
  - by apply IH.
Qed.

Lemma frac_digits_digits (fuel : nat) (r d : Z) :
  all_digits (frac_digits fuel r d) = true.
Proof.
  revert r; induction fuel as [|fuel IH]; intros r; simpl; [done|].
  destruct (r =? 0); [done|]. simpl. by rewrite pretty_N_char_digit, IH.
Qed.

Lemma Number_toString_chars (x : number) :
  all_chars is_num_char (Number_toString x) = true.
Proof.
  unfold Number_toString. rewrite !all_chars_app.
  rewrite (all_digits_num_chars _ (pretty_N_digits _)).
  repeat (apply andb_true_intro; split); try done.
  - by destruct (_ <? _).
  - destruct (_ =? _); [done|]. rewrite all_chars_app.
    by rewrite (all_digits_num_chars _ (frac_digits_digits _ _ _)).
Qed.

Lemma Number_toString_cons (x : number) :
  ∃ c s, Number_toString x = String c s.
Proof.
  unfold Number_toString.
  destruct (pretty_N_cons
    (Z.to_N (Z.abs (Qnum (Qred x)) `div` Z.pos (Qden (Qred x)))))
    as (c & s & ->).
  destruct (_ <? _); rewrite !Str.app_cons; eauto.
Qed.

(** A text is cut in one way only at a character its head does not hold. *)
Lemma sep_split (P : ascii → bool) (c : ascii) (s s' t t' : string) :
  P c = false → all_chars P s = true → all_chars P s' = true →
  s +:+ String c t = s' +:+ String c t' → s = s' ∧ t = t'.
Proof.
  intros Hc. revert s'.
  induction s as [|a s IH]; intros [|a' s'] Hs Hs' Heq;
    rewrite ?Str.app_nil_l, ?Str.app_cons in Heq; simpl in *.
  - by injection Heq as ->.
  - injection Heq as <- _. apply andb_prop in Hs' as [Ha _]. congruence.
  - injection Heq as -> _. apply andb_prop in Hs as [Ha _]. congruence.
  - injection Heq as -> Heq. apply andb_prop in Hs as [_ Hs].
    apply andb_prop in Hs' as [_ Hs'].
    destruct (IH s' Hs Hs' Heq) as [-> ->]. done.
Qed.

(** ** Joining *)

Lemma join_str_cons (sep s : string) (tl : list string) :
  join_str sep (s :: tl) = s +:+ join_tail sep tl.
Proof.
  revert s; induction tl as [|s' tl IH]; intros s.
  - simpl. by rewrite Str.app_nil_r.
  - change (join_str sep (s :: s' :: tl))
      with (s +:+ sep +:+ join_str sep (s' :: tl)).
    by rewrite IH.
Qed.

Lemma join_tail_app (sep : string) (l l' : list string) :
  join_tail sep (l ++ l') = join_tail sep l +:+ join_tail sep l'.
Proof.
  induction l as [|s l IH]; [done|]. simpl.
  by rewrite IH, !Str.app_assoc.
Qed.

Lemma join_str_split (sep : string) (pre : list string) (x : string)
    (post : list string) :
  join_str sep (pre ++ x :: post)
  = join_head sep pre +:+ x +:+ join_tail sep post.
Proof.
  destruct pre as [|p ps]; simpl app.
  - by rewrite join_str_cons.
  - rewrite join_str_cons, join_tail_app. simpl.
    by rewrite !Str.app_assoc.
Qed.

Lemma join_str_change (sep : string) (pre post : list string) (x x' : string) :
  x ≠ x' → join_str sep (pre ++ x :: post) ≠ join_str sep (pre ++ x' :: post).
Proof.
  intros Hne Heq. rewrite !join_str_split in Heq.
  apply (inj (String.app _)) in Heq. by apply Str.app_inv_tail in Heq.
Qed.

Lemma join_str_change_len (sep : string) (pre post post' : list string)
    (x x' : string) :
  String.length x = String.length x' → x ≠ x' →
  join_str sep (pre ++ x :: post) ≠ join_str sep (pre ++ x' :: post').
Proof.
  intros Hlen Hne Heq. rewrite !join_str_split in Heq.
  apply (inj (String.app _)) in Heq.
  by apply Str.app_inv_len in Heq as [? _].
Qed.

Lemma join_str_insert_length (sep : string) (pre post : list string)
    (x : string) :
  (String.length (join_str sep (pre ++ post)) + String.length x
   ≤ String.length (join_str sep (pre ++ x :: post)))%nat.
Proof.
  rewrite join_str_split. destruct pre as [|p ps]; simpl app.
  - destruct post as [|y ys]; simpl join_head; simpl join_tail.
    + rewrite !Str.length_app. simpl. lia.
    + rewrite join_str_cons, !Str.length_app. simpl. lia.
  - rewrite join_str_cons, join_tail_app. simpl join_head.
    rewrite !Str.length_app. lia.
Qed.

Lemma join_str_insert (sep : string) (pre post : list string) (x : string) :
  x ≠ "" → join_str sep (pre ++ x :: post) ≠ join_str sep (pre ++ post).
Proof.
  intros Hx Heq.
  pose proof (join_str_insert_length sep pre post x) as Hlen.
  rewrite Heq in Hlen. destruct x; [done|]. simpl in Hlen. lia.
Qed.

(** ** Filtered and joined arrays *)

Lemma join_filter_entries (sep : string) (l : list JsVal) :
  join sep (filter_truthy l) = join_str sep (omap entry l).
Proof.
  unfold join, filter_truthy. f_equal.
  induction l as [|v l IH]; [done|]. simpl. unfold entry at 1.
  destruct (truthy v); simpl; by rewrite IH.
Qed.

Lemma entry_nonempty (v : JsVal) (s : string) : entry v = Some s → s ≠ "".
Proof.
  unfold entry. destruct (truthy v) eqn:Hv; [|done]. intros [= <-].
  destruct v as [|[]|x|s']; simpl in *; try done.
  - destruct (Number_toString_cons x) as (c & s' & ->). done.
  - by destruct s'.
Qed.

Lemma entries_same (sep : string) (pre post : list JsVal) (x x' : JsVal) :
  entry x = entry x' →
  join sep (filter_truthy (pre ++ x :: post))
  = join sep (filter_truthy (pre ++ x' :: post)).
Proof.
  intros Heq. rewrite !join_filter_entries, !omap_app. simpl.
  by rewrite Heq.
Qed.

Lemma entries_change (sep : string) (pre post : list JsVal) (x x' : JsVal) :
  entry x ≠ entry x' →
  join sep (filter_truthy (pre ++ x :: post))
  ≠ join sep (filter_truthy (pre ++ x' :: post)).
Proof.
  intros Hne. rewrite !join_filter_entries, !omap_app. simpl.
  destruct (entry x) as [s|] eqn:Ex; destruct (entry x') as [s'|] eqn:Ex';
    simpl; [| | |done].
  - apply join_str_change. congruence.
  - apply join_str_insert. by eapply entry_nonempty.
  - intros Heq. symmetry in Heq. revert Heq.
    apply join_str_insert. by eapply entry_nonempty.
Qed.

Lemma num_falsy_zero (x : number) : num_truthy x = false → (x == 0)%Q.
Proof.
  unfold num_truthy. intros H%negb_false_iff%Z.eqb_eq.
  unfold Qeq. simpl. lia.
Qed.

Lemma entry_num_truthy (x : number) :
  num_truthy x = true → entry (JNum x) = Some (Number_toString x).
Proof. unfold entry; simpl. by intros ->. Qed.

Lemma entry_num_ne (x y : number) :
  finite_decimal x = true → finite_decimal y = true →
  ¬ (x == y)%Q → entry (JNum x) ≠ entry (JNum y).
Proof.
  intros Hx Hy Hne. unfold entry; simpl.
  destruct (num_truthy x) eqn:Tx; destruct (num_truthy y) eqn:Ty;
    try done.
  - intros [= Heq]. by apply Hne, Number_toString_inj.
  - intros _. apply Hne.
    by rewrite (num_falsy_zero x), (num_falsy_zero y).
Qed.

Lemma entry_num_eq (x y : number) :
  (x == y)%Q → entry (JNum x) = entry (JNum y).
Proof.
  intros Heq. unfold entry; simpl.
  assert (Ht : num_truthy x = num_truthy y).
  { unfold num_truthy. f_equal. unfold Qeq in Heq.
    destruct (Z.eqb_spec (Qnum x) 0) as [E|E];
      destruct (Z.eqb_spec (Qnum y) 0) as [E'|E']; try done; nia. }
  rewrite Ht. destruct (num_truthy y); [|done].
  unfold Number_toString. by rewrite (Qred_complete _ _ Heq).
Qed.

Lemma Key_str_truthy (k : Key) : str_truthy (Key_str k) = true.
Proof. by destruct k. Qed.

Lemma Key_str_length (k : Key) : String.length (Key_str k) = 2%nat.
Proof. by destruct k. Qed.

Lemma Key_str_inj (k k' : Key) : Key_str k = Key_str k' → k = k'.
Proof.
  intros Heq. apply (f_equal Key_of_str) in Heq.
  rewrite !Key_of_str_Key_str in Heq. congruence.
Qed.

Lemma entry_key (k : Key) : entry (JStr (Key_str k)) = Some (Key_str k).
Proof. unfold entry; simpl. by rewrite Key_str_truthy. Qed.

(** ** What the modifiers and the custom markup add to a fingerprint *)

Lemma entry_str_inj (s s' : string) :
  entry (JStr s) = entry (JStr s') → s = s'.
Proof. unfold entry; simpl. destruct s, s'; simpl; congruence. Qed.

Lemma entry_mods (o : option DrawModifiers.t) :
  entry (mods_entry o) = entry (JStr (mods_str (width_eff o) (hilite_eff o))).
Proof.
  destruct o as [[lw hi]|]; [|done]. unfold mods_entry, modifiersHash.
  rewrite join_filter_entries. simpl.
  destruct lw as [w|]; simpl; [unfold entry at 2; simpl;
    destruct (num_truthy w); simpl|];
    destruct hi as [[]|]; try reflexivity.
Qed.

Lemma Number_toString_head (x : number) (t : string) (c : ascii) (t' : string) :
  Number_toString x +:+ t = String c t' → is_num_char c = true.
Proof.
  destruct (Number_toString_cons x) as (c0 & s0 & E).
  pose proof (Number_toString_chars x) as H. rewrite E in H |- *.
  rewrite Str.app_cons. intros [= <- _]. simpl in H.
  by apply andb_prop in H as [? _].
Qed.

Lemma Number_toString_ne_nil (x : number) (t : string) :
  Number_toString x +:+ t = "" → False.
Proof.
  destruct (Number_toString_cons x) as (c0 & s0 & ->).
  by rewrite Str.app_cons.
Qed.

Lemma Number_toString_ne_true (x : number) (t : string) :
  Number_toString x +:+ t = "true" → False.
Proof. intros H%Number_toString_head. discriminate H. Qed.

Lemma Number_toString_no_comma (x y : number) (t : string) :
  Number_toString x = Number_toString y +:+ String "," t → False.
Proof.
  intros E. pose proof (Number_toString_chars x) as H.
  rewrite E, !all_chars_app in H.
  apply andb_prop in H as [_ H]. discriminate H.
Qed.

Lemma mods_str_inj (w w' : option number) (h h' : bool) :
  (∀ x, w = Some x → finite_decimal x = true) →
  (∀ x, w' = Some x → finite_decimal x = true) →
  mods_str w h = mods_str w' h' → h = h' ∧ opt_Qeq w w'.
Proof.
  intros Hw Hw' Heq.
  destruct w as [x|], w' as [y|], h, h'; simpl in Heq; simpl;
    try (split; [reflexivity|]);
    try (apply Str.app_inv_tail in Heq);
    try (apply Number_toString_inj; by auto);
    try done;
    exfalso;
    try rewrite <-(Str.app_nil_r (Number_toString _)) in Heq;
    first [ by eapply Number_toString_ne_nil; eassumption
          | by eapply Number_toString_ne_nil; symmetry; eassumption
          | by eapply Number_toString_ne_true; eassumption
          | by eapply Number_toString_ne_true; symmetry; eassumption
          | idtac ].
  all: rewrite ?Str.app_nil_r in Heq.
  all: first [ by eapply Number_toString_no_comma; eassumption
             | by eapply Number_toString_no_comma; symmetry; eassumption
             | by eapply Number_toString_ne_true; eassumption
             | by eapply Number_toString_ne_true; symmetry; eassumption
             | by eapply Number_toString_ne_nil; eassumption
             | by eapply Number_toString_ne_nil; symmetry; eassumption ].
Qed.

Lemma shapeHash_entries o d br m p c t cur w h :
  hash_of o d br m p c t cur w h
  = join "," (filter_truthy
      ([ JNum w; JNum h ]
       ++ [ JBool cur; JStr (Key_str o); opt_key d; JStr br;
            shared_entry t d; piece_entry p; mods_entry m; custom_entry c ])).
Proof. reflexivity. Qed.

Lemma shapeHash_width o d br m p c t cur w w' h :
  entry (JNum w') ≠ entry (JNum w) →
  hash_of o d br m p c t cur w' h ≠ hash_of o d br m p c t cur w h.
Proof. rewrite !shapeHash_entries. apply (entries_change "," []). Qed.

Lemma shapeHash_height o d br m p c t cur w h h' :
  entry (JNum h') ≠ entry (JNum h) →
  hash_of o d br m p c t cur w h' ≠ hash_of o d br m p c t cur w h.
Proof. rewrite !shapeHash_entries. apply (entries_change "," [_]). Qed.

Lemma shapeHash_bounds o d br m p c t cur w w' h h' :
  num_truthy w = true → num_truthy w' = true →
  num_truthy h = true → num_truthy h' = true →
  Number_toString w' ≠ Number_toString w ∨ Number_toString h' ≠ Number_toString h →
  hash_of o d br m p c t cur w' h' ≠ hash_of o d br m p c t cur w h.
Proof.
  intros Tw Tw' Th Th' Hne Heq. rewrite !shapeHash_entries in Heq.
  rewrite !join_filter_entries in Heq.
  rewrite !omap_app in Heq.
  simpl omap at 1 3 in Heq.
  rewrite !entry_num_truthy in Heq by done. cbn [app] in Heq.
  rewrite !join_str_cons in Heq. cbn [join_tail] in Heq.
  rewrite !(Str.app_cons ","), !Str.app_nil_l in Heq.
  apply sep_split with (P := is_num_char) in Heq as [E1 Heq];
    [| done | apply Number_toString_chars..].
  apply Str.app_inv_tail in Heq. destruct Hne; congruence.
Qed.

Lemma shapeHash_current o d br m p c t cur w h :
  hash_of o d br m p c t (negb cur) w h ≠ hash_of o d br m p c t cur w h.
Proof.
  rewrite !shapeHash_entries. apply (entries_change "," [_; _]).
  by destruct cur.
Qed.

Lemma shapeHash_orig o o' d br m p c t cur w h :
  o' ≠ o →
  hash_of o' d br m p c t cur w h ≠ hash_of o d br m p c t cur w h.
Proof.
  intros Hne. rewrite !shapeHash_entries. apply (entries_change "," [_; _; _]).
  rewrite !entry_key. intros [= E%Key_str_inj]. done.
Qed.

Lemma shapeHash_brush o d br br' m p c t cur w h :
  br' ≠ br →
  hash_of o d br' m p c t cur w h ≠ hash_of o d br m p c t cur w h.
Proof.
  intros Hne. rewrite !shapeHash_entries.
  apply (entries_change "," [_; _; _; _; _]).
  intros E%entry_str_inj. done.
Qed.

Lemma join_str_grow (sep : string) (pre post ins : list string) :
  (String.length (join_str sep (pre ++ post))
   ≤ String.length (join_str sep (pre ++ ins ++ post)))%nat.
Proof.
  induction ins as [|a ins IH]; [done|].
  pose proof (join_str_insert_length sep pre (ins ++ post) a) as H.
  simpl app. lia.
Qed.

Lemma entry_shared_length (t : ArrowDests) (d : option Key) (s : string) :
  entry (shared_entry t d) = Some s → s = "true".
Proof.
  destruct d as [k|]; [|done]. unfold shared_entry, js_and. simpl truthy.
  rewrite Key_str_truthy. unfold entry; simpl.
  destruct (1 <? arrowDests_get t k)%nat; [|done]. by intros [= <-].
Qed.

Lemma shapeHash_entries_dest o d br m p c t cur w h :
  hash_of o d br m p c t cur w h
  = join_str ","
      (omap entry [JNum w; JNum h; JBool cur; JStr (Key_str o)]
       ++ omap entry [opt_key d]
       ++ omap entry [JStr br]
       ++ omap entry [shared_entry t d]
       ++ omap entry [piece_entry p; mods_entry m; custom_entry c])%list.
Proof.
  rewrite shapeHash_entries, join_filter_entries. by rewrite <-!omap_app.
Qed.

Lemma shapeHash_dest_some o k k' br m p c t cur w h :
  k' ≠ k →
  hash_of o (Some k') br m p c t cur w h ≠ hash_of o (Some k) br m p c t cur w h.
Proof.
  intros Hne. rewrite !shapeHash_entries_dest.
  cbn [omap list_omap opt_key]. rewrite !entry_key.
  apply join_str_change_len.
  - by rewrite !Key_str_length.
  - intros E%Key_str_inj. done.
Qed.

Lemma shapeHash_dest_none o k br m p c t cur w h :
  hash_of o (Some k) br m p c t cur w h ≠ hash_of o None br m p c t cur w h.
Proof.
  rewrite !shapeHash_entries_dest.
  set (P := omap entry [JNum w; JNum h; JBool cur; JStr (Key_str o)]).
  set (B := omap entry [JStr br]).
  set (R := omap entry [piece_entry p; mods_entry m; custom_entry c]).
  set (S := omap entry [shared_entry t (Some k)]).
  cbn [omap list_omap opt_key shared_entry]. rewrite entry_key.
  cbn [entry truthy ToString app].
  intros Heq.
  pose proof (join_str_insert_length "," P (B ++ S ++ R) (Key_str k)) as H1.
  pose proof (join_str_grow "," (P ++ B) R S) as H2.
  rewrite <-!(assoc_L (++)) in H2. rewrite Heq, Key_str_length in H1. lia.
Qed.

Lemma shapeHash_dest o d d' br m p c t cur w h :
  d' ≠ d →
  hash_of o d' br m p c t cur w h ≠ hash_of o d br m p c t cur w h.
Proof.
  destruct d as [k|], d' as [k'|]; intros Hne; try done.
  - apply shapeHash_dest_some. congruence.
  - intros Heq. symmetry in Heq. by apply shapeHash_dest_none in Heq.
  - apply shapeHash_dest_none.
Qed.

Lemma mods_str_equiv (w w' : option number) (h : bool) :
  opt_Qeq w w' → mods_str w h = mods_str w' h.
Proof.
  destruct w as [x|], w' as [y|]; simpl; try done.
  intros E. unfold Number_toString. by rewrite (Qred_complete _ _ E).
Qed.

Lemma shapeHash_modifiers o d br m m' p c t cur w h :
  mods_decimal m → mods_decimal m' → ¬ mods_equiv m' m →
  hash_of o d br m' p c t cur w h ≠ hash_of o d br m p c t cur w h.
Proof.
  intros Hm Hm' Hne. rewrite !shapeHash_entries.
  apply (entries_change "," [_; _; _; _; _; _; _; _]).
  rewrite !entry_mods. intros E%entry_str_inj. apply Hne.
  by apply mods_str_inj in E.
Qed.

Lemma shapeHash_modifiers_equiv o d br m m' p c t cur w h :
  mods_equiv m' m →
  hash_of o d br m' p c t cur w h = hash_of o d br m p c t cur w h.
Proof.
  intros [Eh Ew]. rewrite !shapeHash_entries.
  apply (entries_same "," [_; _; _; _; _; _; _; _]).
  rewrite !entry_mods, Eh. by rewrite (mods_str_equiv _ _ _ Ew).
Qed.

Lemma entry_custom (c : option string) :
  entry (custom_entry c) = (λ z : Z, "custom-" +:+ pretty z) <$> custom_eff c.
Proof.
  destruct c as [s|]; [|done]. unfold custom_entry, js_and, custom_eff.
  simpl truthy. destruct (str_truthy s) eqn:Hs.
  - unfold customSvgHash. by rewrite Number_toString_inject_Z.
  - unfold entry. simpl. by rewrite Hs.
Qed.

Lemma shapeHash_custom o d br m p c c' t cur w h :
  custom_eff c' ≠ custom_eff c →
  hash_of o d br m p c' t cur w h ≠ hash_of o d br m p c t cur w h.
Proof.
  intros Hne. rewrite !shapeHash_entries.
  apply (entries_change "," [_; _; _; _; _; _; _; _; _]).
  rewrite !entry_custom. intros E. apply Hne.
  destruct (custom_eff c), (custom_eff c'); simpl in E; try done.
  injection E as E. apply (inj (String.app _)), (inj pretty) in E. congruence.
Qed.

Lemma shapeHash_custom_same o d br m p c c' t cur w h :
  custom_eff c' = custom_eff c →
  hash_of o d br m p c' t cur w h = hash_of o d br m p c t cur w h.
Proof.
  intros E. rewrite !shapeHash_entries.
  apply (entries_same "," [_; _; _; _; _; _; _; _; _]).
  by rewrite !entry_custom, E.
Qed.

(** ** The 32-bit rolling hash *)

Lemma ToInt32_wraps (x : Z) : ∃ k, ToInt32 x = x + k * 2 ^ 32.
Proof.
  exists (- ((x + 2 ^ 31) `div` 2 ^ 32)). unfold ToInt32.
  pose proof (Z.div_mod (x + 2 ^ 31) (2 ^ 32) ltac:(lia)). lia.
Qed.

Lemma customSvgHash_step (h c : Z) :
  js_ushr0 (js_shl h 5 - h + c) = (31 * h + c) mod 2 ^ 32.
Proof.
  unfold js_ushr0, ToUint32, js_shl.
  change (Z.land 5 31) with 5. rewrite Z.shiftl_mul_pow2 by lia.
  destruct (ToInt32_wraps h) as [k1 ->].
  destruct (ToInt32_wraps ((h + k1 * 2 ^ 32) * 2 ^ 5)) as [k2 ->].
  replace ((h + k1 * 2 ^ 32) * 2 ^ 5 + k2 * 2 ^ 32 - h + c)
    with (31 * h + c + (32 * k1 + k2) * 2 ^ 32) by lia.
  apply Z_mod_plus_full.
Qed.

Lemma customSvgHash_loop_rolling (s : string) (h : Z) :
  customSvgHash_loop s h = rolling31 s h.
Proof.
  revert h; induction s as [|c s IH]; intros h; simpl; [done|].
  by rewrite customSvgHash_step, IH.
Qed.

Lemma rolling31_range (s : string) (h : Z) :
  0 ≤ h < 2 ^ 32 → 0 ≤ rolling31 s h < 2 ^ 32.
Proof.
  revert h; induction s as [|c s IH]; intros h Hh; simpl; [done|].
  apply IH, Z.mod_pos_bound. lia.
Qed.

(** ** The tally of destinations *)

Lemma arrowDests_step_get (m : ArrowDests) (s : DrawShape.t) (k : Key) :
  arrowDests_get (arrowDests_step m s) k
  = (arrowDests_get m k
     + if bool_decide (DrawShape.dest s = Some k) then 1 else 0)%nat.
Proof.
  unfold arrowDests_step, arrowDests_get.
  destruct (DrawShape.dest s) as [d|]; [|by rewrite Nat.add_0_r].
  rewrite Key_str_truthy. destruct (decide (d = k)) as [->|Hne].
  - rewrite lookup_insert_eq, bool_decide_eq_true_2 by done. done.
  - rewrite lookup_insert_ne, bool_decide_eq_false_2 by congruence.
    by rewrite Nat.add_0_r.
Qed.

Lemma arrowDests_fold_get (l : list DrawShape.t) (m : ArrowDests) (k : Key) :
  arrowDests_get (fold_left arrowDests_step l m) k
  = (arrowDests_get m k + dest_count l k)%nat.
Proof.
  revert m; induction l as [|s l IH]; intros m; simpl.
  - unfold dest_count. simpl. lia.
  - rewrite IH, arrowDests_step_get. unfold dest_count. simpl.
    destruct (bool_decide _); simpl; lia.
Qed.

Lemma arrowDests_of_count (d : Drawable.t) (k : Key) :
  arrowDests_get (arrowDests_of d) k = dest_count (pass_shapes d) k.
Proof.
  unfold arrowDests_of. rewrite arrowDests_fold_get.
  unfold arrowDests_get. by rewrite lookup_empty.
Qed.

Lemma arrowMargin_if (shorten : bool) :
  arrowMargin shorten = if shorten then (20 / 64)%Q else (10 / 64)%Q.
Proof. by destruct shorten. Qed.

Lemma margins_differ : (20 / 64)%Q ≠ (10 / 64)%Q.
Proof. discriminate. Qed.

(** ** What an arrow shows of its margin *)

(** Every inner arrow of an arrow drawn with the margin [m] has a shaft of
    the length of the displacement less [m], and a line that stops [m]
    short of the destination along the angle of the arrow. *)
Lemma renderRectangleArrow_with_shows (Math_atan2 : number → number → number)
    (Math_cos Math_sin Math_sqrt : number → number) (Math_PI : number)
    (m : number) (brush : DrawBrush.t) (orig dest : Pos) (current : bool)
    (bounds : DOMRect.t) (hilited : bool) (h : JsVal) :
  let a := pos2user orig bounds in
  let b := pos2user dest bounds in
  let dx := (fst b - fst a)%Q in
  let dy := (snd b - snd a)%Q in
  let angle := Math_atan2 dy dx in
  let len := Math_sqrt (dx * dx + dy * dy)%Q in
  let el :=
    setAttribute
      (renderRectangleArrow_with Math_atan2 Math_cos Math_sin Math_sqrt
         Math_PI m brush orig dest current bounds hilited)
      "cgHash" h in
  length (arrow_passes el hilited) = (if hilited then 2 else 1)%nat
  ∧ ∀ g, g ∈ arrow_passes el hilited →
      inner_arrow_shows g a
        (fst b - Math_cos angle * m, snd b - Math_sin angle * m)%Q
        (len - m)%Q.
Proof.
  intros a b dx dy angle len el. unfold el.
  destruct hilited; (split; [reflexivity|]); intros g Hg.
  - cbn in Hg.
    apply elem_of_cons in Hg as [->|Hg];
      [|apply elem_of_cons in Hg as [->|Hg]; [|by apply elem_of_nil in Hg]];
      eexists _, _; repeat split.
  - apply list_elem_of_singleton in Hg as ->.
    eexists _, _. repeat split.
Qed.

(** ** The branches of [renderShape] *)

Section RenderShape.

Variable key2pos : Key → Pos.
Variable Math_atan2 : number → number → number.
Variables Math_cos Math_sin Math_sqrt : number → number.
Variable Math_PI : number.

Let render := renderShape key2pos Math_atan2 Math_cos Math_sin Math_sqrt Math_PI.
Let arrow_with :=
  renderRectangleArrow_with Math_atan2 Math_cos Math_sin Math_sqrt Math_PI.

Lemma renderShape_arrow (state : State.t) (sc : SyncableShape.t) (dest : Key) :
  let d := State.drawable state in
  let shape := SyncableShape.shape sc in
  custom_of shape = None →
  arrow_dest shape = Some dest →
  render state sc (Drawable.brushes d) (arrowDests_of d) (State.bounds state)
  = setAttribute
      (arrow_with
         (pass_margin d dest (SyncableShape.current sc))
         (shape_brush (Drawable.brushes d) shape)
         (orient (key2pos (DrawShape.orig shape)) (State.orientation state))
         (orient (key2pos dest) (State.orientation state))
         (SyncableShape.current sc) (State.bounds state)
         (modifiers_hilite shape))
      "cgHash" (JStr (SyncableShape.hash sc)).
Proof.
  intros d shape Hc Ha. unfold render, renderShape.
  fold shape. rewrite Hc, Ha, arrowDests_of_count.
  unfold renderRectangleArrow, arrow_with, renderRectangleArrow_with, renderInner.
  rewrite arrowMargin_if. reflexivity.
Qed.

Lemma renderShape_square (state : State.t) (sc : SyncableShape.t)
    (brushes : DrawBrushes) (arrowDests : ArrowDests) (bounds : DOMRect.t) :
  let shape := SyncableShape.shape sc in
  custom_of shape = None →
  arrow_dest shape = None →
  render state sc brushes arrowDests bounds
  = setAttribute
      (renderSquare (brushes (DrawShape.brush shape))
         (orient (key2pos (DrawShape.orig shape)) (State.orientation state))
         (SyncableShape.current sc) bounds)
      "cgHash" (JStr (SyncableShape.hash sc)).
Proof.
  intros shape Hc Ha. unfold render, renderShape.
  fold shape. by rewrite Hc, Ha.
Qed.

End RenderShape.

Lemma arrow_dest_degenerate (s : DrawShape.t) :
  DrawShape.dest s = Some (DrawShape.orig s) → arrow_dest s = None.
Proof.
  intros H. unfold arrow_dest. rewrite H, bool_decide_eq_true_2 by done.
  by rewrite andb_false_r.
Qed.

Lemma arrow_dest_genuine (s : DrawShape.t) (k : Key) :
  DrawShape.dest s = Some k → DrawShape.orig s ≠ k → arrow_dest s = Some k.
Proof.
  intros H Hne. unfold arrow_dest.
  rewrite H, Key_str_truthy, bool_decide_eq_false_2 by congruence. done.
Qed.

Lemma shapeHash_shared (s : DrawShape.t) (t t' : ArrowDests) (cur : bool)
    (b : DOMRect.t) :
  entry (shared_entry t' (DrawShape.dest s))
  ≠ entry (shared_entry t (DrawShape.dest s)) →
  shapeHash s t' cur b ≠ shapeHash s t cur b.
Proof.
  destruct s as [o d br m p c], b as [w h]. simpl DrawShape.dest.
  rewrite !shapeHash_entries. apply (entries_change "," [_; _; _; _; _; _]).
Qed.

(** ** The two ways out of [renderSvg] *)

Section RenderSvgCases.

Variable key2pos : Key → Pos.
Variable Math_atan2 : number → number → number.
Variables Math_cos Math_sin Math_sqrt : number → number.
Variable Math_PI : number.
Variable syncShapes :
  list SyncableShape.t → list Element → (SyncableShape.t → Element)
  → list Element.

Let run :=
  renderSvg key2pos Math_atan2 Math_cos Math_sin Math_sqrt Math_PI syncShapes.
Let render_one :=
  renderShape key2pos Math_atan2 Math_cos Math_sin Math_sqrt Math_PI.

Lemma renderSvg_same (state : State.t) (scene : Scene.t) :
  fullHash_of (syncable_shapes (State.drawable state) (State.bounds state))
  = Drawable.prevSvgHash (State.drawable state) →
  run state scene = (state, scene).
Proof.
  intros E. unfold run, renderSvg.
  by rewrite E, String.eqb_refl.
Qed.

Lemma renderSvg_changed (state : State.t) (scene : Scene.t) :
  let d := State.drawable state in
  let bounds := State.bounds state in
  let shapes := syncable_shapes d bounds in
  let state' := set_prevSvgHash state (fullHash_of shapes) in
  let render := λ shape,
    render_one state' shape (Drawable.brushes d) (arrowDests_of d) bounds in
  fullHash_of shapes ≠ Drawable.prevSvgHash d →
  run state scene
  = (state',
     {| Scene.defsEl := syncDefs d shapes (Scene.defsEl scene);
        Scene.shapesEl :=
          syncShapes
            (List.filter
               (λ s, negb (truthy (opt_str
                   (DrawShape.customSvg (SyncableShape.shape s))))) shapes)
            (Scene.shapesEl scene) render;
        Scene.customSvgsEl :=
          syncShapes
            (List.filter
               (λ s, truthy (opt_str
                   (DrawShape.customSvg (SyncableShape.shape s)))) shapes)
            (Scene.customSvgsEl scene) render |}).
Proof.
  intros d bounds shapes state' render E.
  unfold run, renderSvg.
  fold d bounds shapes. apply String.eqb_neq in E. by rewrite E.
Qed.

End RenderSvgCases.

(** ** Auto shapes that carry a piece *)

Lemma nonPieceAutoShapes_drop (state : State.t) (l1 l2 : list DrawShape.t)
    (a : DrawShape.t) :
  Drawable.autoShapes (State.drawable state) = l1 ++ a :: l2 →
  is_Some (DrawShape.piece a) →
  nonPieceAutoShapes (State.drawable (set_autoShapes state (l1 ++ l2)))
  = nonPieceAutoShapes (State.drawable state).
Proof.
  intros Hl Ha. unfold nonPieceAutoShapes. simpl. rewrite Hl.
  rewrite !List.filter_app. simpl.
  by rewrite (bool_decide_eq_true_2 _ Ha).
Qed.

Lemma syncable_shapes_drop (state : State.t) (l1 l2 : list DrawShape.t)
    (a : DrawShape.t) (bounds : DOMRect.t) :
  Drawable.autoShapes (State.drawable state) = l1 ++ a :: l2 →
  is_Some (DrawShape.piece a) →
  let d' := State.drawable (set_autoShapes state (l1 ++ l2)) in
  pass_shapes d' = pass_shapes (State.drawable state)
  ∧ arrowDests_of d' = arrowDests_of (State.drawable state)
  ∧ syncable_shapes d' bounds = syncable_shapes (State.drawable state) bounds.
Proof.
  intros Hl Ha d'.
  pose proof (nonPieceAutoShapes_drop state l1 l2 a Hl Ha) as Hn.
  fold d' in Hn.
  assert (Hc : cur_of d' = cur_of (State.drawable state)) by done.
  assert (Hs : Drawable.shapes d' = Drawable.shapes (State.drawable state)) by done.
  assert (Hd : arrowDests_of d' = arrowDests_of (State.drawable state)).
  { unfold arrowDests_of. by rewrite Hn, Hc, Hs. }
  split; [|split; [done|]].
  - unfold pass_shapes. by rewrite Hn, Hc, Hs.
  - unfold syncable_shapes. by rewrite Hd, Hn, Hc, Hs.
Qed.

Lemma nonPieceAutoShapes_elem (d : Drawable.t) (s : DrawShape.t) :
  s ∈ nonPieceAutoShapes d
  ↔ s ∈ Drawable.autoShapes d ∧ DrawShape.piece s = None.
Proof.
  unfold nonPieceAutoShapes. rewrite !list_elem_of_In, List.filter_In.
  rewrite negb_true_iff, bool_decide_eq_false.
  split; intros [? H]; (split; [done|]).
  - destruct (DrawShape.piece s); [|done]. destruct H. eauto.
  - rewrite H. by intros [? ?].
Qed.

(** ** Insertion-ordered maps *)

Lemma assoc_set_keys {V} (k : string) (v : V) (m : list (string * V)) (k' : string) :
  k' ∈ map fst (assoc_set k v m) ↔ k' = k ∨ k' ∈ map fst m.
Proof.
  induction m as [|[k0 v0] m IH]; simpl.
  - rewrite list_elem_of_singleton, elem_of_nil. tauto.
  - destruct (String.eqb_spec k0 k) as [->|Hne]; simpl;
      rewrite !elem_of_cons; [tauto|]. rewrite IH. tauto.
Qed.

Lemma assoc_set_NoDup {V} (k : string) (v : V) (m : list (string * V)) :
  NoDup (map fst m) → NoDup (map fst (assoc_set k v m)).
Proof.
  induction m as [|[k0 v0] m IH]; simpl; intros Hm.
  - apply NoDup_singleton.
  - apply NoDup_cons in Hm as [Hk0 Hm].
    destruct (String.eqb_spec k0 k) as [->|Hne]; simpl.
    + by apply NoDup_cons.
    + apply NoDup_cons. split; [|by apply IH].
      rewrite assoc_set_keys. intros [?|?]; done.
Qed.

Lemma assoc_get_set_eq {V} (k : string) (v : V) (m : list (string * V)) :
  assoc_get k (assoc_set k v m) = Some v.
Proof.
  induction m as [|[k0 v0] m IH]; simpl.
  - by rewrite String.eqb_refl.
  - destruct (String.eqb_spec k0 k) as [->|Hne]; simpl.
    + by rewrite String.eqb_refl.
    + by apply String.eqb_neq in Hne as ->.
Qed.

Lemma assoc_get_set_ne {V} (k k' : string) (v : V) (m : list (string * V)) :
  k ≠ k' → assoc_get k (assoc_set k' v m) = assoc_get k m.
Proof.
  intros Hne. induction m as [|[k0 v0] m IH]; simpl.
  - apply not_eq_sym, String.eqb_neq in Hne. by rewrite Hne.
  - destruct (String.eqb_spec k0 k') as [->|Hne']; simpl.
    + apply not_eq_sym, String.eqb_neq in Hne. by rewrite Hne.
    + by rewrite IH.
Qed.

Lemma assoc_get_elem {V} (k : string) (v : V) (m : list (string * V)) :
  assoc_get k m = Some v → (k, v) ∈ m.
Proof.
  induction m as [|[k0 v0] m IH]; simpl; [done|].
  destruct (String.eqb_spec k0 k) as [->|Hne].
  - intros [= ->]. apply elem_of_cons. by left.
  - intros H. apply elem_of_cons. right. by apply IH.
Qed.

Lemma assoc_set_keyed (b : DrawBrush.t) (m : CustomBrushes) :
  keyed m → keyed (assoc_set (DrawBrush.key b) b m).
Proof.
  unfold keyed. induction m as [|[k0 v0] m IH]; simpl; intros Hm.
  - by constructor.
  - apply Forall_cons in Hm as [Hk Hm].
    destruct (String.eqb_spec k0 (DrawBrush.key b)) as [->|Hne].
    + by constructor.
    + constructor; [done|by apply IH].
Qed.

(** ** The two loops of [syncDefs] *)

Lemma syncDefs_collect_inv (d : Drawable.t) (m : CustomBrushes)
    (sc : SyncableShape.t) :
  NoDup (map fst m) ∧ keyed m →
  NoDup (map fst (syncDefs_collect d m sc)) ∧ keyed (syncDefs_collect d m sc).
Proof.
  intros [Hn Hk]. unfold syncDefs_collect.
  destruct (has_dest _); [|done].
  destruct (modifiers_hilite _).
  - split.
    + by apply assoc_set_NoDup, assoc_set_NoDup.
    + apply assoc_set_keyed. by apply (assoc_set_keyed hilite_brush).
  - split; [by apply assoc_set_NoDup | by apply assoc_set_keyed].
Qed.

Lemma syncDefs_collect_keys (d : Drawable.t) (m : CustomBrushes)
    (sc : SyncableShape.t) (k : string) :
  k ∈ map fst (syncDefs_collect d m sc)
  ↔ k ∈ map fst m ∨ requires d [sc] k.
Proof.
  unfold syncDefs_collect, requires. setoid_rewrite list_elem_of_singleton.
  destruct (has_dest (SyncableShape.shape sc)) eqn:Hd.
  - destruct (modifiers_hilite (SyncableShape.shape sc)) eqn:Hh.
    + rewrite !assoc_set_keys. split.
      * intros [->|[->|?]]; [right|right|by left]; exists sc; auto.
      * intros [?|(sc' & -> & _ & [->|[_ ->]])]; auto.
    + rewrite !assoc_set_keys. split.
      * intros [->|?]; [right|by left]. exists sc; auto.
      * intros [?|(sc' & -> & _ & [->|[H ->]])]; auto. congruence.
  - split; [by left|]. intros [?|(sc' & -> & H & _)]; [done|congruence].
Qed.

Lemma required_fold_inv (d : Drawable.t) (shapes : list SyncableShape.t)
    (m : CustomBrushes) :
  NoDup (map fst m) ∧ keyed m →
  NoDup (map fst (fold_left (syncDefs_collect d) shapes m))
  ∧ keyed (fold_left (syncDefs_collect d) shapes m).
Proof.
  revert m; induction shapes as [|sc shapes IH]; intros m Hm; simpl; [done|].
  by apply IH, syncDefs_collect_inv.
Qed.

Lemma required_fold_keys (d : Drawable.t) (shapes : list SyncableShape.t)
    (m : CustomBrushes) (k : string) :
  k ∈ map fst (fold_left (syncDefs_collect d) shapes m)
  ↔ k ∈ map fst m ∨ requires d shapes k.
Proof.
  revert m; induction shapes as [|sc shapes IH]; intros m; simpl.
  - unfold requires. setoid_rewrite elem_of_nil. naive_solver.
  - rewrite IH, syncDefs_collect_keys. unfold requires.
    setoid_rewrite elem_of_cons. setoid_rewrite elem_of_nil.
    naive_solver.
Qed.

Lemma required_brushes_inv (d : Drawable.t) (shapes : list SyncableShape.t) :
  NoDup (map fst (required_brushes d shapes))
  ∧ keyed (required_brushes d shapes).
Proof.
  apply required_fold_inv. split; [apply NoDup_nil_2 | constructor].
Qed.

Lemma required_brushes_keys (d : Drawable.t) (shapes : list SyncableShape.t)
    (k : string) :
  k ∈ map fst (required_brushes d shapes) ↔ requires d shapes k.
Proof.
  unfold required_brushes. rewrite required_fold_keys. simpl.
  rewrite elem_of_nil. tauto.
Qed.

Lemma syncDefs_append_fold (keys : list (option string))
    (brushes : CustomBrushes) (defsEl : list Element) :
  fold_left (syncDefs_append keys) brushes defsEl
  = defsEl ++ new_defs keys brushes.
Proof.
  revert defsEl; induction brushes as [|kb brushes IH]; intros defsEl; simpl.
  - by rewrite app_nil_r.
  - rewrite IH. unfold syncDefs_append at 1.
    destruct (negb _); simpl; [|done].
    by rewrite <-!(assoc_L (++)).
Qed.

Lemma syncDefs_appends (d : Drawable.t) (shapes : list SyncableShape.t)
    (defsEl : list Element) :
  syncDefs d shapes defsEl
  = defsEl ++ new_defs (keysInDom defsEl) (required_brushes d shapes).
Proof. apply syncDefs_append_fold. Qed.

Lemma renderMarker_cgKey (b : DrawBrush.t) :
  el_tag (renderMarker b) = "marker"
  ∧ getAttribute (renderMarker b) "cgKey" = Some (DrawBrush.key b)
  ∧ getAttribute (renderMarker b) "id" = Some ("arrowhead-" +:+ DrawBrush.key b).
Proof. by repeat split. Qed.

Lemma renderLinearOpacityGradient_id (b : DrawBrush.t) :
  el_tag (renderLinearOpacityGradient b) = "linearGradient"
  ∧ getAttribute (renderLinearOpacityGradient b) "cgKey" = None
  ∧ getAttribute (renderLinearOpacityGradient b) "id"
    = Some ("linearOpacityGradient-" +:+ DrawBrush.key b).
Proof. by repeat split. Qed.

Lemma markers_for_pair (k : string) (b : DrawBrush.t) :
  markers_for k [renderMarker b; renderLinearOpacityGradient b]
  = if bool_decide (DrawBrush.key b = k) then 1%nat else 0%nat.
Proof.
  unfold markers_for. cbn [List.filter].
  destruct (renderMarker_cgKey b) as (-> & -> & _).
  destruct (renderLinearOpacityGradient_id b) as (-> & -> & _).
  change ("marker" =? "marker")%string with true.
  change ("linearGradient" =? "marker")%string with false.
  cbn [andb].
  destruct (decide (DrawBrush.key b = k)) as [->|Hne].
  - rewrite !bool_decide_eq_true_2 by reflexivity. reflexivity.
  - rewrite !bool_decide_eq_false_2 by congruence. reflexivity.
Qed.

Lemma gradients_for_pair (k : string) (b : DrawBrush.t) :
  gradients_for k [renderMarker b; renderLinearOpacityGradient b]
  = if bool_decide (DrawBrush.key b = k) then 1%nat else 0%nat.
Proof.
  unfold gradients_for. cbn [List.filter].
  destruct (renderMarker_cgKey b) as (-> & _ & _).
  destruct (renderLinearOpacityGradient_id b) as (-> & _ & ->).
  change ("marker" =? "linearGradient")%string with false.
  change ("linearGradient" =? "linearGradient")%string with true.
  cbn [andb].
  destruct (decide (DrawBrush.key b = k)) as [->|Hne].
  - rewrite !bool_decide_eq_true_2 by reflexivity. reflexivity.
  - rewrite (bool_decide_eq_false_2 (DrawBrush.key b = k)) by done.
    rewrite bool_decide_eq_false_2; [reflexivity|].
    intros [= E]. by apply (inj (String.app _)) in E.
Qed.

Lemma markers_for_app (k : string) (l l' : list Element) :
  markers_for k (l ++ l') = (markers_for k l + markers_for k l')%nat.
Proof. unfold markers_for. by rewrite List.filter_app, length_app. Qed.

Lemma gradients_for_app (k : string) (l l' : list Element) :
  gradients_for k (l ++ l') = (gradients_for k l + gradients_for k l')%nat.
Proof. unfold gradients_for. by rewrite List.filter_app, length_app. Qed.

Lemma new_defs_cons (keys : list (option string)) (k0 : string)
    (b0 : DrawBrush.t) (m : CustomBrushes) :
  new_defs keys ((k0, b0) :: m)
  = (if bool_decide (Some k0 ∈ keys) then []
     else [renderMarker b0; renderLinearOpacityGradient b0])
    ++ new_defs keys m.
Proof.
  unfold new_defs, keysInDom_has. cbn [flat_map fst snd].
  by destruct (bool_decide (Some k0 ∈ keys)).
Qed.

(** Among what is appended, a key has one marker and one gradient if it is
    collected and no child carries it, and none otherwise. *)
Lemma new_defs_count (keys : list (option string)) (m : CustomBrushes)
    (k : string) :
  NoDup (map fst m) → keyed m →
  let n := if bool_decide (k ∈ map fst m ∧ Some k ∉ keys)
           then 1%nat else 0%nat in
  markers_for k (new_defs keys m) = n ∧ gradients_for k (new_defs keys m) = n.
Proof.
  induction m as [|[k0 b0] m IH]; intros Hn Hk n; unfold n; clear n.
  - rewrite bool_decide_eq_false_2; [by split|].
    cbn [map]. rewrite elem_of_nil. tauto.
  - cbn [map fst] in Hn |- *.
    apply NoDup_cons in Hn as [Hk0 Hn]. apply Forall_cons in Hk as [Hb Hk].
    cbn [fst snd] in Hb. destruct (IH Hn Hk) as [IHm IHg].
    rewrite new_defs_cons, markers_for_app, gradients_for_app, IHm, IHg.
    destruct (decide (Some k0 ∈ keys)) as [Hin|Hin].
    + rewrite (bool_decide_eq_true_2 _ Hin).
      change (markers_for k []) with 0%nat.
      change (gradients_for k []) with 0%nat. cbn [Nat.add].
      assert (E : bool_decide (k ∈ k0 :: map fst m ∧ Some k ∉ keys)
                  = bool_decide (k ∈ map fst m ∧ Some k ∉ keys)).
      { apply bool_decide_ext. rewrite elem_of_cons.
        split; [|tauto]. intros [[->|?] ?]; [done|tauto]. }
      by rewrite E.
    + rewrite (bool_decide_eq_false_2 _ Hin).
      rewrite markers_for_pair, gradients_for_pair, Hb.
      destruct (decide (k0 = k)) as [->|Hne].
      * rewrite (bool_decide_eq_true_2 (k = k)) by done.
        rewrite (bool_decide_eq_false_2 (k ∈ map fst m ∧ _)) by tauto.
        rewrite bool_decide_eq_true_2; [by split|].
        split; [apply elem_of_cons; by left|done].
      * rewrite (bool_decide_eq_false_2 (k0 = k)) by done. cbn [Nat.add].
        assert (E : bool_decide (k ∈ k0 :: map fst m ∧ Some k ∉ keys)
                    = bool_decide (k ∈ map fst m ∧ Some k ∉ keys)).
        { apply bool_decide_ext. rewrite elem_of_cons.
          split; [|tauto]. intros [[->|?] ?]; [done|tauto]. }
        by rewrite E.
Qed.

(** Shapes that share one brush and have no modifiers make the first loop
    collect that brush once. *)
Lemma required_shared_fold (d : Drawable.t) (shapes : list SyncableShape.t)
    (name : string) (m : CustomBrushes) :
  let kb := (DrawBrush.key (Drawable.brushes d name), Drawable.brushes d name) in
  (∀ sc, sc ∈ shapes →
     has_dest (SyncableShape.shape sc) = true
     ∧ DrawShape.modifiers (SyncableShape.shape sc) = None
     ∧ DrawShape.brush (SyncableShape.shape sc) = name) →
  (m = [] ∧ shapes ≠ []) ∨ m = [kb] →
  fold_left (syncDefs_collect d) shapes m = [kb].
Proof.
  intros kb. revert m.
  induction shapes as [|sc shapes IH]; intros m Hall Hm.
  - destruct Hm as [[_ ?]| ->]; done.
  - cbn [fold_left]. apply IH.
    + intros sc' Hsc'. apply Hall, elem_of_cons. by right.
    + right.
      destruct (Hall sc) as (Hd & Hm' & Hb); [apply elem_of_cons; by left|].
      unfold syncDefs_collect, modifiers_hilite, shape_brush.
      rewrite Hd, Hm', Hb. fold kb.
      destruct Hm as [[-> _]| ->]; cbn [assoc_set]; [done|].
      unfold kb at 1. by rewrite String.eqb_refl.
Qed.

Lemma required_shared_brush (d : Drawable.t) (shapes : list SyncableShape.t)
    (name : string) :
  shapes ≠ [] →
  (∀ sc, sc ∈ shapes →
     has_dest (SyncableShape.shape sc) = true
     ∧ DrawShape.modifiers (SyncableShape.shape sc) = None
     ∧ DrawShape.brush (SyncableShape.shape sc) = name) →
  required_brushes d shapes
  = [(DrawBrush.key (Drawable.brushes d name), Drawable.brushes d name)].
Proof.
  intros Hne Hall. apply required_shared_fold; [done|]. by left.
Qed.

Lemma new_defs_elem (keys : list (option string)) (m : CustomBrushes)
    (k : string) (b : DrawBrush.t) :
  (k, b) ∈ m → Some k ∉ keys →
  renderMarker b ∈ new_defs keys m
  ∧ renderLinearOpacityGradient b ∈ new_defs keys m.
Proof.
  intros Hin Hk. unfold new_defs.
  split; apply list_elem_of_In, in_flat_map; exists (k, b);
    (split; [by apply list_elem_of_In|]); unfold keysInDom_has; simpl;
    rewrite (bool_decide_eq_false_2 _ Hk); simpl; auto.
Qed.

Lemma keys_elem {V} (k : string) (m : list (string * V)) :
  k ∈ map fst m → ∃ v, (k, v) ∈ m.
Proof.
  intros ([k' v] & <- & Hin)%list_elem_of_In%in_map_iff.
  exists v. by apply list_elem_of_In.
Qed.

Lemma keysInDom_app (l l' : list Element) :
  keysInDom (l ++ l') = keysInDom l ++ keysInDom l'.
Proof. apply List.map_app. Qed.

Lemma keysInDom_elem (el : Element) (l : list Element) :
  el ∈ l → getAttribute el "cgKey" ∈ keysInDom l.
Proof.
  intros H%list_elem_of_In. apply list_elem_of_In. unfold keysInDom.
  by apply (in_map (λ el, getAttribute el "cgKey")).
Qed.

(** The brush stored under "hilite" is the synthetic one, unless a brush of
    the pass has that key itself. *)
Lemma required_hilite (d : Drawable.t) (shapes : list SyncableShape.t)
    (m : CustomBrushes) :
  (∀ sc, sc ∈ shapes → has_dest (SyncableShape.shape sc) = true →
     DrawBrush.key (shape_brush (Drawable.brushes d) (SyncableShape.shape sc))
     ≠ "hilite") →
  (∃ sc, sc ∈ shapes ∧ has_dest (SyncableShape.shape sc) = true
         ∧ modifiers_hilite (SyncableShape.shape sc) = true)
  ∨ assoc_get "hilite" m = Some hilite_brush →
  assoc_get "hilite" (fold_left (syncDefs_collect d) shapes m)
  = Some hilite_brush.
Proof.
  revert m; induction shapes as [|sc shapes IH]; intros m Hkeys Hor; simpl.
  - destruct Hor as [(sc & H%elem_of_nil & _)|H]; done.
  - apply IH.
    { intros sc' Hsc'. apply Hkeys, elem_of_cons. by right. }
    assert (Hsc : sc ∈ sc :: shapes) by (apply elem_of_cons; by left).
    specialize (Hkeys sc Hsc).
    unfold syncDefs_collect.
    destruct (has_dest (SyncableShape.shape sc)) eqn:Hd.
    + specialize (Hkeys eq_refl).
      rewrite assoc_get_set_ne by done.
      destruct (modifiers_hilite (SyncableShape.shape sc)) eqn:Hh.
      * right. apply assoc_get_set_eq.
      * destruct Hor as [(sc' & [->|Hin]%elem_of_cons & Hd' & Hh')|Hm];
          [congruence|left; eauto|by right].
    + destruct Hor as [(sc' & [->|Hin]%elem_of_cons & Hd' & Hh')|Hm];
        [congruence|left; eauto|by right].
Qed.

(** ** Derived brushes *)

Lemma Math_round_nearest (x : number) :
  (Qabs (inject_Z (Math_round x) - x) <= 1 # 2)%Q.
Proof.
  unfold Math_round.
  pose proof (Qfloor_le (x + (1 # 2))) as Hle.
  pose proof (Qlt_floor (x + (1 # 2))) as Hlt.
  rewrite inject_Z_plus in Hlt. change (inject_Z 1) with 1%Q in Hlt.
  revert Hle Hlt. generalize (inject_Z (Qfloor (x + (1 # 2)))). intros r Hle Hlt.
  apply Qabs_case; intros _; lra.
Qed.

Lemma opt_num_or_eff (m : DrawModifiers.t) (y : number) :
  opt_num_or (DrawModifiers.lineWidth m) y = default y (width_eff (Some m)).
Proof.
  unfold opt_num_or, num_or, width_eff.
  destruct (DrawModifiers.lineWidth m) as [w|]; [|done].
  by destruct (num_truthy w).
Qed.

Lemma makeCustomBrush_key (base : DrawBrush.t) (m : DrawModifiers.t) :
  DrawBrush.key (makeCustomBrush base m)
  = DrawBrush.key base +:+ key_suffix (width_eff (Some m)).
Proof.
  change (DrawBrush.key (makeCustomBrush base m))
    with (join "" (filter_truthy
            [JStr (DrawBrush.key base); opt_num (DrawModifiers.lineWidth m)])).
  rewrite join_filter_entries. unfold width_eff.
  destruct (DrawBrush.key base) as [|c k];
    destruct (DrawModifiers.lineWidth m) as [w|];
    cbn [omap list_omap opt_num]; unfold entry;
    cbn [truthy str_truthy ToString];
    try destruct (num_truthy w); cbn [join_str key_suffix];
    rewrite ?Str.app_nil_r, ?Str.app_nil_l; reflexivity.
Qed.

Lemma key_suffix_equiv (w w' : option number) :
  opt_Qeq w w' → key_suffix w = key_suffix w'.
Proof.
  destruct w as [x|], w' as [y|]; simpl; try done.
  intros E. unfold Number_toString. by rewrite (Qred_complete _ _ E).
Qed.

Lemma key_suffix_inj (w w' : option number) :
  (∀ x, w = Some x → finite_decimal x = true) →
  (∀ x, w' = Some x → finite_decimal x = true) →
  key_suffix w = key_suffix w' → opt_Qeq w w'.
Proof.
  intros Hw Hw'. destruct w as [x|], w' as [y|]; simpl; try done.
  - intros E. apply Number_toString_inj; auto.
  - intros E. destruct (Number_toString_cons x) as (?&?&E'). congruence.
  - intros E. destruct (Number_toString_cons y) as (?&?&E'). congruence.
Qed.

(** * The claims *)

(** C6.  For every content string, the custom-content sub-hash is the tag
    "custom-" followed by the decimal rendering of the fold
    [h <- 31 * h + charCode] over the characters, from 0, modulo 2^32; one
    turn of the source's shift-and-subtract loop, [((h << 5) - h + c) >>> 0],
    is one turn of that fold. *)
Theorem customSvgHash_rolling31 (s : string) :
  customSvgHash s = "custom-" +:+ pretty (rolling31 s 0)
  ∧ 0 ≤ rolling31 s 0 < 2 ^ 32
  ∧ ∀ h c : Z, js_ushr0 (js_shl h 5 - h + c) = (31 * h + c) mod 2 ^ 32.
Proof.
  split; [|split].
  - unfold customSvgHash.
    by rewrite Number_toString_inject_Z, customSvgHash_loop_rolling.
  - apply rolling31_range. lia.
  - apply customSvgHash_step.
Qed.

(** C8.  Under black orientation a grid position is mirrored on both axes,
    [(x, y)] becoming [(7 - x, 7 - y)], before it is mapped to user space;
    under white it is left as it is.  So square (0,0) under black and square
    (7,7) under white have the same user-space coordinates, whatever the
    bounds. *)
Theorem orient_mirrors (pos : Pos) (bounds : DOMRect.t) :
  orient pos black = (7 - fst pos, 7 - snd pos)
  ∧ orient pos white = pos
  ∧ pos2user (orient pos black) bounds
    = pos2user (7 - fst pos, 7 - snd pos) bounds
  ∧ pos2user (orient (0, 0) black) bounds
    = pos2user (orient (7, 7) white) bounds
  ∧ orient (orient pos black) black = pos.
Proof.
  repeat split. destruct pos as [x y]; simpl. f_equal; lia.
Qed.

(** C1.  An arrow of a pass is drawn with the shaft margin 20/64 exactly
    when more than one shape of the pass has its destination and it is not
    the live shape, and with 10/64 otherwise.  The margin shows on the
    element [renderShape] makes: every inner arrow of it (the arrow itself,
    or the halo and the coloured arrow when it is hilited) has a shaft whose
    length is the length of the displacement less the margin, and a line
    that ends the margin short of the destination along the angle of the
    arrow. *)
Theorem arrow_margin_rule (key2pos : Key → Pos)
    (Math_atan2 : number → number → number)
    (Math_cos Math_sin Math_sqrt : number → number) (Math_PI : number)
    (state : State.t) (sc : SyncableShape.t) (dest : Key) :
  let d := State.drawable state in
  let shape := SyncableShape.shape sc in
  let bounds := State.bounds state in
  let el :=
    renderShape key2pos Math_atan2 Math_cos Math_sin Math_sqrt Math_PI
      state sc (Drawable.brushes d) (arrowDests_of d) bounds in
  let a :=
    pos2user (orient (key2pos (DrawShape.orig shape)) (State.orientation state))
      bounds in
  let b := pos2user (orient (key2pos dest) (State.orientation state)) bounds in
  let dx := (fst b - fst a)%Q in
  let dy := (snd b - snd a)%Q in
  let angle := Math_atan2 dy dx in
  let len := Math_sqrt (dx * dx + dy * dy)%Q in
  let m := pass_margin d dest (SyncableShape.current sc) in
  custom_of shape = None →
  arrow_dest shape = Some dest →
  el
  = setAttribute
      (renderRectangleArrow_with Math_atan2 Math_cos Math_sin Math_sqrt Math_PI
         m
         (shape_brush (Drawable.brushes d) shape)
         (orient (key2pos (DrawShape.orig shape)) (State.orientation state))
         (orient (key2pos dest) (State.orientation state))
         (SyncableShape.current sc) bounds
         (modifiers_hilite shape))
      "cgHash" (JStr (SyncableShape.hash sc))
  ∧ (m = (20 / 64)%Q
     ↔ (1 < dest_count (pass_shapes d) dest)%nat
       ∧ SyncableShape.current sc = false)
  ∧ (m = (10 / 64)%Q
     ↔ ¬ ((1 < dest_count (pass_shapes d) dest)%nat
          ∧ SyncableShape.current sc = false))
  ∧ length (arrow_passes el (modifiers_hilite shape))
    = (if modifiers_hilite shape then 2 else 1)%nat
  ∧ ∀ g, g ∈ arrow_passes el (modifiers_hilite shape) →
      inner_arrow_shows g a
        (fst b - Math_cos angle * m, snd b - Math_sin angle * m)%Q
        (len - m)%Q.
Proof.
  intros d shape bounds el a b dx dy angle len m Hc Ha.
  assert (E : el
    = setAttribute
        (renderRectangleArrow_with Math_atan2 Math_cos Math_sin Math_sqrt
           Math_PI m (shape_brush (Drawable.brushes d) shape)
           (orient (key2pos (DrawShape.orig shape)) (State.orientation state))
           (orient (key2pos dest) (State.orientation state))
           (SyncableShape.current sc) bounds (modifiers_hilite shape))
        "cgHash" (JStr (SyncableShape.hash sc)))
    by by apply renderShape_arrow.
  split; [exact E|]. split; [|split].
  - unfold m, pass_margin. pose proof margins_differ.
    destruct (Nat.ltb_spec 1 (dest_count (pass_shapes d) dest));
      destruct (SyncableShape.current sc); simpl;
      intuition (congruence || lia).
  - unfold m, pass_margin. pose proof margins_differ.
    destruct (Nat.ltb_spec 1 (dest_count (pass_shapes d) dest));
      destruct (SyncableShape.current sc); simpl;
      intuition (congruence || lia).
  - rewrite E. apply renderRectangleArrow_with_shows.
Qed.

Example three_to_e4_pass :
  map SyncableShape.hash
    (syncable_shapes (State.drawable state_three_to_e4) bounds_512)
  = [ "512,512,a1,e4,green,true"; "512,512,b1,e4,green,true";
      "512,512,true,c1,e4,green,true" ]
  ∧ last (syncable_shapes (State.drawable state_three_to_e4) bounds_512)
    = Some live_of_three.
Proof. split; vm_compute; reflexivity. Qed.

Example three_persisted_margins :
  map (λ sc, pass_margin (State.drawable state_three_persisted) e4
               (SyncableShape.current sc))
    (syncable_shapes (State.drawable state_three_persisted) bounds_512)
  = [ (20 / 64)%Q; (20 / 64)%Q; (20 / 64)%Q ].
Proof. vm_compute; reflexivity. Qed.

Example three_one_live_margins :
  map (λ sc, pass_margin (State.drawable state_three_to_e4) e4
               (SyncableShape.current sc))
    (syncable_shapes (State.drawable state_three_to_e4) bounds_512)
  = [ (20 / 64)%Q; (20 / 64)%Q; (10 / 64)%Q ].
Proof. vm_compute; reflexivity. Qed.

Lemma arrow_margin_rule_witness :
  let d := State.drawable state_three_to_e4 in
  let persisted :=
    SyncableShape.mk (plain_shape (Sq Fa R1) (Some e4) "green") false
      "512,512,a1,e4,green,true" in
  let render :=
    renderShape key2pos_model atan2_approx cos_approx sin_approx sqrt_approx
      PI_approx state_three_to_e4 in
  (custom_of (SyncableShape.shape live_of_three) = None
   ∧ arrow_dest (SyncableShape.shape live_of_three) = Some e4
   ∧ custom_of (SyncableShape.shape persisted) = None
   ∧ arrow_dest (SyncableShape.shape persisted) = Some e4)
  ∧ pass_margin d e4 true = (10 / 64)%Q
  ∧ render live_of_three (Drawable.brushes d) (arrowDests_of d) bounds_512
    = setAttribute
        (renderRectangleArrow_with atan2_approx cos_approx sin_approx
           sqrt_approx PI_approx (10 / 64)%Q
           (brushes_model "green") (2, 0) (4, 3) true bounds_512 false)
        "cgHash" (JStr "512,512,true,c1,e4,green,true")
  ∧ (∃ rect line w,
       el_children
         (render live_of_three (Drawable.brushes d) (arrowDests_of d)
            bounds_512)
       = [rect; line]
       ∧ assoc_get "width" (el_attrs rect) = Some (JNum w)
       ∧ (w == (3605551 # 1000000) - 10 / 64)%Q)
  ∧ (∃ rect line w,
       el_children
         (render persisted (Drawable.brushes d) (arrowDests_of d) bounds_512)
       = [rect; line]
       ∧ assoc_get "width" (el_attrs rect) = Some (JNum w)
       ∧ (w == 5 - 20 / 64)%Q).
Proof.
  intros d persisted render.
  pose proof (arrow_margin_rule key2pos_model atan2_approx cos_approx
    sin_approx sqrt_approx PI_approx state_three_to_e4 live_of_three e4
    eq_refl eq_refl) as (Hr & _ & _ & _ & Hlive).
  pose proof (arrow_margin_rule key2pos_model atan2_approx cos_approx
    sin_approx sqrt_approx PI_approx state_three_to_e4 persisted e4
    eq_refl eq_refl) as (_ & _ & _ & _ & Hpers).
  split; [by repeat split|].
  split; [vm_compute; reflexivity|]. split; [exact Hr|]. split.
  - destruct (Hlive _ (list_elem_of_here _ _))
      as (rect & line & Ec & _ & _ & _ & Hw & _).
    exists rect, line. eexists. split; [exact Ec|]. split; [exact Hw|].
    vm_compute; reflexivity.
  - destruct (Hpers _ (list_elem_of_here _ _))
      as (rect & line & Ec & _ & _ & _ & Hw & _).
    exists rect, line. eexists. split; [exact Ec|]. split; [exact Hw|].
    vm_compute; reflexivity.
Defined.

(** C10.  A shape whose destination is its origin is not drawn as an arrow
    (it is a square highlight unless it is custom markup), yet the tally
    counts its destination.  A genuine arrow [A] to a square and such a
    shape [D] on that square make the count 2: [A], not live, is drawn with
    the 20/64 margin instead of 10/64, which shows on its element (the
    shaft of every inner arrow is the length of the displacement less
    20/64 with [D] and less 10/64 without, and the line ends that much short
    of the destination), and its fingerprint differs from the one it has
    without [D]. *)
Theorem degenerate_shape_counts (key2pos : Key → Pos)
    (Math_atan2 : number → number → number)
    (Math_cos Math_sin Math_sqrt : number → number) (Math_PI : number)
    (orientation : Color) (bounds : DOMRect.t) (brushes : DrawBrushes)
    (prev : string) (A D : DrawShape.t) (k : Key) :
  let render :=
    renderShape key2pos Math_atan2 Math_cos Math_sin Math_sqrt Math_PI in
  let arrow_with :=
    renderRectangleArrow_with Math_atan2 Math_cos Math_sin Math_sqrt Math_PI in
  let both := state_of_shapes orientation bounds brushes prev [A; D] in
  let alone := state_of_shapes orientation bounds brushes prev [A] in
  let tally2 := arrowDests_of (State.drawable both) in
  let tally1 := arrowDests_of (State.drawable alone) in
  let a := pos2user (orient (key2pos (DrawShape.orig A)) orientation) bounds in
  let b := pos2user (orient (key2pos k) orientation) bounds in
  let dx := (fst b - fst a)%Q in
  let dy := (snd b - snd a)%Q in
  let angle := Math_atan2 dy dx in
  let len := Math_sqrt (dx * dx + dy * dy)%Q in
  DrawShape.orig D = k → DrawShape.dest D = Some k →
  DrawShape.dest A = Some k → DrawShape.orig A ≠ k →
  custom_of A = None →
  arrow_dest D = None
  ∧ (custom_of D = None →
     ∀ cur h,
       render both (SyncableShape.mk D cur h) brushes tally2 bounds
       = setAttribute
           (renderSquare (brushes (DrawShape.brush D))
              (orient (key2pos k) orientation) cur bounds)
           "cgHash" (JStr h))
  ∧ arrowDests_step ∅ D = {[ k := 1%nat ]}
  ∧ arrowDests_get tally2 k = 2%nat
  ∧ arrowDests_get tally1 k = 1%nat
  ∧ (∀ h,
       render both (SyncableShape.mk A false h) brushes tally2 bounds
       = setAttribute
           (arrow_with (20 / 64)%Q (shape_brush brushes A)
              (orient (key2pos (DrawShape.orig A)) orientation)
              (orient (key2pos k) orientation) false bounds
              (modifiers_hilite A))
           "cgHash" (JStr h)
       ∧ render alone (SyncableShape.mk A false h) brushes tally1 bounds
         = setAttribute
             (arrow_with (10 / 64)%Q (shape_brush brushes A)
                (orient (key2pos (DrawShape.orig A)) orientation)
                (orient (key2pos k) orientation) false bounds
                (modifiers_hilite A))
             "cgHash" (JStr h))
  ∧ (∀ h,
       let with_D :=
         render both (SyncableShape.mk A false h) brushes tally2 bounds in
       let without_D :=
         render alone (SyncableShape.mk A false h) brushes tally1 bounds in
       length (arrow_passes with_D (modifiers_hilite A))
       = (if modifiers_hilite A then 2 else 1)%nat
       ∧ length (arrow_passes without_D (modifiers_hilite A))
         = (if modifiers_hilite A then 2 else 1)%nat
       ∧ (∀ g, g ∈ arrow_passes with_D (modifiers_hilite A) →
            inner_arrow_shows g a
              (fst b - Math_cos angle * (20 / 64),
               snd b - Math_sin angle * (20 / 64))%Q
              (len - 20 / 64)%Q)
       ∧ (∀ g, g ∈ arrow_passes without_D (modifiers_hilite A) →
            inner_arrow_shows g a
              (fst b - Math_cos angle * (10 / 64),
               snd b - Math_sin angle * (10 / 64))%Q
              (len - 10 / 64)%Q))
  ∧ shapeHash A tally2 false bounds ≠ shapeHash A tally1 false bounds.
Proof.
  intros render arrow_with both alone tally2 tally1 a b dx dy angle len
    HoD HdD HdA HoA HcA.
  assert (HD : arrow_dest D = None).
  { apply arrow_dest_degenerate. congruence. }
  assert (HA : arrow_dest A = Some k) by by apply arrow_dest_genuine.
  assert (H2 : arrowDests_get tally2 k = 2%nat).
  { unfold tally2. rewrite arrowDests_of_count. unfold dest_count; simpl.
    by rewrite !bool_decide_eq_true_2. }
  assert (H1 : arrowDests_get tally1 k = 1%nat).
  { unfold tally1. rewrite arrowDests_of_count. unfold dest_count; simpl.
    by rewrite !bool_decide_eq_true_2. }
  assert (Eboth : ∀ h,
    render both (SyncableShape.mk A false h) brushes tally2 bounds
    = setAttribute
        (arrow_with (20 / 64)%Q (shape_brush brushes A)
           (orient (key2pos (DrawShape.orig A)) orientation)
           (orient (key2pos k) orientation) false bounds
           (modifiers_hilite A))
        "cgHash" (JStr h)).
  { intros h.
    pose proof (renderShape_arrow key2pos Math_atan2 Math_cos Math_sin
      Math_sqrt Math_PI both (SyncableShape.mk A false h) k HcA HA) as E.
    etrans; [exact E|]. f_equal. f_equal.
    unfold pass_margin, dest_count; simpl.
    by rewrite !bool_decide_eq_true_2. }
  assert (Ealone : ∀ h,
    render alone (SyncableShape.mk A false h) brushes tally1 bounds
    = setAttribute
        (arrow_with (10 / 64)%Q (shape_brush brushes A)
           (orient (key2pos (DrawShape.orig A)) orientation)
           (orient (key2pos k) orientation) false bounds
           (modifiers_hilite A))
        "cgHash" (JStr h)).
  { intros h.
    pose proof (renderShape_arrow key2pos Math_atan2 Math_cos Math_sin
      Math_sqrt Math_PI alone (SyncableShape.mk A false h) k HcA HA) as E.
    etrans; [exact E|]. f_equal. f_equal.
    unfold pass_margin, dest_count; simpl.
    by rewrite !bool_decide_eq_true_2. }
  repeat apply conj; try done.
  - intros HcD cur h. unfold render.
    rewrite renderShape_square by done. simpl. by rewrite HoD.
  - unfold arrowDests_step. rewrite HdD, Key_str_truthy.
    unfold arrowDests_get. rewrite lookup_empty. simpl.
    by rewrite insert_empty.
  - intros h with_D without_D. unfold with_D, without_D.
    rewrite Eboth, Ealone. unfold arrow_with.
    split; [apply renderRectangleArrow_with_shows|].
    split; [apply renderRectangleArrow_with_shows|].
    split; apply renderRectangleArrow_with_shows.
  - apply shapeHash_shared. rewrite HdA. unfold shared_entry, js_and.
    simpl truthy. rewrite Key_str_truthy, H1, H2. done.
Qed.

Lemma degenerate_shape_counts_witness :
  let A := plain_shape (Sq Fa R1) (Some e4) "green" in
  let D := plain_shape e4 (Some e4) "red" in
  let both := state_of_shapes white bounds_512 brushes_model "" [A; D] in
  let alone := state_of_shapes white bounds_512 brushes_model "" [A] in
  let render :=
    renderShape key2pos_model atan2_approx cos_approx sin_approx sqrt_approx
      PI_approx in
  (DrawShape.orig D = e4 ∧ DrawShape.dest D = Some e4
   ∧ DrawShape.dest A = Some e4 ∧ DrawShape.orig A ≠ e4
   ∧ custom_of A = None)
  ∧ arrowDests_get (arrowDests_of (State.drawable both)) e4 = 2%nat
  ∧ shapeHash A (arrowDests_of (State.drawable both)) false bounds_512
    = "512,512,a1,e4,green,true"
  ∧ shapeHash A (arrowDests_of (State.drawable alone)) false bounds_512
    = "512,512,a1,e4,green"
  ∧ shapeHash A (arrowDests_of (State.drawable both)) false bounds_512
    ≠ shapeHash A (arrowDests_of (State.drawable alone)) false bounds_512
  ∧ (∃ rect line w,
       el_children
         (render both (SyncableShape.mk A false "h") brushes_model
            (arrowDests_of (State.drawable both)) bounds_512)
       = [rect; line]
       ∧ assoc_get "width" (el_attrs rect) = Some (JNum w)
       ∧ (w == 5 - 20 / 64)%Q)
  ∧ (∃ rect line w,
       el_children
         (render alone (SyncableShape.mk A false "h") brushes_model
            (arrowDests_of (State.drawable alone)) bounds_512)
       = [rect; line]
       ∧ assoc_get "width" (el_attrs rect) = Some (JNum w)
       ∧ (w == 5 - 10 / 64)%Q).
Proof.
  intros A D both alone render.
  assert (Hne : DrawShape.orig A ≠ e4) by discriminate.
  pose proof (degenerate_shape_counts key2pos_model atan2_approx cos_approx
    sin_approx sqrt_approx PI_approx white bounds_512 brushes_model ""
    A D e4 eq_refl eq_refl eq_refl Hne eq_refl)
    as (_ & _ & _ & H2 & _ & _ & Hel & Hh).
  destruct (Hel "h") as (_ & _ & Hwith & Hwithout).
  split; [by repeat split|].
  split; [exact H2|].
  split; [vm_compute; reflexivity|].
  split; [vm_compute; reflexivity|].
  split; [exact Hh|]. split.
  - destruct (Hwith _ (list_elem_of_here _ _))
      as (rect & line & Ec & _ & _ & _ & Hw & _).
    exists rect, line. eexists. split; [exact Ec|]. split; [exact Hw|].
    vm_compute; reflexivity.
  - destruct (Hwithout _ (list_elem_of_here _ _))
      as (rect & line & Ec & _ & _ & _ & Hw & _).
    exists rect, line. eexists. split; [exact Ec|]. split; [exact Hw|].
    vm_compute; reflexivity.
Defined.

(** C2.  When the aggregate hash of the pass (the fingerprints joined with
    ";" in list order) equals the stored hash, [renderSvg] returns with the
    state, the stored hash and all three scene nodes as they were; so a
    second call, on what the first call left, changes nothing. *)
Theorem renderSvg_unchanged_hash (key2pos : Key → Pos)
    (Math_atan2 : number → number → number)
    (Math_cos Math_sin Math_sqrt : number → number) (Math_PI : number)
    (syncShapes : list SyncableShape.t → list Element
                  → (SyncableShape.t → Element) → list Element)
    (state : State.t) (scene : Scene.t) :
  let render :=
    renderSvg key2pos Math_atan2 Math_cos Math_sin Math_sqrt Math_PI
      syncShapes in
  let d := State.drawable state in
  (join_str ";" (map SyncableShape.hash (syncable_shapes d (State.bounds state)))
   = Drawable.prevSvgHash d →
   render state scene = (state, scene))
  ∧ render (fst (render state scene)) (snd (render state scene))
    = render state scene
  ∧ Drawable.prevSvgHash (State.drawable (fst (render state scene)))
    = join_str ";" (map SyncableShape.hash
                      (syncable_shapes d (State.bounds state))).
Proof.
  intros render d. unfold render. split; [|split].
  - apply renderSvg_same.
  - destruct (decide (fullHash_of (syncable_shapes d (State.bounds state))
                      = Drawable.prevSvgHash d)) as [E|E].
    + rewrite (renderSvg_same _ _ _ _ _ _ _ _ _ E). simpl.
      by apply renderSvg_same.
    + rewrite (renderSvg_changed key2pos Math_atan2 Math_cos Math_sin
        Math_sqrt Math_PI syncShapes state scene E). simpl fst; simpl snd.
      apply renderSvg_same. reflexivity.
  - destruct (decide (fullHash_of (syncable_shapes d (State.bounds state))
                      = Drawable.prevSvgHash d)) as [E|E].
    + by rewrite (renderSvg_same _ _ _ _ _ _ _ _ _ E).
    + by rewrite (renderSvg_changed key2pos Math_atan2 Math_cos Math_sin
        Math_sqrt Math_PI syncShapes state scene E).
Qed.

Lemma renderSvg_unchanged_hash_witness :
  let state :=
    state_of_shapes white bounds_512 brushes_model "512,512,a1,e4,green"
      [plain_shape (Sq Fa R1) (Some e4) "green"] in
  let scene := Scene.mk [] [] [] in
  join_str ";" (map SyncableShape.hash
     (syncable_shapes (State.drawable state) (State.bounds state)))
  = Drawable.prevSvgHash (State.drawable state)
  ∧ renderSvg key2pos_model atan2_approx cos_approx sin_approx sqrt_approx
      PI_approx syncShapes_model state scene
    = (state, scene).
Proof.
  intros state scene.
  assert (H : join_str ";" (map SyncableShape.hash
     (syncable_shapes (State.drawable state) (State.bounds state)))
    = Drawable.prevSvgHash (State.drawable state)) by (vm_compute; reflexivity).
  split; [exact H|].
  exact (proj1 (renderSvg_unchanged_hash key2pos_model atan2_approx cos_approx
    sin_approx sqrt_approx PI_approx syncShapes_model state scene) H).
Defined.

(** C9.  An auto shape that carries a piece takes no part in the pass: the
    auto shapes of the pass are exactly those without a piece, and taking a
    piece-carrying auto shape out of the state leaves the shapes of the
    pass, the tally, every fingerprint (so the aggregate hash), the scene
    nodes after [renderSvg] and the stored hash as they are. *)
Theorem piece_autoShapes_excluded (key2pos : Key → Pos)
    (Math_atan2 : number → number → number)
    (Math_cos Math_sin Math_sqrt : number → number) (Math_PI : number)
    (syncShapes : list SyncableShape.t → list Element
                  → (SyncableShape.t → Element) → list Element)
    (state : State.t) (scene : Scene.t)
    (l1 l2 : list DrawShape.t) (a : DrawShape.t) :
  let render :=
    renderSvg key2pos Math_atan2 Math_cos Math_sin Math_sqrt Math_PI
      syncShapes in
  let d := State.drawable state in
  let state' := set_autoShapes state (l1 ++ l2) in
  let d' := State.drawable state' in
  Drawable.autoShapes d = l1 ++ a :: l2 →
  is_Some (DrawShape.piece a) →
  (∀ s, s ∈ nonPieceAutoShapes d
        ↔ s ∈ Drawable.autoShapes d ∧ DrawShape.piece s = None)
  ∧ pass_shapes d
    = (Drawable.shapes d ++ nonPieceAutoShapes d) ++ option_list (cur_of d)
  ∧ pass_shapes d' = pass_shapes d
  ∧ arrowDests_of d' = arrowDests_of d
  ∧ syncable_shapes d' (State.bounds state)
    = syncable_shapes d (State.bounds state)
  ∧ snd (render state' scene) = snd (render state scene)
  ∧ Drawable.prevSvgHash (State.drawable (fst (render state' scene)))
    = Drawable.prevSvgHash (State.drawable (fst (render state scene))).
Proof.
  intros render d state' d' Hl Ha.
  destruct (syncable_shapes_drop state l1 l2 a (State.bounds state) Hl Ha)
    as (Hp & Hd & Hs).
  fold state' d' d in Hp, Hd, Hs.
  split; [apply nonPieceAutoShapes_elem|].
  do 4 (split; [done|]).
  unfold render.
  destruct (decide (fullHash_of (syncable_shapes d (State.bounds state))
                    = Drawable.prevSvgHash d)) as [E|E].
  - rewrite (renderSvg_same _ _ _ _ _ _ _ state scene E).
    assert (E' : fullHash_of
      (syncable_shapes (State.drawable state') (State.bounds state'))
      = Drawable.prevSvgHash (State.drawable state')).
    { fold d'. change (State.bounds state') with (State.bounds state).
      by rewrite Hs. }
    by rewrite (renderSvg_same _ _ _ _ _ _ _ state' scene E').
  - rewrite (renderSvg_changed key2pos Math_atan2 Math_cos Math_sin
      Math_sqrt Math_PI syncShapes state scene E).
    assert (E' : fullHash_of
      (syncable_shapes (State.drawable state') (State.bounds state'))
      ≠ Drawable.prevSvgHash (State.drawable state')).
    { fold d'. change (State.bounds state') with (State.bounds state).
      by rewrite Hs. }
    rewrite (renderSvg_changed key2pos Math_atan2 Math_cos Math_sin
      Math_sqrt Math_PI syncShapes state' scene E').
    fold d d'. change (State.bounds state') with (State.bounds state).
    rewrite Hs, Hd. simpl. split; reflexivity.
Qed.

(** C4.  [syncDefs] keeps every child of the definitions node, in place,
    and appends behind them, for every brush key that a destination-carrying
    shape of the pass uses (the key "hilite" included, when such a shape is
    hilited) and that no child carries yet, exactly one arrowhead marker
    tagged with the key and one gradient named after it; for a key that is
    not used, or that a child carries already, it appends none.  Any number
    of shapes that share one brush and have no modifiers yield that one
    pair. *)
Theorem syncDefs_append_only (d : Drawable.t) (shapes : list SyncableShape.t)
    (defsEl : list Element) :
  let added := new_defs (keysInDom defsEl) (required_brushes d shapes) in
  syncDefs d shapes defsEl = defsEl ++ added
  ∧ (∀ k,
       (requires d shapes k ∧ Some k ∉ keysInDom defsEl →
        markers_for k added = 1%nat ∧ gradients_for k added = 1%nat)
       ∧ (¬ (requires d shapes k ∧ Some k ∉ keysInDom defsEl) →
          markers_for k added = 0%nat ∧ gradients_for k added = 0%nat))
  ∧ (∀ name,
       shapes ≠ [] →
       (∀ sc, sc ∈ shapes →
          has_dest (SyncableShape.shape sc) = true
          ∧ DrawShape.modifiers (SyncableShape.shape sc) = None
          ∧ DrawShape.brush (SyncableShape.shape sc) = name) →
       added
       = if keysInDom_has (keysInDom defsEl)
              (DrawBrush.key (Drawable.brushes d name))
         then []
         else [ renderMarker (Drawable.brushes d name);
                renderLinearOpacityGradient (Drawable.brushes d name) ]).
Proof.
  intros added. split; [apply syncDefs_appends|split].
  - intros k.
    destruct (required_brushes_inv d shapes) as [Hn Hk].
    destruct (new_defs_count (keysInDom defsEl) _ k Hn Hk) as [Hm Hg].
    fold added in Hm, Hg. rewrite Hm, Hg.
    rewrite <-(required_brushes_keys d shapes k).
    split; intros H.
    + by rewrite bool_decide_eq_true_2.
    + by rewrite bool_decide_eq_false_2.
  - intros name Hne Hall. unfold added.
    rewrite (required_shared_brush d shapes name Hne Hall).
    unfold new_defs. simpl. destruct (keysInDom_has _ _); simpl; done.
Qed.

Lemma syncDefs_append_only_witness :
  let d := State.drawable state_three_persisted in
  let shapes := syncable_shapes d bounds_512 in
  (shapes ≠ []
   ∧ ∀ sc, sc ∈ shapes →
       has_dest (SyncableShape.shape sc) = true
       ∧ DrawShape.modifiers (SyncableShape.shape sc) = None
       ∧ DrawShape.brush (SyncableShape.shape sc) = "green")
  ∧ syncDefs d shapes []
    = [ renderMarker (brushes_model "green");
        renderLinearOpacityGradient (brushes_model "green") ].
Proof.
  intros d shapes.
  assert (Hne : shapes ≠ []) by discriminate.
  assert (Hall : ∀ sc, sc ∈ shapes →
       has_dest (SyncableShape.shape sc) = true
       ∧ DrawShape.modifiers (SyncableShape.shape sc) = None
       ∧ DrawShape.brush (SyncableShape.shape sc) = "green").
  { intros sc Hsc. unfold shapes in Hsc. vm_compute in Hsc.
    repeat (apply elem_of_cons in Hsc as [->|Hsc]; [by repeat split|]).
    by apply elem_of_nil in Hsc. }
  split; [done|].
  destruct (syncDefs_append_only d shapes []) as (Happ & _ & Hshared).
  rewrite Happ. exact (Hshared "green" Hne Hall).
Defined.

(** C7 as stated fails: a hilited square highlight (no destination) is a
    shape of the pass that requests the hilite modifier, and the pass adds
    nothing to the definitions pool. *)
Lemma hilite_without_dest_not_ensured :
  let state := state_of_shapes white bounds_512 brushes_model "" [hilited_square] in
  let d := State.drawable state in
  let shapes := syncable_shapes d bounds_512 in
  let after :=
    renderSvg key2pos_model atan2_approx cos_approx sin_approx sqrt_approx
      PI_approx syncShapes_model state empty_scene in
  (∃ sc, sc ∈ shapes ∧ modifiers_hilite (SyncableShape.shape sc) = true)
  ∧ syncDefs d shapes [] = []
  ∧ Scene.defsEl (snd after) = []
  ∧ Some "hilite" ∉ keysInDom (Scene.defsEl (snd after)).
Proof.
  intros state d shapes after. split; [|split; [|split]].
  - eexists. split; [apply elem_of_cons; left; reflexivity|reflexivity].
  - reflexivity.
  - vm_compute. reflexivity.
  - vm_compute. apply not_elem_of_nil.
Qed.

(** C7, amended.  Whenever a destination-carrying shape of the pass requests
    the hilite modifier, the definitions node has a child tagged "hilite"
    after [syncDefs]; when there was none before and no brush of the pass is
    itself keyed "hilite", the children added are the marker and the
    gradient of the synthetic brush: white, opacity 1, line width 1. *)
Theorem hilite_brush_ensured (d : Drawable.t) (shapes : list SyncableShape.t)
    (defsEl : list Element) :
  (∃ sc, sc ∈ shapes ∧ has_dest (SyncableShape.shape sc) = true
         ∧ modifiers_hilite (SyncableShape.shape sc) = true) →
  Some "hilite" ∈ keysInDom (syncDefs d shapes defsEl)
  ∧ (Some "hilite" ∉ keysInDom defsEl →
     (∀ sc, sc ∈ shapes → has_dest (SyncableShape.shape sc) = true →
        DrawBrush.key (shape_brush (Drawable.brushes d) (SyncableShape.shape sc))
        ≠ "hilite") →
     renderMarker hilite_brush ∈ syncDefs d shapes defsEl
     ∧ renderLinearOpacityGradient hilite_brush ∈ syncDefs d shapes defsEl)
  ∧ hilite_brush = DrawBrush.mk "hilite" "white" 1%Q 1%Q.
Proof.
  intros (sc & Hsc & Hd & Hh). rewrite syncDefs_appends, keysInDom_app.
  split; [|split; [|done]].
  - destruct (decide (Some "hilite" ∈ keysInDom defsEl)) as [Hin|Hin];
      apply elem_of_app; [by left|right].
    assert (Hreq : "hilite" ∈ map fst (required_brushes d shapes)).
    { apply required_brushes_keys. exists sc. auto. }
    apply keys_elem in Hreq as [b Hb].
    destruct (required_brushes_inv d shapes) as [_ Hk].
    unfold keyed in Hk. rewrite Forall_forall in Hk.
    specialize (Hk _ Hb). simpl in Hk.
    destruct (new_defs_elem _ _ _ _ Hb Hin) as [Hm _].
    apply keysInDom_elem in Hm.
    by rewrite (proj1 (proj2 (renderMarker_cgKey b))), Hk in Hm.
  - intros Hin Hkeys.
    assert (Hb : ("hilite", hilite_brush) ∈ required_brushes d shapes).
    { apply assoc_get_elem, required_hilite; [done|]. left. eauto. }
    destruct (new_defs_elem _ _ _ _ Hb Hin) as [Hm Hg].
    split; apply elem_of_app; by right.
Qed.

Lemma hilite_brush_ensured_witness :
  let arrow :=
    DrawShape.mk (Sq Fa R1) (Some e4) "green"
      (Some (DrawModifiers.mk None (Some true))) None None in
  let d := State.drawable
    (state_of_shapes white bounds_512 brushes_model "" [arrow]) in
  let shapes := syncable_shapes d bounds_512 in
  (∃ sc, sc ∈ shapes ∧ has_dest (SyncableShape.shape sc) = true
         ∧ modifiers_hilite (SyncableShape.shape sc) = true)
  ∧ Some "hilite" ∈ keysInDom (syncDefs d shapes []).
Proof.
  intros arrow d shapes.
  assert (H : ∃ sc, sc ∈ shapes ∧ has_dest (SyncableShape.shape sc) = true
         ∧ modifiers_hilite (SyncableShape.shape sc) = true).
  { eexists. split; [apply elem_of_cons; left; reflexivity|by split]. }
  split; [exact H|].
  exact (proj1 (hilite_brush_ensured d shapes [] H)).
Defined.

(** C3 as stated fails on an override width of 0: the derived line width is
    the base width, not 0, and the key gets no suffix, so the override 0 and
    no override at all give one key. *)
Lemma makeCustomBrush_zero_override :
  let base := brushes_model "red" in
  let m0 := DrawModifiers.mk (Some 0%Q) None in
  ¬ derived_as_stated base m0
  ∧ DrawBrush.lineWidth (makeCustomBrush base m0) = 10%Q
  ∧ inject_Z (Math_round (default (DrawBrush.lineWidth base) (Some 0%Q))) = 0%Q
  ∧ DrawBrush.key (makeCustomBrush base m0) = "r"
  ∧ DrawBrush.key base +:+ key_suffix (Some 0%Q) = "r0"
  ∧ DrawBrush.key (makeCustomBrush base m0)
    = DrawBrush.key (makeCustomBrush base (DrawModifiers.mk None None)).
Proof.
  intros base m0. split; [|by repeat split].
  intros (_ & _ & Hw & _). vm_compute in Hw. discriminate Hw.
Qed.

(** C3, amended.  The derived brush keeps the base colour; its opacity is
    the base opacity rounded to one decimal; its line width is the override
    width if that is present and not zero, else the base width, rounded to
    the nearest integer; its key is the base key followed by the override
    width if that is present and not zero, and by nothing otherwise.  So
    overrides of equal width on one base brush give one key, and overrides
    that differ in a width that counts give two. *)
Theorem makeCustomBrush_derived (base : DrawBrush.t) (m m' : DrawModifiers.t) :
  let b := makeCustomBrush base m in
  let w := width_eff (Some m) in
  let w' := width_eff (Some m') in
  DrawBrush.color b = DrawBrush.color base
  ∧ DrawBrush.opacity b
    = (inject_Z (Math_round (DrawBrush.opacity base * 10)) / 10)%Q
  ∧ (Qabs (DrawBrush.opacity b - DrawBrush.opacity base) <= 1 # 20)%Q
  ∧ DrawBrush.lineWidth b
    = inject_Z (Math_round (default (DrawBrush.lineWidth base) w))
  ∧ (Qabs (DrawBrush.lineWidth b - default (DrawBrush.lineWidth base) w)
     <= 1 # 2)%Q
  ∧ DrawBrush.key b = DrawBrush.key base +:+ key_suffix w
  ∧ (opt_Qeq w w' →
     DrawBrush.key (makeCustomBrush base m') = DrawBrush.key b)
  ∧ (mods_decimal (Some m) → mods_decimal (Some m') → ¬ opt_Qeq w w' →
     DrawBrush.key (makeCustomBrush base m') ≠ DrawBrush.key b).
Proof.
  intros b w w'. unfold b.
  split; [done|]. split; [done|]. split.
  { cbn [makeCustomBrush DrawBrush.opacity].
    pose proof (Math_round_nearest (DrawBrush.opacity base * 10)%Q) as H.
    revert H.
    generalize (inject_Z (Math_round (DrawBrush.opacity base * 10)%Q)).
    generalize (DrawBrush.opacity base).
    intros x r [H1 H2]%Qabs_Qle_condition. apply Qabs_Qle_condition.
    assert (E : (r / 10 == r * (1 # 10))%Q) by (unfold Qdiv; reflexivity).
    rewrite E. split; lra. }
  split; [simpl; by rewrite opt_num_or_eff|]. split.
  { simpl. rewrite opt_num_or_eff. apply Math_round_nearest. }
  split; [apply makeCustomBrush_key|]. split.
  - intros E. rewrite !makeCustomBrush_key. f_equal.
    symmetry. by apply key_suffix_equiv.
  - intros Hm Hm' Hne E. rewrite !makeCustomBrush_key in E.
    apply (inj (String.app _)) in E. apply Hne.
    symmetry in E. by apply key_suffix_inj in E.
Qed.

Lemma makeCustomBrush_derived_witness :
  let base := brushes_model "red" in
  let m6 := DrawModifiers.mk (Some 6%Q) None in
  let m6h := DrawModifiers.mk (Some 6%Q) (Some true) in
  let m8 := DrawModifiers.mk (Some 8%Q) None in
  (opt_Qeq (width_eff (Some m6)) (width_eff (Some m6h))
   ∧ mods_decimal (Some m6) ∧ mods_decimal (Some m8)
   ∧ ¬ opt_Qeq (width_eff (Some m6)) (width_eff (Some m8)))
  ∧ DrawBrush.key (makeCustomBrush base m6) = "r6"
  ∧ DrawBrush.key (makeCustomBrush base m6h)
    = DrawBrush.key (makeCustomBrush base m6)
  ∧ DrawBrush.key (makeCustomBrush base m8)
    ≠ DrawBrush.key (makeCustomBrush base m6).
Proof.
  intros base m6 m6h m8.
  assert (H1 : opt_Qeq (width_eff (Some m6)) (width_eff (Some m6h))) by done.
  assert (H2 : mods_decimal (Some m6)) by (by intros x [= <-]).
  assert (H3 : mods_decimal (Some m8)) by (by intros x [= <-]).
  assert (H4 : ¬ opt_Qeq (width_eff (Some m6)) (width_eff (Some m8))) by done.
  split; [done|]. split; [reflexivity|]. split.
  - exact (proj1 (proj2 (proj2 (proj2 (proj2 (proj2 (proj2
      (makeCustomBrush_derived base m6 m6h))))))) H1).
  - exact (proj2 (proj2 (proj2 (proj2 (proj2 (proj2 (proj2
      (makeCustomBrush_derived base m6 m8))))))) H2 H3 H4).
Defined.

(** C5 as stated fails on the custom content: the sub-hash has 32 bits, and
    the markups "Aa" and "BB" share it, so two shapes that differ in their
    custom content only have one fingerprint. *)
Lemma custom_content_collision :
  let s1 := DrawShape.mk e4 None "green" None None (Some "Aa") in
  let s2 := DrawShape.mk e4 None "green" None None (Some "BB") in
  DrawShape.customSvg s1 ≠ DrawShape.customSvg s2
  ∧ customSvgHash "Aa" = "custom-2112"
  ∧ customSvgHash "BB" = "custom-2112"
  ∧ shapeHash s1 ∅ false bounds_512 = "512,512,e4,green,custom-2112"
  ∧ shapeHash s2 ∅ false bounds_512 = "512,512,e4,green,custom-2112".
Proof. by repeat split. Qed.

(** C5, amended.  [shapeHash] joins with "," what is left, once the falsy
    entries are dropped, of: bounds width, bounds height, live flag, origin,
    destination, brush name, the flag "more than one arrow ends on the
    destination", piece sub-hash, modifiers sub-hash, custom-content
    sub-hash.  Changing one of width, height, live flag, origin,
    destination, brush or modifiers changes the fingerprint, unless the
    change is between values that are both dropped (a zero and another zero
    width, an absent and a zero or false modifier); so does changing both
    sizes between non-zero sizes.  Changing the custom content changes the
    fingerprint exactly when it changes the 32-bit rolling hash of the
    content or whether there is content. *)
Theorem shapeHash_sensitivity (o : Key) (d : option Key) (br : string)
    (m : option DrawModifiers.t) (p : option DrawShapePiece.t)
    (c : option string) (t : ArrowDests) (cur : bool) (w h : number) :
  let fingerprint := hash_of o d br m p c t cur w h in
  fingerprint
  = join "," (filter_truthy
      [ JNum w; JNum h; JBool cur; JStr (Key_str o); opt_key d; JStr br;
        shared_entry t d; piece_entry p; mods_entry m; custom_entry c ])
  ∧ (∀ w', finite_decimal w = true → finite_decimal w' = true →
       ¬ (w' == w)%Q → hash_of o d br m p c t cur w' h ≠ fingerprint)
  ∧ (∀ h', finite_decimal h = true → finite_decimal h' = true →
       ¬ (h' == h)%Q → hash_of o d br m p c t cur w h' ≠ fingerprint)
  ∧ (∀ w' h', finite_decimal w = true → finite_decimal w' = true →
       finite_decimal h = true → finite_decimal h' = true →
       ¬ (w == 0)%Q → ¬ (w' == 0)%Q → ¬ (h == 0)%Q → ¬ (h' == 0)%Q →
       ¬ ((w' == w)%Q ∧ (h' == h)%Q) →
       hash_of o d br m p c t cur w' h' ≠ fingerprint)
  ∧ hash_of o d br m p c t (negb cur) w h ≠ fingerprint
  ∧ (∀ o', o' ≠ o → hash_of o' d br m p c t cur w h ≠ fingerprint)
  ∧ (∀ d', d' ≠ d → hash_of o d' br m p c t cur w h ≠ fingerprint)
  ∧ (∀ br', br' ≠ br → hash_of o d br' m p c t cur w h ≠ fingerprint)
  ∧ (∀ m', mods_decimal m → mods_decimal m' → ¬ mods_equiv m' m →
       hash_of o d br m' p c t cur w h ≠ fingerprint)
  ∧ (∀ m', mods_equiv m' m → hash_of o d br m' p c t cur w h = fingerprint)
  ∧ (∀ w' h', (w' == w)%Q → (h' == h)%Q →
       hash_of o d br m p c t cur w' h' = fingerprint)
  ∧ (∀ c', hash_of o d br m p c' t cur w h = fingerprint
           ↔ custom_eff c' = custom_eff c).
Proof.
  intros fingerprint. unfold fingerprint.
  split; [reflexivity|].
  split. { intros w' Hw Hw' Hne. by apply shapeHash_width, entry_num_ne. }
  split. { intros h' Hh Hh' Hne. by apply shapeHash_height, entry_num_ne. }
  split.
  { intros w' h' Hw Hw' Hh Hh' Zw Zw' Zh Zh' Hne.
    assert (Ht : ∀ x, ¬ (x == 0)%Q → num_truthy x = true).
    { intros x Hx. destruct (num_truthy x) eqn:E; [done|].
      by apply num_falsy_zero in E. }
    apply shapeHash_bounds; auto.
    destruct (Qeq_dec w' w) as [Ew|Ew].
    - right. intros E. apply Hne. split; [done|].
      by apply Number_toString_inj.
    - left. intros E. apply Ew. by apply Number_toString_inj. }
  split; [apply shapeHash_current|].
  split; [intros; by apply shapeHash_orig|].
  split; [intros; by apply shapeHash_dest|].
  split; [intros; by apply shapeHash_brush|].
  split; [intros; by apply shapeHash_modifiers|].
  split; [intros; by apply shapeHash_modifiers_equiv|].
  split.
  { intros w' h' Ew Eh. rewrite !shapeHash_entries.
    etrans; [apply (entries_same "," [] _ (JNum w') (JNum w)),
               entry_num_eq, Ew|].
    apply (entries_same "," [_]), entry_num_eq, Eh. }
  intros c'. split.
  - intros E. destruct (decide (custom_eff c' = custom_eff c)) as [|Hne];
      [done|]. by apply shapeHash_custom in E.
  - apply shapeHash_custom_same.
Qed.

Lemma shapeHash_sensitivity_witness :
  let m0 := Some (DrawModifiers.mk (Some 0%Q) (Some false)) in
  let m5 := Some (DrawModifiers.mk (Some 5%Q) None) in
  (finite_decimal 512%Q = true ∧ finite_decimal 600.5%Q = true
   ∧ ¬ (600.5 == 512)%Q
   ∧ mods_equiv m0 None ∧ mods_decimal None ∧ mods_decimal m5
   ∧ ¬ mods_equiv m5 None)
  ∧ hash_of (Sq Fa R1) (Some e4) "green" None None None ∅ false 600.5%Q 512%Q
    ≠ hash_of (Sq Fa R1) (Some e4) "green" None None None ∅ false 512%Q 512%Q
  ∧ hash_of (Sq Fa R1) (Some e4) "green" m0 None None ∅ false 512%Q 512%Q
    = hash_of (Sq Fa R1) (Some e4) "green" None None None ∅ false 512%Q 512%Q
  ∧ hash_of (Sq Fa R1) (Some e4) "green" m5 None None ∅ false 512%Q 512%Q
    ≠ hash_of (Sq Fa R1) (Some e4) "green" None None None ∅ false 512%Q 512%Q.
Proof.
  intros m0 m5.
  assert (H1 : finite_decimal 512%Q = true) by reflexivity.
  assert (H2 : finite_decimal 600.5%Q = true) by reflexivity.
  assert (H3 : ¬ (600.5 == 512)%Q) by discriminate.
  assert (H4 : mods_equiv m0 None) by done.
  assert (H5 : mods_decimal None) by (by intros x).
  assert (H6 : mods_decimal m5) by (by intros x [= <-]).
  assert (H7 : ¬ mods_equiv m5 None) by (by intros [_ ?]).
  split; [done|].
  destruct (shapeHash_sensitivity (Sq Fa R1) (Some e4) "green" None None None
    ∅ false 512%Q 512%Q) as (_ & Hw & _ & _ & _ & _ & _ & _ & Hm & He & _).
  split; [exact (Hw _ H1 H2 H3)|].
  split; [exact (He m0 H4)|exact (Hm m5 H5 H6 H7)].
Defined.

Lemma piece_autoShapes_excluded_witness :
  let ghost :=
    DrawShape.mk (Sq Fb R1) (Some e4) "green" None
      (Some (DrawShapePiece.mk knight white None)) None in
  let state :=
    {| State.orientation := white;
       State.bounds := bounds_512;
       State.drawable :=
         {| Drawable.shapes := [plain_shape (Sq Fa R1) (Some e4) "green"];
            Drawable.autoShapes := [ghost];
            Drawable.current := None;
            Drawable.brushes := brushes_model;
            Drawable.prevSvgHash := "" |} |} in
  (Drawable.autoShapes (State.drawable state) = [] ++ ghost :: []
   ∧ is_Some (DrawShape.piece ghost))
  ∧ arrowDests_of (State.drawable (set_autoShapes state ([] ++ [])))
    = arrowDests_of (State.drawable state)
  ∧ map SyncableShape.hash (syncable_shapes (State.drawable state) bounds_512)
    = ["512,512,a1,e4,green"]
  ∧ snd (renderSvg key2pos_model atan2_approx cos_approx sin_approx
           sqrt_approx PI_approx syncShapes_model
           (set_autoShapes state ([] ++ [])) empty_scene)
    = snd (renderSvg key2pos_model atan2_approx cos_approx sin_approx
             sqrt_approx PI_approx syncShapes_model state empty_scene).
Proof.
  intros ghost state.
  assert (H1 : Drawable.autoShapes (State.drawable state) = [] ++ ghost :: [])
    by reflexivity.
  assert (H2 : is_Some (DrawShape.piece ghost)) by (by eexists).
  split; [done|].
  destruct (piece_autoShapes_excluded key2pos_model atan2_approx cos_approx
    sin_approx sqrt_approx PI_approx syncShapes_model state empty_scene
    [] [] ghost H1 H2) as (_ & _ & _ & Ht & _ & Hs & _).
  split; [exact Ht|]. split; [vm_compute; reflexivity|exact Hs].
Defined.

(** * Further lemmas *)

(** ** The rolling hash as a fold *)

Lemma customSvgHash_loop_app (s t : string) (h : Z) :
  customSvgHash_loop (s +:+ t) h
  = customSvgHash_loop t (customSvgHash_loop s h).
Proof.
  revert h; induction s as [|c s IH]; intros h; [done|].
  rewrite Str.app_cons. cbn [customSvgHash_loop]. apply IH.
Qed.

Lemma customSvgHash_loop_Aa_BB (h : Z) :
  customSvgHash_loop "Aa" h = customSvgHash_loop "BB" h.
Proof.
  cbn [customSvgHash_loop]. rewrite !customSvgHash_step.
  change (charCode "A") with 65. change (charCode "a") with 97.
  change (charCode "B") with 66.
  rewrite <-(Zplus_mod_idemp_l (31 * ((31 * h + 65) mod 2 ^ 32))).
  rewrite <-(Zplus_mod_idemp_l (31 * ((31 * h + 66) mod 2 ^ 32))).
  rewrite !Zmult_mod_idemp_r, !Zplus_mod_idemp_l.
  f_equal. lia.
Qed.

(** ** The definitions pool after [syncDefs] *)

Lemma keysInDom_new_defs (keys : list (option string)) (m : CustomBrushes)
    (k : string) :
  keyed m →
  Some k ∈ keysInDom (new_defs keys m) ↔ k ∈ map fst m ∧ Some k ∉ keys.
Proof.
  induction m as [|[k0 b0] m IH]; intros Hk.
  - cbn [map]. unfold new_defs, keysInDom. cbn [flat_map map].
    rewrite !elem_of_nil. tauto.
  - apply Forall_cons in Hk as [Hb Hk]. cbn [fst snd] in Hb.
    rewrite new_defs_cons, keysInDom_app, elem_of_app, (IH Hk).
    cbn [map fst]. rewrite elem_of_cons.
    destruct (decide (Some k0 ∈ keys)) as [Hin|Hin].
    + rewrite (bool_decide_eq_true_2 _ Hin).
      unfold keysInDom at 1. cbn [map]. rewrite elem_of_nil.
      split; [tauto|]. intros [[->|?] ?]; [done|tauto].
    + rewrite (bool_decide_eq_false_2 _ Hin).
      unfold keysInDom at 1. cbn [map].
      rewrite (proj1 (proj2 (renderMarker_cgKey b0))).
      rewrite (proj1 (proj2 (renderLinearOpacityGradient_id b0))).
      rewrite Hb, !elem_of_cons, elem_of_nil.
      split.
      * intros [[[= ->]|[?|[]]]|?]; [|done|tauto]. split; [by left|done].
      * intros [[->|?] ?]; [left; by left|right; done].
Qed.

Lemma new_defs_none (keys : list (option string)) (m : CustomBrushes) :
  (∀ k, k ∈ map fst m → Some k ∈ keys) → new_defs keys m = [].
Proof.
  induction m as [|[k0 b0] m IH]; intros H; [done|].
  rewrite new_defs_cons, IH.
  - rewrite bool_decide_eq_true_2; [done|].
    apply H. cbn [map fst]. apply elem_of_cons. by left.
  - intros k Hk. apply H. cbn [map fst]. apply elem_of_cons. by right.
Qed.

Lemma required_no_dest (d : Drawable.t) (shapes : list SyncableShape.t)
    (m : CustomBrushes) :
  (∀ sc, sc ∈ shapes → has_dest (SyncableShape.shape sc) = false) →
  fold_left (syncDefs_collect d) shapes m = m.
Proof.
  revert m; induction shapes as [|sc shapes IH]; intros m H; [done|].
  cbn [fold_left]. unfold syncDefs_collect at 2.
  rewrite (H sc) by (apply elem_of_cons; by left).
  apply IH. intros sc' Hsc'. apply H, elem_of_cons. by right.
Qed.

(** ** Attributes *)

Lemma getAttribute_setAttribute_eq (el : Element) (k : string) (v : JsVal) :
  getAttribute (setAttribute el k v) k = Some (ToString v).
Proof.
  destruct el as [t a h c]. unfold getAttribute. cbn [setAttribute el_attrs].
  by rewrite assoc_get_set_eq.
Qed.


Lemma setAttribute_shape (el : Element) (k : string) (v : JsVal) :
  el_tag (setAttribute el k v) = el_tag el
  ∧ el_children (setAttribute el k v) = el_children el.
Proof. by destruct el. Qed.




(** ** The tally as a map *)

Lemma arrowDests_step_lookup (m : ArrowDests) (s : DrawShape.t) (k : Key) :
  arrowDests_step m s !! k
  = if bool_decide (DrawShape.dest s = Some k)
    then Some (arrowDests_get m k + 1)%nat else m !! k.
Proof.
  unfold arrowDests_step.
  destruct (DrawShape.dest s) as [d|]; [|done].
  rewrite Key_str_truthy. destruct (decide (d = k)) as [->|Hne].
  - by rewrite lookup_insert_eq, bool_decide_eq_true_2.
  - rewrite lookup_insert_ne, bool_decide_eq_false_2 by congruence. done.
Qed.

Lemma arrowDests_fold_lookup (l : list DrawShape.t) (m : ArrowDests) (k : Key) :
  fold_left arrowDests_step l m !! k
  = if decide (dest_count l k = 0%nat) then m !! k
    else Some (arrowDests_get m k + dest_count l k)%nat.
Proof.
  revert m; induction l as [|s l IH]; intros m; [done|].
  cbn [fold_left]. rewrite IH, arrowDests_step_get, arrowDests_step_lookup.
  unfold dest_count. cbn [List.filter].
  destruct (bool_decide (DrawShape.dest s = Some k)); cbn [length].
  - destruct (decide (length _ = 0%nat)) as [->|?];
      destruct (decide (_ = 0%nat)); try lia; f_equal; lia.
  - rewrite Nat.add_0_r. by destruct (decide (length _ = 0%nat)).
Qed.

(** ** Fingerprints are not empty *)

Lemma join_str_first_nonempty (sep x : string) (l : list string) :
  x ≠ "" → join_str sep (x :: l) ≠ "".
Proof.
  intros Hx. rewrite join_str_cons. destruct x; [done|].
  by rewrite Str.app_cons.
Qed.

Lemma join_str_mid_nonempty (sep x : string) (pre post : list string) :
  x ≠ "" → join_str sep (pre ++ x :: post) ≠ "".
Proof.
  intros Hx E.
  pose proof (join_str_insert_length sep pre post x) as H.
  rewrite E in H. destruct x; [done|]. cbn [String.length] in H. lia.
Qed.

Lemma shapeHash_nonempty (s : DrawShape.t) (t : ArrowDests) (cur : bool)
    (b : DOMRect.t) :
  shapeHash s t cur b ≠ "".
Proof.
  destruct s as [o d br m p c], b as [w h].
  rewrite shapeHash_entries_dest.
  assert (E : omap entry [JNum w; JNum h; JBool cur; JStr (Key_str o)]
              = omap entry [JNum w; JNum h; JBool cur] ++ [Key_str o]).
  { change [JNum w; JNum h; JBool cur; JStr (Key_str o)]
      with ([JNum w; JNum h; JBool cur] ++ [JStr (Key_str o)]).
    rewrite omap_app. f_equal. cbn [omap list_omap]. by rewrite entry_key. }
  rewrite E, <-(assoc_L (++)). cbn [app].
  apply join_str_mid_nonempty. pose proof (Key_str_length o).
  by destruct (Key_str o).
Qed.

(** ** Rounding *)

Lemma Math_round_inject_Z (z : Z) : Math_round (inject_Z z) = z.
Proof.
  unfold Math_round.
  pose proof (Qfloor_le (inject_Z z + (1 # 2))) as Hle.
  pose proof (Qlt_floor (inject_Z z + (1 # 2))) as Hlt.
  set (f := Qfloor (inject_Z z + (1 # 2))) in *.
  assert (H1 : (inject_Z f < inject_Z (z + 1))%Q).
  { rewrite inject_Z_plus. change (inject_Z 1) with 1%Q. lra. }
  assert (H2 : (inject_Z z < inject_Z (f + 1))%Q) by lra.
  rewrite <-Zlt_Qlt in H1, H2. lia.
Qed.

Lemma Math_round_Qeq (x y : number) :
  (x == y)%Q → Math_round x = Math_round y.
Proof. intros E. unfold Math_round. by rewrite E. Qed.

(** ** Separated texts *)

(** A head free of the separator is cut off in one way only, whether a
    separator follows it or the text ends. *)
Lemma head_split (P : ascii → bool) (c : ascii) (s s' t t' : string) :
  P c = false → all_chars P s = true → all_chars P s' = true →
  (t = "" ∨ ∃ t0, t = String c t0) → (t' = "" ∨ ∃ t0, t' = String c t0) →
  s +:+ t = s' +:+ t' → s = s' ∧ t = t'.
Proof.
  intros Hc. revert s'.
  induction s as [|a s IH]; intros [|a' s'] Hs Hs' Ht Ht' Heq;
    rewrite ?Str.app_nil_l, ?Str.app_cons in Heq; cbn [all_chars] in *.
  - done.
  - apply andb_prop in Hs' as [Ha _].
    destruct Ht as [->|[t0 ->]]; [done|]. injection Heq as <- _. congruence.
  - apply andb_prop in Hs as [Ha _].
    destruct Ht' as [->|[t0 ->]]; [done|]. injection Heq as -> _. congruence.
  - injection Heq as -> Heq. apply andb_prop in Hs as [_ Hs].
    apply andb_prop in Hs' as [_ Hs'].
    destruct (IH s' Hs Hs' Ht Ht' Heq) as [-> ->]. done.
Qed.

(** ** The piece sub-hash *)

Lemma Color_str_inj (c c' : Color) : Color_str c = Color_str c' → c = c'.
Proof. destruct c, c'; intros H; try reflexivity; discriminate H. Qed.

Lemma Role_str_inj (r r' : Role) : Role_str r = Role_str r' → r = r'.
Proof. destruct r, r'; intros H; try reflexivity; discriminate H. Qed.

Lemma Role_str_no_comma (r : Role) : all_chars not_comma (Role_str r) = true.
Proof. by destruct r. Qed.

Lemma pieceHash_form (p : DrawShapePiece.t) :
  pieceHash p
  = Color_str (DrawShapePiece.color p)
    +:+ String "," (Role_str (DrawShapePiece.role p)
                    +:+ match scale_eff p with
                        | Some x => String "," (Number_toString x)
                        | None => ""
                        end).
Proof.
  unfold pieceHash, scale_eff. rewrite join_filter_entries.
  assert (Ec : entry (JStr (Color_str (DrawShapePiece.color p)))
               = Some (Color_str (DrawShapePiece.color p))).
  { by destruct (DrawShapePiece.color p). }
  assert (Er : entry (JStr (Role_str (DrawShapePiece.role p)))
               = Some (Role_str (DrawShapePiece.role p))).
  { by destruct (DrawShapePiece.role p). }
  cbn [omap list_omap]. rewrite Ec, Er.
  destruct (DrawShapePiece.scale p) as [x|]; cbn [opt_num].
  - unfold entry. cbn [truthy ToString]. destruct (num_truthy x).
    + rewrite !join_str_cons. cbn [join_tail].
      by rewrite !(Str.app_cons ","), !Str.app_nil_l, Str.app_nil_r.
    + rewrite !join_str_cons. cbn [join_tail].
      by rewrite !(Str.app_cons ","), !Str.app_nil_l, !Str.app_nil_r.
  - unfold entry. cbn [truthy]. rewrite !join_str_cons. cbn [join_tail].
    by rewrite !(Str.app_cons ","), !Str.app_nil_l, !Str.app_nil_r.
Qed.

Lemma pieceHash_inj (p p' : DrawShapePiece.t) :
  (∀ x, scale_eff p = Some x → finite_decimal x = true) →
  (∀ x, scale_eff p' = Some x → finite_decimal x = true) →
  pieceHash p = pieceHash p' →
  DrawShapePiece.color p = DrawShapePiece.color p'
  ∧ DrawShapePiece.role p = DrawShapePiece.role p'
  ∧ opt_Qeq (scale_eff p) (scale_eff p').
Proof.
  intros Hd Hd' E. rewrite !pieceHash_form in E.
  apply Str.app_inv_len in E as [Ec E].
  2:{ by destruct (DrawShapePiece.color p), (DrawShapePiece.color p'). }
  injection E as E.
  apply (head_split not_comma ",") in E as [Er Es];
    [|done|apply Role_str_no_comma..| |].
  2:{ destruct (scale_eff p); [right; eauto|by left]. }
  2:{ destruct (scale_eff p'); [right; eauto|by left]. }
  split; [by apply Color_str_inj|]. split; [by apply Role_str_inj|].
  destruct (scale_eff p) as [x|], (scale_eff p') as [y|]; try done.
  injection Es as Es. apply Number_toString_inj; auto.
Qed.

Lemma pieceHash_equiv (p p' : DrawShapePiece.t) :
  DrawShapePiece.color p = DrawShapePiece.color p' →
  DrawShapePiece.role p = DrawShapePiece.role p' →
  opt_Qeq (scale_eff p) (scale_eff p') →
  pieceHash p = pieceHash p'.
Proof.
  intros Ec Er Es. rewrite !pieceHash_form, Ec, Er. do 3 f_equal.
  destruct (scale_eff p) as [x|], (scale_eff p') as [y|]; try done.
  cbn [opt_Qeq] in Es. f_equal. unfold Number_toString.
  by rewrite (Qred_complete _ _ Es).
Qed.

Lemma entry_piece (p : DrawShapePiece.t) :
  entry (piece_entry (Some p)) = Some (pieceHash p).
Proof.
  unfold piece_entry, entry. cbn [truthy ToString].
  rewrite pieceHash_form. by destruct (DrawShapePiece.color p).
Qed.

(** ** Definitions and the references to them *)

Lemma has_defs_app (pool l : list Element) (k : string) :
  has_defs pool k ∨ has_defs l k → has_defs (pool ++ l) k.
Proof.
  intros [[(m & Hm & ?) (g & Hg & ?)]|[(m & Hm & ?) (g & Hg & ?)]];
    (split; [exists m|exists g]); (split; [|done]); apply elem_of_app; auto.
Qed.

Lemma new_defs_has (keys : list (option string)) (m : CustomBrushes)
    (k : string) :
  keyed m → k ∈ map fst m → Some k ∉ keys → has_defs (new_defs keys m) k.
Proof.
  intros Hk [b Hb]%keys_elem Hn.
  unfold keyed in Hk. rewrite Forall_forall in Hk.
  pose proof (Hk _ Hb) as Hkb. cbn [fst snd] in Hkb.
  destruct (new_defs_elem keys m k b Hb Hn) as [Hm Hg].
  split.
  - exists (renderMarker b). split; [done|].
    destruct (renderMarker_cgKey b) as (-> & _ & ->). by rewrite Hkb.
  - exists (renderLinearOpacityGradient b). split; [done|].
    destruct (renderLinearOpacityGradient_id b) as (-> & _ & ->).
    by rewrite Hkb.
Qed.

Lemma syncDefs_has_defs (d : Drawable.t) (shapes : list SyncableShape.t)
    (pool : list Element) (k : string) :
  pool_wf pool →
  Some k ∈ keysInDom pool ∨ requires d shapes k →
  has_defs (syncDefs d shapes pool) k.
Proof.
  intros Hwf Hk. rewrite syncDefs_appends. apply has_defs_app.
  destruct (decide (Some k ∈ keysInDom pool)) as [Hin|Hin].
  - left. by apply Hwf.
  - right. destruct Hk as [?|Hreq]; [done|].
    apply new_defs_has; [apply required_brushes_inv| |done].
    by apply required_brushes_keys.
Qed.

(** What [syncDefs] appends is a marker or a gradient of a brush. *)
Lemma new_defs_origin (keys : list (option string)) (m : CustomBrushes)
    (el : Element) :
  el ∈ new_defs keys m →
  ∃ b, el = renderMarker b ∨ el = renderLinearOpacityGradient b.
Proof.
  unfold new_defs. intros Hel%list_elem_of_In.
  apply in_flat_map in Hel as ([k b] & _ & Hel). cbn [fst snd] in Hel.
  destruct (negb (keysInDom_has keys k)); [|by destruct Hel].
  exists b. destruct Hel as [<-|[<-|[]]]; auto.
Qed.

(** * Further properties of the code *)

(** ** Geometry *)

(** X1.  Turning the board is a point reflection through its centre: the
    user-space position of a square under black orientation is the negation,
    on both axes, of its position under white. *)
Theorem pos2user_black_reflects (pos : Pos) (bounds : DOMRect.t) :
  (fst (pos2user (orient pos black) bounds)
   == - fst (pos2user (orient pos white) bounds))%Q
  ∧ (snd (pos2user (orient pos black) bounds)
     == - snd (pos2user (orient pos white) bounds))%Q.
Proof.
  destruct pos as [x y]. unfold pos2user, orient. cbn [fst snd].
  assert (E : ∀ z, (inject_Z (7 - z) == 7 - inject_Z z)%Q).
  { intros z. unfold Z.sub. by rewrite inject_Z_plus, inject_Z_opp. }
  rewrite !E. split; ring.
Qed.

(** X2.  Both orientations keep a square of the board on the board, and
    turning the board twice gives the square back. *)
Theorem orient_on_board (pos : Pos) (color : Color) :
  0 ≤ fst pos ≤ 7 → 0 ≤ snd pos ≤ 7 →
  (0 ≤ fst (orient pos color) ≤ 7 ∧ 0 ≤ snd (orient pos color) ≤ 7)
  ∧ orient (orient pos color) color = pos.
Proof.
  destruct pos as [x y], color; cbn [orient fst snd]; intros Hx Hy.
  - done.
  - split; [lia|]. f_equal; lia.
Qed.

Lemma orient_on_board_witness :
  (0 ≤ fst (key2pos_model e4) ≤ 7 ∧ 0 ≤ snd (key2pos_model e4) ≤ 7)
  ∧ orient (key2pos_model e4) black = (3, 4)
  ∧ orient (orient (key2pos_model e4) black) black = key2pos_model e4.
Proof.
  assert (Hx : 0 ≤ fst (key2pos_model e4) ≤ 7) by (simpl; lia).
  assert (Hy : 0 ≤ snd (key2pos_model e4) ≤ 7) by (simpl; lia).
  split; [done|]. split; [reflexivity|].
  exact (proj2 (orient_on_board (key2pos_model e4) black Hx Hy)).
Defined.

(** X3.  On bounds of positive width and height, a square of the board is
    mapped into the square of side 7 around the origin, and one of the two
    axes is not scaled: on bounds at least as wide as high the x coordinate
    is the file minus 3.5, on bounds at least as high as wide the y
    coordinate is 3.5 minus the rank. *)
Theorem pos2user_in_frame (pos : Pos) (bounds : DOMRect.t) :
  (0 < DOMRect.width bounds)%Q → (0 < DOMRect.height bounds)%Q →
  0 ≤ fst pos ≤ 7 → 0 ≤ snd pos ≤ 7 →
  let u := pos2user pos bounds in
  (Qabs (fst u) <= 3.5)%Q ∧ (Qabs (snd u) <= 3.5)%Q
  ∧ ((DOMRect.height bounds <= DOMRect.width bounds)%Q →
     (fst u == inject_Z (fst pos) - 3.5)%Q)
  ∧ ((DOMRect.width bounds <= DOMRect.height bounds)%Q →
     (snd u == 3.5 - inject_Z (snd pos))%Q).
Proof.
  intros Hw Hh Hx Hy u. unfold u, pos2user. cbn [fst snd].
  destruct pos as [x y]. cbn [fst snd] in *.
  assert (Hscale : ∀ a b, (0 < a)%Q → (0 < b)%Q →
    (0 < Math_min 1 (a / b) <= 1)%Q
    ∧ ((b <= a)%Q → (Math_min 1 (a / b) == 1)%Q)).
  { intros a b Ha Hb.
    assert (Hq : (0 < a / b)%Q).
    { unfold Qdiv. apply Qmult_lt_0_compat; [done|].
      by apply Qinv_lt_0_compat. }
    unfold Math_min. destruct (Qle_bool 1 (a / b)) eqn:E.
    - split; [split; [reflexivity|apply Qle_refl]|reflexivity].
    - assert (Hlt : (a / b < 1)%Q).
      { apply Qnot_le_lt. intros H%Qle_bool_iff. congruence. }
      split; [split; [done|by apply Qlt_le_weak]|].
      intros Hba. exfalso. apply (Qlt_not_le _ _ Hlt).
      apply Qle_shift_div_l; [done|]. by rewrite Qmult_1_l. }
  destruct (Hscale _ _ Hw Hh) as [[Hx0 Hx1] Hxe].
  destruct (Hscale _ _ Hh Hw) as [[Hy0 Hy1] Hye].
  revert Hx0 Hx1 Hxe Hy0 Hy1 Hye.
  generalize (Math_min 1%Q (DOMRect.width bounds / DOMRect.height bounds)%Q).
  generalize (Math_min 1%Q (DOMRect.height bounds / DOMRect.width bounds)%Q).
  intros sy sx Hx0 Hx1 Hxe Hy0 Hy1 Hye.
  assert (Hix : (0 <= inject_Z x <= 7)%Q).
  { split; [change 0%Q with (inject_Z 0)|change 7%Q with (inject_Z 7)];
      rewrite <-Zle_Qle; lia. }
  assert (Hiy : (0 <= inject_Z y <= 7)%Q).
  { split; [change 0%Q with (inject_Z 0)|change 7%Q with (inject_Z 7)];
      rewrite <-Zle_Qle; lia. }
  revert Hix Hiy. generalize (inject_Z x) (inject_Z y). intros a b Ha Hb.
  split; [|split; [|split]].
  - apply Qabs_Qle_condition. split; nra.
  - apply Qabs_Qle_condition. split; nra.
  - intros H. rewrite (Hxe H). ring.
  - intros H. rewrite (Hye H). ring.
Qed.

Lemma pos2user_in_frame_witness :
  let wide := DOMRect.mk 800%Q 400%Q in
  ((0 < DOMRect.width wide)%Q ∧ (0 < DOMRect.height wide)%Q
   ∧ 0 ≤ fst (key2pos_model e4) ≤ 7 ∧ 0 ≤ snd (key2pos_model e4) ≤ 7)
  ∧ (Qabs (snd (pos2user (key2pos_model e4) wide)) <= 3.5)%Q
  ∧ (fst (pos2user (key2pos_model e4) wide) == 0.5)%Q.
Proof.
  intros wide.
  assert (Hw : (0 < DOMRect.width wide)%Q) by reflexivity.
  assert (Hh : (0 < DOMRect.height wide)%Q) by reflexivity.
  assert (Hx : 0 ≤ fst (key2pos_model e4) ≤ 7) by (simpl; lia).
  assert (Hy : 0 ≤ snd (key2pos_model e4) ≤ 7) by (simpl; lia).
  split; [done|].
  destruct (pos2user_in_frame (key2pos_model e4) wide Hw Hh Hx Hy)
    as (_ & Hv & Hf & _).
  split; [exact Hv|]. rewrite Hf; [reflexivity|discriminate].
Defined.

(** ** Stroke width and opacity *)

(** X4.  A brush is never drawn with width 0 or opacity 0: a zero line
    width stands for 10 and a zero opacity for 1.  The live shape is drawn
    at 0.85 of the width and 0.9 of the opacity of a persisted one. *)
Theorem lineWidth_opacity_fallback (brush : DrawBrush.t) (current : bool) :
  ¬ (lineWidth brush current == 0)%Q
  ∧ ¬ (opacity brush current == 0)%Q
  ∧ (lineWidth brush true == 0.85 * lineWidth brush false)%Q
  ∧ (opacity brush true == 0.9 * opacity brush false)%Q
  ∧ ((DrawBrush.lineWidth brush == 0)%Q →
     (lineWidth brush false == 10 / 64)%Q)
  ∧ ((DrawBrush.opacity brush == 0)%Q → (opacity brush false == 1)%Q).
Proof.
  assert (Hor : ∀ x y, ¬ (y == 0)%Q →
    ¬ (num_or x y == 0)%Q ∧ ((x == 0)%Q → num_or x y = y)).
  { intros x y Hy. unfold num_or, num_truthy.
    assert (Hz : (x == 0)%Q → Qnum x = 0).
    { unfold Qeq. simpl. lia. }
    destruct (Z.eqb_spec (Qnum x) 0) as [E|E]; simpl; [done|].
    split; [tauto|]. intros H. by destruct (E (Hz H)). }
  destruct (Hor (DrawBrush.lineWidth brush) 10%Q ltac:(discriminate))
    as [Hw Hw0].
  destruct (Hor (DrawBrush.opacity brush) 1%Q ltac:(discriminate))
    as [Ho Ho0].
  unfold lineWidth, opacity. repeat apply conj.
  - intros H. apply Hw. revert H.
    generalize (num_or (DrawBrush.lineWidth brush) 10%Q). intros q H.
    destruct current.
    + assert (E : (q * 0.85 / 64 == q * (85 # 6400))%Q) by field.
      rewrite E in H. lra.
    + assert (E : (q * 1 / 64 == q * (1 # 64))%Q) by field.
      rewrite E in H. lra.
  - intros H. apply Ho.
    destruct current; revert H;
      generalize (num_or (DrawBrush.opacity brush) 1%Q); intros q H; lra.
  - field.
  - ring.
  - intros H. rewrite (Hw0 H). reflexivity.
  - intros H. rewrite (Ho0 H). reflexivity.
Qed.

Lemma lineWidth_opacity_fallback_witness :
  let brush := DrawBrush.mk "z" "#000000" 0%Q 0%Q in
  ((DrawBrush.lineWidth brush == 0)%Q ∧ (DrawBrush.opacity brush == 0)%Q)
  ∧ (lineWidth brush false == 10 / 64)%Q ∧ (opacity brush false == 1)%Q.
Proof.
  intros brush.
  assert (H1 : (DrawBrush.lineWidth brush == 0)%Q) by reflexivity.
  assert (H2 : (DrawBrush.opacity brush == 0)%Q) by reflexivity.
  split; [exact (conj H1 H2)|].
  destruct (lineWidth_opacity_fallback brush false)
    as (_ & _ & _ & _ & Hw & Ho).
  exact (conj (Hw H1) (Ho H2)).
Defined.

(** ** The custom-content hash *)

(** X5.  The hash of a concatenation continues the hash of its first part:
    the loop over [s ++ t] from [h] is the loop over [t] from the result of
    the loop over [s]; so one more character [c] takes the hash [H] of the
    content before it to [(31 * H + c) mod 2^32]. *)
Theorem customSvgHash_loop_composes (s t : string) (c : ascii) (h : Z) :
  customSvgHash_loop (s +:+ t) h
  = customSvgHash_loop t (customSvgHash_loop s h)
  ∧ customSvgHash_loop (s +:+ String c "") 0
    = (31 * customSvgHash_loop s 0 + charCode c) mod 2 ^ 32.
Proof.
  split; [apply customSvgHash_loop_app|].
  rewrite customSvgHash_loop_app. cbn [customSvgHash_loop].
  apply customSvgHash_step.
Qed.

(** X6.  Collisions of the custom-content hash survive any context: the
    markups [p ++ "Aa" ++ q] and [p ++ "BB" ++ q] are different and have
    the same sub-hash, whatever [p] and [q] are. *)
Theorem customSvgHash_collides_in_context (p q : string) :
  p +:+ "Aa" +:+ q ≠ p +:+ "BB" +:+ q
  ∧ customSvgHash (p +:+ "Aa" +:+ q) = customSvgHash (p +:+ "BB" +:+ q).
Proof.
  split.
  - intros E. apply (inj (String.app p)) in E. discriminate E.
  - unfold customSvgHash. rewrite !customSvgHash_loop_app.
    by rewrite customSvgHash_loop_Aa_BB.
Qed.

(** ** The definitions pool *)

(** X7.  After [syncDefs] the keys tagged on the children of the
    definitions node are those tagged before together with the keys the
    pass uses: the key of the brush of every destination-carrying shape
    (whether or not it is drawn as an arrow) and "hilite" when such a shape
    is hilited. *)
Theorem syncDefs_keys (d : Drawable.t) (shapes : list SyncableShape.t)
    (defsEl : list Element) (k : string) :
  Some k ∈ keysInDom (syncDefs d shapes defsEl)
  ↔ Some k ∈ keysInDom defsEl ∨ requires d shapes k.
Proof.
  rewrite syncDefs_appends, keysInDom_app, elem_of_app.
  rewrite keysInDom_new_defs by apply required_brushes_inv.
  rewrite required_brushes_keys.
  destruct (decide (Some k ∈ keysInDom defsEl)); tauto.
Qed.

(** X8.  [syncDefs] is idempotent: run again on the node it has filled, for
    the same shapes, it appends nothing. *)
Theorem syncDefs_idempotent (d : Drawable.t) (shapes : list SyncableShape.t)
    (defsEl : list Element) :
  syncDefs d shapes (syncDefs d shapes defsEl) = syncDefs d shapes defsEl.
Proof.
  rewrite (syncDefs_appends d shapes (syncDefs d shapes defsEl)).
  rewrite new_defs_none; [apply app_nil_r|].
  intros k Hk. rewrite syncDefs_appends, keysInDom_app, elem_of_app.
  rewrite keysInDom_new_defs by apply required_brushes_inv.
  destruct (decide (Some k ∈ keysInDom defsEl)); tauto.
Qed.

(** X9.  Shapes without a destination (square highlights, custom markup on
    a square) need no definitions: [syncDefs] leaves the node as it is,
    whatever their brushes and modifiers. *)
Theorem syncDefs_without_dest (d : Drawable.t) (shapes : list SyncableShape.t)
    (defsEl : list Element) :
  (∀ sc, sc ∈ shapes → has_dest (SyncableShape.shape sc) = false) →
  syncDefs d shapes defsEl = defsEl.
Proof.
  intros H. rewrite syncDefs_appends. unfold required_brushes.
  rewrite (required_no_dest d shapes [] H). apply app_nil_r.
Qed.

Lemma syncDefs_without_dest_witness :
  let sc := SyncableShape.mk hilited_square false "512,512,e4,green,true" in
  (∀ sc', sc' ∈ [sc] → has_dest (SyncableShape.shape sc') = false)
  ∧ syncDefs (State.drawable state_three_persisted) [sc]
      [renderMarker hilite_brush]
    = [renderMarker hilite_brush].
Proof.
  intros sc.
  assert (H : ∀ sc', sc' ∈ [sc] → has_dest (SyncableShape.shape sc') = false).
  { intros sc' ->%list_elem_of_singleton. reflexivity. }
  split; [exact H|].
  exact (syncDefs_without_dest _ [sc] _ H).
Defined.

(** X10.  [renderSvg] never removes or reorders a definition, whatever the
    reconciliation primitive does to the two shape layers: the children of
    the definitions node after the call start with those before it. *)
Theorem renderSvg_keeps_defs (key2pos : Key → Pos)
    (Math_atan2 : number → number → number)
    (Math_cos Math_sin Math_sqrt : number → number) (Math_PI : number)
    (syncShapes : list SyncableShape.t → list Element
                  → (SyncableShape.t → Element) → list Element)
    (state : State.t) (scene : Scene.t) :
  let after :=
    snd (renderSvg key2pos Math_atan2 Math_cos Math_sin Math_sqrt Math_PI
           syncShapes state scene) in
  ∃ added, Scene.defsEl after = Scene.defsEl scene ++ added
    ∧ ∀ k, Some k ∈ keysInDom added → Some k ∉ keysInDom (Scene.defsEl scene).
Proof.
  intros after. unfold after.
  set (d := State.drawable state).
  destruct (decide (fullHash_of (syncable_shapes d (State.bounds state))
                    = Drawable.prevSvgHash d)) as [E|E].
  - rewrite (renderSvg_same _ _ _ _ _ _ _ state scene E).
    exists []. split; [by rewrite app_nil_r|].
    intros k Hk. by apply elem_of_nil in Hk.
  - rewrite (renderSvg_changed key2pos Math_atan2 Math_cos Math_sin
      Math_sqrt Math_PI syncShapes state scene E).
    cbn [snd Scene.defsEl]. rewrite syncDefs_appends.
    eexists. split; [reflexivity|].
    intros k Hk. apply keysInDom_new_defs in Hk; [tauto|].
    apply required_brushes_inv.
Qed.

Lemma renderSvg_keeps_defs_witness :
  let scene := Scene.mk [renderMarker hilite_brush] [] [] in
  ∃ added,
    Scene.defsEl
      (snd (renderSvg key2pos_model atan2_approx cos_approx sin_approx
              sqrt_approx PI_approx syncShapes_model state_three_persisted
              scene))
    = renderMarker hilite_brush :: added
    ∧ Some "hilite" ∉ keysInDom added.
Proof.
  intros scene.
  destruct (renderSvg_keeps_defs key2pos_model atan2_approx cos_approx
    sin_approx sqrt_approx PI_approx syncShapes_model state_three_persisted
    scene) as (added & E & Hnew).
  exists added. split; [exact E|].
  intros Hk. apply (Hnew "hilite" Hk).
  apply elem_of_cons. left. reflexivity.
Defined.

(** ** Rendering a shape *)

(** X11.  Every element [renderShape] makes carries the fingerprint of its
    shape as [cgHash], the attribute the reconciliation keys on; it is a
    group for custom markup and for an arrow, and a rectangle for a square
    highlight. *)
Theorem renderShape_tagged (key2pos : Key → Pos)
    (Math_atan2 : number → number → number)
    (Math_cos Math_sin Math_sqrt : number → number) (Math_PI : number)
    (state : State.t) (sc : SyncableShape.t) (brushes : DrawBrushes)
    (arrowDests : ArrowDests) (bounds : DOMRect.t) :
  let el :=
    renderShape key2pos Math_atan2 Math_cos Math_sin Math_sqrt Math_PI
      state sc brushes arrowDests bounds in
  getAttribute el "cgHash" = Some (SyncableShape.hash sc)
  ∧ el_tag el
    = match custom_of (SyncableShape.shape sc),
            arrow_dest (SyncableShape.shape sc) with
      | None, None => "rect"
      | _, _ => "g"
      end.
Proof.
  intros el. unfold el, renderShape.
  split; [apply getAttribute_setAttribute_eq|].
  rewrite (proj1 (setAttribute_shape _ _ _)).
  destruct (custom_of (SyncableShape.shape sc)) as [c|].
  - unfold renderCustomSvg. by destruct (pos2user _ _).
  - destruct (arrow_dest (SyncableShape.shape sc)) as [k|]; [|done].
    unfold renderRectangleArrow. by destruct (modifiers_hilite _).
Qed.



(** ** The pass *)

(** X13.  The tally holds an entry exactly for the squares that are the
    destination of a shape of the pass, and the entry is the number of such
    shapes: it is never 0. *)
Theorem arrowDests_entries (d : Drawable.t) (k : Key) :
  arrowDests_of d !! k
  = if decide (dest_count (pass_shapes d) k = 0%nat) then None
    else Some (dest_count (pass_shapes d) k).
Proof.
  unfold arrowDests_of. rewrite arrowDests_fold_lookup.
  fold (pass_shapes d). unfold arrowDests_get. by rewrite lookup_empty.
Qed.

(** X14.  The shapes that are fingerprinted and rendered are the shapes
    that were tallied, in the same order; each carries the fingerprint
    computed with the tally of the whole pass; none of them is live except
    the last one, and that only when a shape is being drawn and the pointer
    is over a square. *)
Theorem syncable_shapes_structure (d : Drawable.t) (bounds : DOMRect.t) :
  let shapes := syncable_shapes d bounds in
  let persisted := Drawable.shapes d ++ nonPieceAutoShapes d in
  map SyncableShape.shape shapes = pass_shapes d
  ∧ (∀ sc, sc ∈ shapes →
       SyncableShape.hash sc
       = shapeHash (SyncableShape.shape sc) (arrowDests_of d)
           (SyncableShape.current sc) bounds)
  ∧ map SyncableShape.current shapes
    = map (λ _, false) persisted ++ map (λ _, true) (option_list (cur_of d))
  ∧ (is_Some (cur_of d)
     ↔ ∃ c, Drawable.current d = Some c ∧ is_Some (DrawCurrent.mouseSq c)).
Proof.
  intros shapes persisted. unfold shapes, syncable_shapes, pass_shapes.
  fold persisted. split; [|split; [|split]].
  - rewrite map_app, map_map. cbn [SyncableShape.shape].
    rewrite map_id. by destruct (cur_of d).
  - intros sc [Hin|Hin]%elem_of_app.
    + apply list_elem_of_In, in_map_iff in Hin as (s & <- & _). done.
    + destruct (cur_of d); [|by apply elem_of_nil in Hin].
      by apply list_elem_of_singleton in Hin as ->.
  - rewrite map_app, map_map. cbn [SyncableShape.current].
    by destruct (cur_of d).
  - unfold cur_of. destruct (Drawable.current d) as [c|].
    + destruct (DrawCurrent.mouseSq c) as [k|] eqn:E; cbn [opt_key truthy].
      * rewrite Key_str_truthy. split; [|by eexists]. intros _. exists c.
        rewrite E. split; [done|by eexists].
      * split; [by intros [? ?]|]. intros (c' & [= <-] & [? H]).
        rewrite E in H. done.
    + split; [by intros [? ?]|]. by intros (c' & ? & _).
Qed.

Lemma syncable_shapes_structure_witness :
  let d := State.drawable state_three_to_e4 in
  is_Some (cur_of d)
  ∧ map SyncableShape.current (syncable_shapes d bounds_512)
    = [false; false; true].
Proof.
  intros d.
  destruct (syncable_shapes_structure d bounds_512) as (_ & _ & Hc & _).
  split; [by eexists|]. rewrite Hc. reflexivity.
Defined.

(** X15.  On a board that has not been drawn yet (the stored hash is the
    empty string), [renderSvg] leaves everything alone exactly when the pass
    has no shape: the fingerprint of a shape is never empty, so one shape is
    enough for the first render to take place. *)
Theorem renderSvg_first_render (key2pos : Key → Pos)
    (Math_atan2 : number → number → number)
    (Math_cos Math_sin Math_sqrt : number → number) (Math_PI : number)
    (syncShapes : list SyncableShape.t → list Element
                  → (SyncableShape.t → Element) → list Element)
    (state : State.t) (scene : Scene.t) :
  Drawable.prevSvgHash (State.drawable state) = "" →
  (renderSvg key2pos Math_atan2 Math_cos Math_sin Math_sqrt Math_PI
     syncShapes state scene = (state, scene)
   ↔ pass_shapes (State.drawable state) = [])
  ∧ ∀ s t cur b, shapeHash s t cur b ≠ "".
Proof.
  intros Hprev. split; [|apply shapeHash_nonempty].
  set (d := State.drawable state).
  assert (Hfull : fullHash_of (syncable_shapes d (State.bounds state)) = ""
                  ↔ pass_shapes d = []).
  { unfold fullHash_of, syncable_shapes, pass_shapes.
    destruct (Drawable.shapes d ++ nonPieceAutoShapes d) as [|s l].
    - destruct (cur_of d); cbn [map app option_list]; [|done].
      split; [|done]. intros H. by apply shapeHash_nonempty in H.
    - cbn [map app]. split; [|done]. intros H.
      by apply join_str_first_nonempty in H; [|apply shapeHash_nonempty]. }
  split.
  - intros E. apply Hfull.
    destruct (decide (fullHash_of (syncable_shapes d (State.bounds state))
                      = Drawable.prevSvgHash d)) as [E'|E'].
    + exact (eq_trans E' Hprev).
    + rewrite (renderSvg_changed key2pos Math_atan2 Math_cos Math_sin
        Math_sqrt Math_PI syncShapes state scene E') in E.
      injection E as E _. apply (f_equal (λ s, Drawable.prevSvgHash
        (State.drawable s))) in E. cbn in E. fold d in E. congruence.
  - intros E. apply renderSvg_same. fold d.
    apply Hfull in E. exact (eq_trans E (eq_sym Hprev)).
Qed.

Lemma renderSvg_first_render_witness :
  Drawable.prevSvgHash (State.drawable state_three_persisted) = ""
  ∧ pass_shapes (State.drawable state_three_persisted) ≠ []
  ∧ renderSvg key2pos_model atan2_approx cos_approx sin_approx sqrt_approx
      PI_approx syncShapes_model state_three_persisted empty_scene
    ≠ (state_three_persisted, empty_scene).
Proof.
  assert (H : Drawable.prevSvgHash (State.drawable state_three_persisted) = "")
    by reflexivity.
  split; [exact H|]. split; [discriminate|].
  intros E.
  apply (proj1 (renderSvg_first_render key2pos_model atan2_approx cos_approx
    sin_approx sqrt_approx PI_approx syncShapes_model state_three_persisted
    empty_scene H)) in E.
  discriminate E.
Defined.

(** ** Derived brushes *)

(** X16.  Modifiers that carry no line width that counts (the hilite flag
    alone, or a width of 0) derive a brush with the key and the colour of
    the base brush, so the arrow shares the base brush's marker and
    gradient: the derived brush renders to the very same definitions. *)
Theorem makeCustomBrush_shares_defs (base : DrawBrush.t) (m : DrawModifiers.t) :
  width_eff (Some m) = None →
  DrawBrush.key (makeCustomBrush base m) = DrawBrush.key base
  ∧ renderMarker (makeCustomBrush base m) = renderMarker base
  ∧ renderLinearOpacityGradient (makeCustomBrush base m)
    = renderLinearOpacityGradient base.
Proof.
  intros Hw.
  assert (Hk : DrawBrush.key (makeCustomBrush base m) = DrawBrush.key base).
  { rewrite makeCustomBrush_key, Hw. apply Str.app_nil_r. }
  split; [done|].
  unfold renderMarker, renderLinearOpacityGradient. rewrite !Hk. done.
Qed.

Lemma makeCustomBrush_shares_defs_witness :
  let m := DrawModifiers.mk None (Some true) in
  width_eff (Some m) = None
  ∧ renderMarker (makeCustomBrush (brushes_model "paleGrey") m)
    = renderMarker (brushes_model "paleGrey").
Proof.
  intros m. assert (H : width_eff (Some m) = None) by reflexivity.
  split; [exact H|].
  exact (proj1 (proj2 (makeCustomBrush_shares_defs _ m H))).
Defined.

(** X17.  Deriving a brush is stable: a non-zero whole override width is
    taken as it is, and deriving again from a derived brush, with any
    modifiers, leaves the opacity as it is (an opacity with one decimal is
    its own rounding). *)
Theorem makeCustomBrush_stable (base : DrawBrush.t) (m m' : DrawModifiers.t)
    (z : Z) :
  z ≠ 0 → DrawModifiers.lineWidth m = Some (inject_Z z) →
  DrawBrush.lineWidth (makeCustomBrush base m) = inject_Z z
  ∧ DrawBrush.opacity (makeCustomBrush (makeCustomBrush base m) m')
    = DrawBrush.opacity (makeCustomBrush base m).
Proof.
  intros Hz Hm. split.
  - cbn [makeCustomBrush DrawBrush.lineWidth]. rewrite Hm.
    unfold opt_num_or, num_or, num_truthy. cbn [inject_Z Qnum].
    apply Z.eqb_neq in Hz. rewrite Hz. cbn [negb].
    by rewrite Math_round_inject_Z.
  - cbn [makeCustomBrush DrawBrush.opacity]. do 2 f_equal.
    set (r := Math_round (DrawBrush.opacity base * 10)%Q).
    rewrite (Math_round_Qeq _ (inject_Z r)); [apply Math_round_inject_Z|].
    field.
Qed.

Lemma makeCustomBrush_stable_witness :
  let m := DrawModifiers.mk (Some (inject_Z 6)) None in
  (6 ≠ 0 ∧ DrawModifiers.lineWidth m = Some (inject_Z 6))
  ∧ DrawBrush.lineWidth (makeCustomBrush (brushes_model "paleGrey") m) = 6%Q
  ∧ DrawBrush.opacity (makeCustomBrush (brushes_model "paleGrey") m) = 0.4%Q.
Proof.
  intros m. assert (H1 : 6 ≠ 0) by lia.
  assert (H2 : DrawModifiers.lineWidth m = Some (inject_Z 6)) by reflexivity.
  split; [done|]. split; [|reflexivity].
  exact (proj1 (makeCustomBrush_stable (brushes_model "paleGrey") m m 6 H1 H2)).
Defined.

(** ** The piece sub-hash *)

(** X18.  The fingerprint tells attached pieces apart: changing the piece
    of a shape (attaching or removing one, or changing its colour, role or
    scale) changes the fingerprint, except when the change is between an
    absent scale and a scale of 0, which both are dropped. *)
Theorem shapeHash_piece (o : Key) (d : option Key) (br : string)
    (m : option DrawModifiers.t) (p p' : option DrawShapePiece.t)
    (c : option string) (t : ArrowDests) (cur : bool) (w h : number) :
  piece_decimal p → piece_decimal p' →
  (hash_of o d br m p' c t cur w h = hash_of o d br m p c t cur w h
   ↔ piece_equiv p' p).
Proof.
  intros Hp Hp'. split.
  - intros E. destruct (decide (entry (piece_entry p') = entry (piece_entry p)))
      as [Ee|Ee].
    + destruct p as [a|], p' as [a'|]; rewrite ?entry_piece in Ee;
        try done.
      injection Ee as Ee. apply pieceHash_inj in Ee; [done| |].
      * intros x. by apply Hp'.
      * intros x. by apply Hp.
    + exfalso. revert E. rewrite !shapeHash_entries.
      by apply (entries_change "," [_; _; _; _; _; _; _]).
  - intros E. rewrite !shapeHash_entries.
    apply (entries_same "," [_; _; _; _; _; _; _]).
    destruct p as [a|], p' as [a'|]; try done.
    destruct E as (Ec & Er & Es).
    by rewrite !entry_piece, (pieceHash_equiv a' a Ec Er Es).
Qed.

Lemma shapeHash_piece_witness :
  let scaled := Some (DrawShapePiece.mk knight white (Some 0.8%Q)) in
  let plain := Some (DrawShapePiece.mk knight white None) in
  (piece_decimal plain ∧ piece_decimal scaled ∧ ¬ piece_equiv scaled plain)
  ∧ hash_of e4 None "green" None scaled None ∅ false 512%Q 512%Q
    ≠ hash_of e4 None "green" None plain None ∅ false 512%Q 512%Q.
Proof.
  intros scaled plain.
  assert (H1 : piece_decimal plain) by (by intros a x [= <-]).
  assert (H2 : piece_decimal scaled) by (by intros a x [= <-] [= <-]).
  assert (H3 : ¬ piece_equiv scaled plain) by (by intros (_ & _ & ?)).
  split; [done|]. intros E. apply H3.
  exact (proj1 (shapeHash_piece e4 None "green" None plain scaled None ∅
                  false 512%Q 512%Q H1 H2) E).
Defined.

(** ** What the renderer looks at *)

(** X19.  Custom markup wins over everything else a shape carries: the
    element of a shape with markup depends on the markup, the origin, the
    orientation, the bounds and the fingerprint only; destination, brush,
    modifiers, piece, live flag, catalogue and tally do not matter.  The
    markup itself is handed over as it is, inside a 100 x 100 frame. *)
Theorem renderShape_custom (key2pos : Key → Pos)
    (Math_atan2 : number → number → number)
    (Math_cos Math_sin Math_sqrt : number → number) (Math_PI : number)
    (state : State.t) (bounds : DOMRect.t) (o : Key) (markup hash : string)
    (d d' : option Key) (br br' : string) (m m' : option DrawModifiers.t)
    (p p' : option DrawShapePiece.t) (cur cur' : bool)
    (brushes brushes' : DrawBrushes) (t t' : ArrowDests) :
  let render :=
    renderShape key2pos Math_atan2 Math_cos Math_sin Math_sqrt Math_PI
      state in
  markup ≠ "" →
  render (SyncableShape.mk (DrawShape.mk o d br m p (Some markup)) cur hash)
    brushes t bounds
  = render (SyncableShape.mk (DrawShape.mk o d' br' m' p' (Some markup)) cur' hash)
      brushes' t' bounds
  ∧ ∃ attrs frame,
      render (SyncableShape.mk (DrawShape.mk o d br m p (Some markup)) cur hash)
        brushes t bounds
      = El "g" attrs None
          [El "svg" frame (Some markup) []]
      ∧ assoc_get "viewBox" frame = Some (JStr "0 0 100 100").
Proof.
  intros render Hm. unfold render, renderShape.
  assert (Hc : ∀ d br m p,
    custom_of (DrawShape.mk o d br m p (Some markup)) = Some markup).
  { intros. unfold custom_of. cbn [DrawShape.customSvg]. by destruct markup. }
  cbn [SyncableShape.shape]. rewrite !Hc. split; [done|].
  unfold renderCustomSvg. destruct (pos2user _ _) as [x y].
  eexists _, _. split; reflexivity.
Qed.

Lemma renderShape_custom_witness :
  "<circle r='40'/>" ≠ ""
  ∧ renderShape key2pos_model atan2_approx cos_approx sin_approx sqrt_approx
      PI_approx state_three_persisted
      (SyncableShape.mk
         (DrawShape.mk e4 (Some (Sq Fa R1)) "red" None None
            (Some "<circle r='40'/>")) false "h")
      brushes_model ∅ bounds_512
    = renderShape key2pos_model atan2_approx cos_approx sin_approx sqrt_approx
        PI_approx state_three_persisted
        (SyncableShape.mk
           (DrawShape.mk e4 None "green" None None
              (Some "<circle r='40'/>")) true "h")
        brushes_model ∅ bounds_512.
Proof.
  assert (H : "<circle r='40'/>" ≠ "") by discriminate.
  split; [exact H|].
  exact (proj1 (renderShape_custom key2pos_model atan2_approx cos_approx
    sin_approx sqrt_approx PI_approx state_three_persisted bounds_512 e4
    "<circle r='40'/>" "h" (Some (Sq Fa R1)) None "red" "green" None None
    None None false true brushes_model brushes_model ∅ ∅ H)).
Defined.

(** X20.  A square highlight is drawn from the catalogue brush: modifiers
    (an override width, the hilite flag) and an attached piece change its
    fingerprint but not what is drawn. *)
Theorem renderShape_square_ignores_modifiers (key2pos : Key → Pos)
    (Math_atan2 : number → number → number)
    (Math_cos Math_sin Math_sqrt : number → number) (Math_PI : number)
    (state : State.t) (bounds : DOMRect.t) (o : Key) (d : option Key)
    (br hash : string) (m m' : option DrawModifiers.t)
    (p p' : option DrawShapePiece.t) (cur : bool) (brushes : DrawBrushes)
    (t t' : ArrowDests) :
  let render :=
    renderShape key2pos Math_atan2 Math_cos Math_sin Math_sqrt Math_PI
      state in
  (d = None ∨ d = Some o) →
  render (SyncableShape.mk (DrawShape.mk o d br m p None) cur hash)
    brushes t bounds
  = render (SyncableShape.mk (DrawShape.mk o d br m' p' None) cur hash)
      brushes t' bounds
  ∧ render (SyncableShape.mk (DrawShape.mk o d br m p None) cur hash)
      brushes t bounds
    = setAttribute
        (renderSquare (brushes br) (orient (key2pos o) (State.orientation state))
           cur bounds)
        "cgHash" (JStr hash).
Proof.
  intros render Hd. unfold render, renderShape.
  assert (Ha : ∀ m p, arrow_dest (DrawShape.mk o d br m p None) = None).
  { intros. destruct Hd as [-> | ->]; [done|].
    by apply arrow_dest_degenerate. }
  cbn [SyncableShape.shape SyncableShape.current SyncableShape.hash].
  unfold custom_of. cbn [DrawShape.customSvg]. rewrite !Ha. done.
Qed.

Lemma renderShape_square_ignores_modifiers_witness :
  (Some e4 = None ∨ Some e4 = Some e4)
  ∧ renderShape key2pos_model atan2_approx cos_approx sin_approx sqrt_approx
      PI_approx state_three_persisted
      (SyncableShape.mk
         (DrawShape.mk e4 (Some e4) "red"
            (Some (DrawModifiers.mk (Some 6%Q) (Some true))) None None)
         false "h")
      brushes_model ∅ bounds_512
    = setAttribute
        (renderSquare (brushes_model "red") (4, 3) false bounds_512)
        "cgHash" (JStr "h").
Proof.
  assert (H : Some e4 = None ∨ Some e4 = Some e4) by (by right).
  split; [exact H|].
  exact (proj2 (renderShape_square_ignores_modifiers key2pos_model
    atan2_approx cos_approx sin_approx sqrt_approx PI_approx
    state_three_persisted bounds_512 e4 (Some e4) "red" "h"
    (Some (DrawModifiers.mk (Some 6%Q) (Some true))) None None None false
    brushes_model ∅ ∅ H)).
Defined.

(** ** Definitions and the arrows that refer to them *)

(** X21.  [syncDefs] keeps the definitions node well formed: if every key
    tagged on a child has its marker [arrowhead-<key>] and its gradient
    [linearOpacityGradient-<key>] among the children, this is so after the
    call too (the empty node is well formed), and then every key the pass
    uses has both. *)
Theorem syncDefs_keeps_pool_wf (d : Drawable.t)
    (shapes : list SyncableShape.t) (pool : list Element) :
  pool_wf []
  ∧ (pool_wf pool →
     pool_wf (syncDefs d shapes pool)
     ∧ ∀ k, requires d shapes k → has_defs (syncDefs d shapes pool) k).
Proof.
  split.
  - intros k Hk. by apply elem_of_nil in Hk.
  - intros Hwf. split.
    + intros k Hk. apply syncDefs_has_defs; [done|].
      rewrite syncDefs_appends, keysInDom_app, elem_of_app in Hk.
      destruct Hk as [?|Hk]; [by left|right].
      apply keysInDom_new_defs in Hk as [Hk _];
        [|apply required_brushes_inv].
      by apply required_brushes_keys.
    + intros k Hk. apply syncDefs_has_defs; auto.
Qed.

Lemma syncDefs_keeps_pool_wf_witness :
  let d := State.drawable state_three_persisted in
  pool_wf []
  ∧ has_defs (syncDefs d (syncable_shapes d bounds_512) []) "g".
Proof.
  intros d.
  destruct (syncDefs_keeps_pool_wf d (syncable_shapes d bounds_512) [])
    as [Hnil Hwf].
  split; [exact Hnil|].
  apply (proj2 (Hwf Hnil)).
  eexists. split; [apply elem_of_cons; left; reflexivity|].
  split; [reflexivity|left; reflexivity].
Defined.

(** X22.  The references of an arrow to the definitions node.  In a pass
    over a well-formed node, the arrow of a shape of the pass names, as
    [marker-end] of its line and as [fill] of its shaft, a marker and a
    gradient that are children of the node after [syncDefs]; the halo of a
    hilited arrow names the marker [arrowhead-hilite], which is there as
    well.  The third reference of the shaft, its [mask], is to the id
    [markerLinearOpacityGradientMask], which [syncDefs] never creates: a
    child with that id is in the node after the call only if it was there
    before. *)
Theorem arrow_references_resolve (Math_atan2 : number → number → number)
    (Math_cos Math_sin Math_sqrt : number → number) (Math_PI : number)
    (d : Drawable.t) (shapes : list SyncableShape.t) (pool : list Element)
    (sc : SyncableShape.t) (orig dest : Pos) (current shorten : bool)
    (bounds : DOMRect.t) :
  let brush := shape_brush (Drawable.brushes d) (SyncableShape.shape sc) in
  let inner :=
    renderInner Math_atan2 Math_cos Math_sin Math_sqrt Math_PI brush orig dest
      current shorten bounds in
  let after := syncDefs d shapes pool in
  pool_wf pool → sc ∈ shapes → has_dest (SyncableShape.shape sc) = true →
  (∃ rect line marker gradient id_m id_g,
     inner false = El "g" [] None [rect; line]
     ∧ marker ∈ after ∧ el_tag marker = "marker"
     ∧ getAttribute marker "id" = Some id_m
     ∧ getAttribute line "marker-end" = Some ("url(#" +:+ id_m +:+ ")")
     ∧ gradient ∈ after ∧ el_tag gradient = "linearGradient"
     ∧ getAttribute gradient "id" = Some id_g
     ∧ getAttribute rect "fill" = Some ("url(#" +:+ id_g +:+ ")")
     ∧ getAttribute rect "mask"
       = Some "url(#markerLinearOpacityGradientMask)")
  ∧ (modifiers_hilite (SyncableShape.shape sc) = true →
     ∃ rect line marker id_m,
       inner true = El "g" [] None [rect; line]
       ∧ marker ∈ after ∧ el_tag marker = "marker"
       ∧ getAttribute marker "id" = Some id_m
       ∧ getAttribute line "marker-end" = Some ("url(#" +:+ id_m +:+ ")")
       ∧ getAttribute rect "fill" = Some "white"
       ∧ getAttribute rect "mask"
         = Some "url(#markerLinearOpacityGradientMask)")
  ∧ (∀ el, el ∈ after →
       getAttribute el "id" = Some "markerLinearOpacityGradientMask" →
       el ∈ pool).
Proof.
  intros brush inner after Hwf Hsc Hd.
  assert (Hreq : requires d shapes (DrawBrush.key brush)).
  { exists sc. auto. }
  split; [|split].
  - destruct (syncDefs_has_defs d shapes pool _ Hwf (or_intror Hreq))
      as [(mk & Hmk & Tm & Im) (gr & Hgr & Tg & Ig)].
    eexists _, _, mk, gr, _, _.
    split; [reflexivity|]. repeat (split; [eassumption|]).
    split; [reflexivity|]. repeat (split; [eassumption|]).
    split; reflexivity.
  - intros Hh.
    assert (Hreq' : requires d shapes "hilite").
    { exists sc. auto. }
    destruct (syncDefs_has_defs d shapes pool _ Hwf (or_intror Hreq'))
      as [(mk & Hmk & Tm & Im) _].
    eexists _, _, mk, _.
    split; [reflexivity|]. repeat (split; [eassumption|]).
    repeat split.
  - intros el Hel Hid. unfold after in Hel.
    rewrite syncDefs_appends in Hel.
    apply elem_of_app in Hel as [Hel|Hel]; [exact Hel|].
    exfalso. apply new_defs_origin in Hel as [b [-> | ->]].
    + destruct (renderMarker_cgKey b) as (_ & _ & E).
      rewrite E in Hid. discriminate Hid.
    + destruct (renderLinearOpacityGradient_id b) as (_ & _ & E).
      rewrite E in Hid. discriminate Hid.
Qed.

Lemma arrow_references_resolve_witness :
  let d := State.drawable state_three_persisted in
  let shapes := syncable_shapes d bounds_512 in
  let sc :=
    SyncableShape.mk (plain_shape (Sq Fa R1) (Some e4) "green") false
      "512,512,a1,e4,green,true" in
  (pool_wf [] ∧ sc ∈ shapes ∧ has_dest (SyncableShape.shape sc) = true)
  ∧ ∃ rect line marker id_m,
      renderInner atan2_approx cos_approx sin_approx sqrt_approx PI_approx
        (brushes_model "green") (0, 0) (4, 3) false true bounds_512 false
      = El "g" [] None [rect; line]
      ∧ marker ∈ syncDefs d shapes []
      ∧ getAttribute marker "id" = Some id_m
      ∧ getAttribute line "marker-end" = Some ("url(#" +:+ id_m +:+ ")").
Proof.
  intros d shapes sc.
  assert (H1 : pool_wf []) by (intros k Hk; by apply elem_of_nil in Hk).
  assert (H2 : sc ∈ shapes) by (apply elem_of_cons; left; reflexivity).
  assert (H3 : has_dest (SyncableShape.shape sc) = true) by reflexivity.
  split; [done|].
  destruct (proj1 (arrow_references_resolve atan2_approx cos_approx sin_approx
    sqrt_approx PI_approx d shapes [] sc (0, 0) (4, 3) false true bounds_512
    H1 H2 H3))
    as (rect & line & marker & gradient & id_m & id_g
        & E & Hm & _ & Im & Rm & _).
  exists rect, line, marker, id_m. done.
Defined.

(** ** The two passes of an arrow *)

(** X23.  A hilited arrow is a group of exactly two arrows, the white halo
    first and the coloured arrow on top of it; an arrow that is not hilited
    is the coloured arrow alone.  Both passes have the same line ends, the
    same shaft origin, length and rotation; the halo is opaque and 0.04
    thicker. *)
Theorem hilited_arrow_structure (Math_atan2 : number → number → number)
    (Math_cos Math_sin Math_sqrt : number → number) (Math_PI : number)
    (brush : DrawBrush.t) (orig dest : Pos) (current shorten : bool)
    (bounds : DOMRect.t) :
  let arrow :=
    renderRectangleArrow Math_atan2 Math_cos Math_sin Math_sqrt Math_PI
      brush orig dest current shorten bounds in
  let inner :=
    renderInner Math_atan2 Math_cos Math_sin Math_sqrt Math_PI brush orig dest
      current shorten bounds in
  arrow true = El "g" [] None [inner true; inner false]
  ∧ arrow false = inner false
  ∧ ∃ halo_rect halo_line rect line,
      inner true = El "g" [] None [halo_rect; halo_line]
      ∧ inner false = El "g" [] None [rect; line]
      ∧ el_tag rect = "rect" ∧ el_tag line = "line"
      ∧ (∀ k, k ∈ ["x1"; "y1"; "x2"; "y2"] →
           getAttribute halo_line k = getAttribute line k)
      ∧ (∀ k, k ∈ ["x"; "width"; "transform"] →
           getAttribute halo_rect k = getAttribute rect k)
      ∧ assoc_get "height" (el_attrs halo_rect)
        = Some (JNum (lineWidth brush current / 3 + 0.04)%Q)
      ∧ assoc_get "height" (el_attrs rect)
        = Some (JNum (lineWidth brush current / 3 + 0)%Q)
      ∧ assoc_get "opacity" (el_attrs halo_rect) = Some (JNum 1%Q)
      ∧ assoc_get "opacity" (el_attrs rect)
        = Some (JNum (opacity brush current)).
Proof.
  intros arrow inner. split; [reflexivity|]. split; [reflexivity|].
  eexists _, _, _, _.
  split; [reflexivity|]. split; [reflexivity|].
  split; [reflexivity|]. split; [reflexivity|].
  split.
  { intros k Hk. repeat (apply elem_of_cons in Hk as [->|Hk]; [reflexivity|]).
    by apply elem_of_nil in Hk. }
  split.
  { intros k Hk. repeat (apply elem_of_cons in Hk as [->|Hk]; [reflexivity|]).
    by apply elem_of_nil in Hk. }
  repeat split.
Qed.

Lemma hilited_arrow_structure_witness :
  let arrow :=
    renderRectangleArrow atan2_approx cos_approx sin_approx sqrt_approx
      PI_approx (brushes_model "green") (0, 0) (4, 3) false false
      bounds_512 in
  ∃ halo_rect halo_line rect line,
    arrow true
    = El "g" [] None
        [El "g" [] None [halo_rect; halo_line]; El "g" [] None [rect; line]]
    ∧ arrow false = El "g" [] None [rect; line]
    ∧ getAttribute halo_line "x2" = getAttribute line "x2".
Proof.
  intros arrow.
  destruct (hilited_arrow_structure atan2_approx cos_approx sin_approx
    sqrt_approx PI_approx (brushes_model "green") (0, 0) (4, 3) false false
    bounds_512) as (E1 & E2 & hr & hl & r & l & Eh & Ec & _ & _ & Hl & _).
  exists hr, hl, r, l. fold arrow in E1, E2.
  split; [by rewrite E1, Eh, Ec|]. split; [by rewrite E2, Ec|].
  apply Hl. do 2 (apply elem_of_cons; right). apply elem_of_cons. by left.
Defined.

(** X24.  For the live arrow, a shared destination changes the fingerprint
    but not the drawing: it is drawn with the same element whether or not
    other arrows end on its destination. *)
Theorem live_arrow_ignores_sharing (Math_atan2 : number → number → number)
    (Math_cos Math_sin Math_sqrt : number → number) (Math_PI : number)
    (brush : DrawBrush.t) (orig dest : Pos) (bounds : DOMRect.t)
    (hilited : bool) (s : DrawShape.t) (k : Key) (t t' : ArrowDests) :
  renderRectangleArrow Math_atan2 Math_cos Math_sin Math_sqrt Math_PI
    brush orig dest true true bounds hilited
  = renderRectangleArrow Math_atan2 Math_cos Math_sin Math_sqrt Math_PI
      brush orig dest true false bounds hilited
  ∧ (DrawShape.dest s = Some k →
     (1 < arrowDests_get t k)%nat → (arrowDests_get t' k ≤ 1)%nat →
     shapeHash s t true bounds ≠ shapeHash s t' true bounds).
Proof.
  split; [reflexivity|].
  intros Hd Ht Ht'. apply shapeHash_shared. rewrite Hd.
  unfold shared_entry, js_and. cbn [truthy]. rewrite Key_str_truthy.
  apply Nat.ltb_lt in Ht. rewrite Ht.
  assert (E : (1 <? arrowDests_get t' k)%nat = false)
    by (apply Nat.ltb_ge; lia).
  rewrite E. done.
Qed.

Lemma live_arrow_ignores_sharing_witness :
  let s := plain_shape (Sq Fc R1) (Some e4) "green" in
  let t := arrowDests_of (State.drawable state_three_to_e4) in
  (DrawShape.dest s = Some e4 ∧ (1 < arrowDests_get t e4)%nat
   ∧ (arrowDests_get ∅ e4 ≤ 1)%nat)
  ∧ shapeHash s t true bounds_512 ≠ shapeHash s ∅ true bounds_512.
Proof.
  intros s t.
  assert (H1 : DrawShape.dest s = Some e4) by reflexivity.
  assert (H2 : (1 < arrowDests_get t e4)%nat).
  { unfold t. rewrite arrowDests_of_count. cbv. lia. }
  assert (H3 : (arrowDests_get ∅ e4 ≤ 1)%nat).
  { unfold arrowDests_get. rewrite lookup_empty. simpl. lia. }
  split; [done|].
  exact (proj2 (live_arrow_ignores_sharing atan2_approx cos_approx sin_approx
    sqrt_approx PI_approx (brushes_model "green") (2, 0) (4, 3) bounds_512
    false s e4 t ∅) H1 H2 H3).
Defined.

(** X25.  The fingerprint of a shape looks at the tally only to see whether
    the shape's own destination has more than one arrow: a shape without a
    destination has the same fingerprint under every tally, and a further
    arrow on a destination that is shared already changes no fingerprint. *)
Theorem shapeHash_tally (s : DrawShape.t) (t t' : ArrowDests) (cur : bool)
    (bounds : DOMRect.t) :
  (∀ k, DrawShape.dest s = Some k →
        (1 <? arrowDests_get t k)%nat = (1 <? arrowDests_get t' k)%nat) →
  shapeHash s t cur bounds = shapeHash s t' cur bounds.
Proof.
  intros H. destruct s as [o d br m p c]. unfold shapeHash.
  cbn [DrawShape.dest] in *. destruct d as [k|]; [|done].
  by rewrite (H k eq_refl).
Qed.

Lemma shapeHash_tally_witness :
  let s := plain_shape (Sq Fa R1) (Some e4) "green" in
  let t2 : ArrowDests := {[ e4 := 2%nat ]} in
  let t3 : ArrowDests := {[ e4 := 3%nat ]} in
  (∀ k, DrawShape.dest s = Some k →
        (1 <? arrowDests_get t2 k)%nat = (1 <? arrowDests_get t3 k)%nat)
  ∧ shapeHash s t2 false bounds_512 = shapeHash s t3 false bounds_512.
Proof.
  intros s t2 t3.
  assert (H : ∀ k, DrawShape.dest s = Some k →
        (1 <? arrowDests_get t2 k)%nat = (1 <? arrowDests_get t3 k)%nat).
  { intros k [= <-]. unfold arrowDests_get, t2, t3.
    by rewrite !lookup_singleton_eq. }
  split; [exact H|].
  exact (shapeHash_tally s t2 t3 false bounds_512 H).
Defined.

(** ** A second pass *)

(** X26.  [renderSvg] is idempotent: called again on the state and the
    nodes it has produced, it changes nothing, whatever the reconciliation
    primitive does.  The hash it stores is the fingerprint of the pass it
    has just drawn. *)
Theorem renderSvg_idempotent (key2pos : Key → Pos)
    (Math_atan2 : number → number → number)
    (Math_cos Math_sin Math_sqrt : number → number) (Math_PI : number)
    (syncShapes : list SyncableShape.t → list Element
                  → (SyncableShape.t → Element) → list Element)
    (state : State.t) (scene : Scene.t) :
  let run :=
    renderSvg key2pos Math_atan2 Math_cos Math_sin Math_sqrt Math_PI
      syncShapes in
  run (fst (run state scene)) (snd (run state scene)) = run state scene
  ∧ Drawable.prevSvgHash (State.drawable (fst (run state scene)))
    = fullHash_of (syncable_shapes (State.drawable state) (State.bounds state)).
Proof.
  intros run. unfold run.
  set (d := State.drawable state).
  destruct (decide (fullHash_of (syncable_shapes d (State.bounds state))
                    = Drawable.prevSvgHash d)) as [E|E].
  - rewrite (renderSvg_same _ _ _ _ _ _ _ state scene E). cbn [fst snd].
    split; [|done]. by apply renderSvg_same.
  - rewrite (renderSvg_changed key2pos Math_atan2 Math_cos Math_sin
      Math_sqrt Math_PI syncShapes state scene E).
    cbn [fst snd]. split; [|done]. by apply renderSvg_same.
Qed.

(** ** The geometry of what is drawn *)

(** X27.  The shaft and the line of an arrow are shortened by one and the
    same margin.  Both start at the user-space position of the origin; the
    length of the shaft rectangle is the length of the displacement less
    the margin [arrowMargin (shorten && !current)], and the line ends short
    of the destination by the margin times the cosine and the sine of the
    angle, that is by the shortening of the shaft laid along the angle.
    This holds for the halo and for the coloured arrow alike, and the
    margin is 20/64 for a persisted arrow that is to be shortened and 10/64
    otherwise. *)
Theorem arrow_shortened_by_margin (Math_atan2 : number → number → number)
    (Math_cos Math_sin Math_sqrt : number → number) (Math_PI : number)
    (brush : DrawBrush.t) (orig dest : Pos) (current shorten : bool)
    (bounds : DOMRect.t) (isHilite : bool) :
  let a := pos2user orig bounds in
  let b := pos2user dest bounds in
  let dx := (fst b - fst a)%Q in
  let dy := (snd b - snd a)%Q in
  let angle := Math_atan2 dy dx in
  let len := Math_sqrt (dx * dx + dy * dy)%Q in
  let m := arrowMargin (shorten && negb current) in
  m = (if shorten && negb current then 20 / 64 else 10 / 64)%Q
  ∧ ∃ rect line width x2 y2,
      renderInner Math_atan2 Math_cos Math_sin Math_sqrt Math_PI brush orig
        dest current shorten bounds isHilite
      = El "g" [] None [rect; line]
      ∧ assoc_get "x" (el_attrs rect) = Some (JNum (fst a))
      ∧ assoc_get "x1" (el_attrs line) = Some (JNum (fst a))
      ∧ assoc_get "y1" (el_attrs line) = Some (JNum (snd a))
      ∧ assoc_get "width" (el_attrs rect) = Some (JNum width)
      ∧ assoc_get "x2" (el_attrs line) = Some (JNum x2)
      ∧ assoc_get "y2" (el_attrs line) = Some (JNum y2)
      ∧ (len - width == m)%Q
      ∧ (fst b - x2 == (len - width) * Math_cos angle)%Q
      ∧ (snd b - y2 == (len - width) * Math_sin angle)%Q.
Proof.
  intros a b dx dy angle len m. split; [apply arrowMargin_if|].
  eexists _, _, _, _, _.
  split; [reflexivity|]. do 6 (split; [reflexivity|]).
  fold a b. fold dx dy. fold angle. fold len. fold m.
  generalize m len (Math_cos angle) (Math_sin angle) (fst b) (snd b).
  intros q l c s b0 b1. repeat split; ring.
Qed.

(** X28.  Square highlights leave no gap.  The rectangle of a square is
    one unit wide and high and centred on the user-space position of the
    square; the rectangles of two neighbouring files are [xScale] apart,
    which is positive and at most 1: they abut on bounds at least as wide
    as high and overlap otherwise. *)
Theorem renderSquare_no_gap (brush : DrawBrush.t) (x y : Z) (current : bool)
    (bounds : DOMRect.t) :
  (0 < DOMRect.width bounds)%Q → (0 < DOMRect.height bounds)%Q →
  ∃ x0 x1 y0,
    assoc_get "x" (el_attrs (renderSquare brush (x, y) current bounds))
    = Some (JNum x0)
    ∧ assoc_get "y" (el_attrs (renderSquare brush (x, y) current bounds))
      = Some (JNum y0)
    ∧ assoc_get "x" (el_attrs (renderSquare brush (x + 1, y) current bounds))
      = Some (JNum x1)
    ∧ assoc_get "width" (el_attrs (renderSquare brush (x, y) current bounds))
      = Some (JNum 1%Q)
    ∧ assoc_get "height" (el_attrs (renderSquare brush (x, y) current bounds))
      = Some (JNum 1%Q)
    ∧ (x0 + 0.5 == fst (pos2user (x, y) bounds))%Q
    ∧ (y0 + 0.5 == snd (pos2user (x, y) bounds))%Q
    ∧ (0 < x1 - x0 <= 1)%Q
    ∧ ((DOMRect.height bounds <= DOMRect.width bounds)%Q → (x1 - x0 == 1)%Q)
    ∧ ((DOMRect.width bounds < DOMRect.height bounds)%Q → (x1 - x0 < 1)%Q).
Proof.
  intros Hw Hh. eexists _, _, _.
  do 5 (split; [reflexivity|]).
  split; [ring|]. split; [ring|].
  unfold pos2user. cbn [fst snd].
  assert (Hq : (0 < DOMRect.width bounds / DOMRect.height bounds)%Q).
  { unfold Qdiv. apply Qmult_lt_0_compat; [done|].
    by apply Qinv_lt_0_compat. }
  assert (Hs : (0 < Math_min 1 (DOMRect.width bounds / DOMRect.height bounds)
                <= 1)%Q
    ∧ ((DOMRect.height bounds <= DOMRect.width bounds)%Q →
       (Math_min 1 (DOMRect.width bounds / DOMRect.height bounds) == 1)%Q)
    ∧ ((DOMRect.width bounds < DOMRect.height bounds)%Q →
       (Math_min 1 (DOMRect.width bounds / DOMRect.height bounds) < 1)%Q)).
  { unfold Math_min.
    destruct (Qle_bool 1 (DOMRect.width bounds / DOMRect.height bounds))
      eqn:E.
    - split; [split; [reflexivity|apply Qle_refl]|].
      split; [reflexivity|].
      intros Hlt. exfalso. apply Qle_bool_iff in E.
      apply (Qlt_not_le _ _ Hlt).
      apply (Qmult_le_r _ _ (/ DOMRect.height bounds));
        [by apply Qinv_lt_0_compat|].
      rewrite Qmult_inv_r by (intros H0; rewrite H0 in Hh; discriminate Hh).
      exact E.
    - assert (Hlt : (DOMRect.width bounds / DOMRect.height bounds < 1)%Q).
      { apply Qnot_le_lt. intros H%Qle_bool_iff. congruence. }
      split; [split; [done|by apply Qlt_le_weak]|].
      split; [|done].
      intros Hle. exfalso. apply (Qlt_not_le _ _ Hlt).
      apply Qle_shift_div_l; [done|]. by rewrite Qmult_1_l. }
  destruct Hs as ([Hs0 Hs1] & Hse & Hsl). revert Hs0 Hs1 Hse Hsl.
  generalize (Math_min 1%Q (DOMRect.width bounds / DOMRect.height bounds)%Q).
  intros sx Hs0 Hs1 Hse Hsl.
  assert (Ex : (inject_Z (x + 1) == inject_Z x + 1)%Q)
    by (by rewrite inject_Z_plus).
  assert (Ed : ((inject_Z (x + 1) - 3.5) * sx - 0.5
                - ((inject_Z x - 3.5) * sx - 0.5) == sx)%Q)
    by (rewrite Ex; ring).
  rewrite !Ed. split; [done|]. split; [exact Hse|exact Hsl].
Qed.

Lemma renderSquare_no_gap_witness :
  let tall := DOMRect.mk 400%Q 800%Q in
  ((0 < DOMRect.width tall)%Q ∧ (0 < DOMRect.height tall)%Q)
  ∧ ∃ x0 x1,
      assoc_get "x" (el_attrs (renderSquare (brushes_model "green") (4, 3)
                                 false tall)) = Some (JNum x0)
      ∧ assoc_get "x" (el_attrs (renderSquare (brushes_model "green") (5, 3)
                                   false tall)) = Some (JNum x1)
      ∧ (x1 - x0 < 1)%Q.
Proof.
  intros tall.
  assert (Hw : (0 < DOMRect.width tall)%Q) by reflexivity.
  assert (Hh : (0 < DOMRect.height tall)%Q) by reflexivity.
  split; [exact (conj Hw Hh)|].
  destruct (renderSquare_no_gap (brushes_model "green") 4 3 false tall Hw Hh)
    as (x0 & x1 & y0 & E0 & _ & E1 & _ & _ & _ & _ & _ & _ & Hlt).
  exists x0, x1. split; [exact E0|]. split; [exact E1|].
  apply Hlt. reflexivity.
Defined.
